(** * The incremental ingestion engine

    A shallow embedding of [IncrementalIngestionEngine] (the tick entry
    point [taskFn], the lifecycle switch [handleNextAction], the burst loop
    [ingestOneBurst] and the per-page [mark]) together with the properties
    of the lifecycle state machine and of the burst executor.

    The engine is asynchronous, effectful TypeScript.  Every [await] on a
    collaborator (database manager, entity provider, catalog connection) is
    an external call: it is recorded in the world's call history, it may
    reject with a thrown value, and when it resolves it has the
    collaborator's effect on the world. *)

From Stdlib Require Import ZArith List Lia Bool Sorted.
From stdpp Require Import base gmap strings list.

Local Open Scope string_scope.
Local Open Scope list_scope.
Local Open Scope Z_scope.

(** ** Values thrown by JavaScript code *)

(** What a [catch (error)] clause receives from the collaborators: an
    [Error] object (with the [name] of its class and its [message]) or a
    string primitive, the two shapes [handleNextAction] tells apart with
    [typeof error === 'string'].  The engine reads [error.message]
    unguarded, so [null] and [undefined] are not among the values it is
    written for. *)
Inductive thrown : Type :=
| JsError (name message : string)
| JsString (s : string).

#[global] Instance thrown_eq_dec : EqDecision thrown.
Proof. solve_decision. Defined.

(** [(error as Error).message]: [undefined] on a string primitive. *)
Definition message (error : thrown) : option string :=
  match error with
  | JsError _ m => Some m
  | JsString _ => None
  end.

(** The kind of a thrown value: the class of the error object, or the
    primitive type. *)
Inductive error_kind : Type :=
| ErrorClass (name : string)
| StringPrimitive.

Definition kind_of (error : thrown) : error_kind :=
  match error with
  | JsError n _ => ErrorClass n
  | JsString _ => StringPrimitive
  end.

(** JavaScript truthiness of a string: every string but the empty one. *)
Definition truthy (s : string) : bool := negb (String.eqb s "").

(** [`${error}`]: [Error.prototype.toString] on an error object, the
    string itself on a primitive. *)
Definition to_template (error : thrown) : string :=
  match error with
  | JsError n m =>
      if String.eqb n "" then m
      else if String.eqb m "" then n
      else n +:+ ": " +:+ m
  | JsString s => s
  end.

(** [typeof error === 'string' ? error.substring(0, 700) : `${error}`] *)
Definition truncatedError (error : thrown) : string :=
  match error with
  | JsString s => String.substring 0 700 s
  | _ => to_template error
  end.

(** [(error as Error).message && (error as Error).message === 'CANCEL'] *)
Definition isCancel (error : thrown) : bool :=
  match message error with
  | Some m => truthy m && String.eqb m "CANCEL"
  | None => false
  end.

(** ** Durations (luxon) *)

(** [DurationObjectUnits], with the units the engine's own table uses and
    the finer ones; an absent unit is [0]. *)
Record DurationObjectUnits : Type := mkDuration {
  hours : Z;
  minutes : Z;
  seconds : Z;
  milliseconds : Z
}.

#[global] Instance DurationObjectUnits_eq_dec : EqDecision DurationObjectUnits.
Proof. solve_decision. Defined.

Definition Duration : Type := DurationObjectUnits.

(** [duration.as('milliseconds')] *)
Definition as_milliseconds (d : Duration) : Z :=
  hours d * 3600000 + minutes d * 60000 + seconds d * 1000 + milliseconds d.

(** [Duration.fromObject(obj)]: luxon rejects [undefined] with an
    instance of its class [InvalidArgumentError]; luxon's error classes
    extend [Error] without setting [name], so the [name] of the object is
    the inherited one, [Error]. *)
Definition invalid_duration : thrown :=
  JsError "Error"
    "Duration.fromObject: argument expected to be an object, got undefined".

Definition fromObject (obj : option DurationObjectUnits) : thrown + Duration :=
  match obj with
  | Some d => inr d
  | None => inl invalid_duration
  end.

(** [array[i]] for a JavaScript number [i] that is an integer:
    [undefined] out of range. *)
Definition js_index {A : Type} (l : list A) (i : Z) : option A :=
  if i <? 0 then None else nth_error l (Z.to_nat i).

(** ** Catalog entities *)

Record EntityMeta : Type := {
  meta_name : string;
  meta_namespace : option string;
  annotations : option (gmap string string)
}.

Record Entity : Type := {
  apiVersion : string;
  kind : string;
  metadata : EntityMeta
}.

Record DeferredEntity : Type := {
  entity : Entity;
  locationKey : option string
}.

(** [EntityProviderMutation] of the catalog connection. *)
Inductive EntityProviderMutation : Type :=
| FullMutation (entities : list DeferredEntity)
| DeltaMutation (added removed : list DeferredEntity).

(** A cursor is opaque to the engine; [None] is [undefined]. *)
Definition Cursor : Type := option string.

(** [EntityIteratorResult]: one page of the provider. *)
Record Page : Type := {
  page_done : bool;
  page_entities : list DeferredEntity;
  page_cursor : Cursor
}.

(** ** Rows of the persistent store *)

(** A row of [ingestion_marks]. *)
Record MarkRecord : Type := {
  mark_id : string;
  mark_ingestion_id : string;
  mark_cursor : Cursor;
  mark_sequence : Z
}.

(** A row of [ingestions]. *)
Record IngestionRecord : Type := {
  rec_id : string;
  provider_name : string;
  next_action : string;
  next_action_at : Z;
  attempts : Z;
  status : string;
  last_error : option string;
  completed : bool
}.

(** What [getCurrentAction] hands to the switch. *)
Record CurrentAction : Type := {
  ingestionId : string;
  nextAction : string;
  act_attempts : Z;
  nextActionAt : Z
}.

(** ** External calls and log lines *)

Inductive Call : Type :=
| AwaitReady
| GetCurrentIngestionRecord (provider : string)
| CreateProviderIngestionRecord (provider : string)
| ClearFinishedIngestions (provider : string)
| SetProviderComplete (id : string)
| SetProviderBursting (id : string)
| SetProviderResting (id : string) (length : Duration)
| SetProviderInterstitial (id : string)
| SetProviderCanceling (id : string) (reason : string)
| SetProviderBackoff (id : string) (attempts : Z) (error : thrown)
    (backoffLength : Z)
| SetProviderIngesting (id : string)
| SetProviderCanceled (id : string)
| GetLastMark (id : string)
| CreateMark (record : MarkRecord)
| CreateMarkEntities (markId : string) (entities : list DeferredEntity)
| ComputeRemoved (provider id : string)
| ApplyMutation (mutation : EntityProviderMutation)
| ProviderAround
| ProviderNext (cursor : Cursor).

(** An external call with how it settled: [None] resolved, [Some e]
    rejected with [e]. *)
Record Event : Type := Ev { ev_call : Call; ev_failure : option thrown }.

Inductive LogLevel : Type := Debug | Info | Error.

Inductive LogMessage : Type :=
| BeginTick
| EndTick
| TickError (text : string)
| RestComplete (id : string)
| RestContinuing (id : string)
| IngestionComplete (id : string) (rest : Duration)
| IngestionContinuing (id : string)
| IngestionCanceled (id : string)
| BurstError (error : thrown)
| BurstBackoff (id : string) (backoff : Duration) (truncated : string)
| BackoffComplete (id : string)
| BackoffContinuing (id : string)
| IngestionCanceling (id : string)
| UnknownAction (id action : string)
| DuplicateRecord (provider : string)
| RecordFound (id : string)
| RecordCreated (id : string)
| BurstInitiated (id : string)
| BurstComplete (id : string) (batches : Z)
| MarkLine (id : string) (entities : nat) (cursor : Cursor) (done : bool).

(** ** The world *)

Record World : Type := mkWorld {
  ingestions : list IngestionRecord;      (* persistent store: lifecycle rows *)
  marks : list MarkRecord;                (* persistent store: marks, oldest first *)
  mark_entities : list (string * list DeferredEntity);
  catalog : list EntityProviderMutation;  (* target store: mutations applied, oldest first *)
  now : Z;                                (* the clock of this tick, in milliseconds *)
  calls : list Event;                     (* history of external calls, oldest first *)
  fetched : list Page;                    (* history of the pages the provider returned *)
  reconciled : list (list DeferredEntity); (* history of the answers of computeRemoved *)
  logs : list (LogLevel * LogMessage)
}.

Definition set_ingestions (f : list IngestionRecord -> list IngestionRecord) (w : World) : World :=
  mkWorld (f (ingestions w)) (marks w) (mark_entities w) (catalog w) (now w)
    (calls w) (fetched w) (reconciled w) (logs w).

Definition set_marks (f : list MarkRecord -> list MarkRecord) (w : World) : World :=
  mkWorld (ingestions w) (f (marks w)) (mark_entities w) (catalog w) (now w)
    (calls w) (fetched w) (reconciled w) (logs w).

Definition set_mark_entities
    (f : list (string * list DeferredEntity) -> list (string * list DeferredEntity))
    (w : World) : World :=
  mkWorld (ingestions w) (marks w) (f (mark_entities w)) (catalog w) (now w)
    (calls w) (fetched w) (reconciled w) (logs w).

Definition set_catalog
    (f : list EntityProviderMutation -> list EntityProviderMutation) (w : World) : World :=
  mkWorld (ingestions w) (marks w) (mark_entities w) (f (catalog w)) (now w)
    (calls w) (fetched w) (reconciled w) (logs w).

Definition set_calls (f : list Event -> list Event) (w : World) : World :=
  mkWorld (ingestions w) (marks w) (mark_entities w) (catalog w) (now w)
    (f (calls w)) (fetched w) (reconciled w) (logs w).

Definition set_fetched (f : list Page -> list Page) (w : World) : World :=
  mkWorld (ingestions w) (marks w) (mark_entities w) (catalog w) (now w)
    (calls w) (f (fetched w)) (reconciled w) (logs w).

Definition set_reconciled
    (f : list (list DeferredEntity) -> list (list DeferredEntity)) (w : World) : World :=
  mkWorld (ingestions w) (marks w) (mark_entities w) (catalog w) (now w)
    (calls w) (fetched w) (f (reconciled w)) (logs w).

Definition set_logs
    (f : list (LogLevel * LogMessage) -> list (LogLevel * LogMessage)) (w : World) : World :=
  mkWorld (ingestions w) (marks w) (mark_entities w) (catalog w) (now w)
    (calls w) (fetched w) (reconciled w) (f (logs w)).

(** How the collaborators behave.  Every field may depend on the whole
    world, call history included, so a provider with state of its own, a
    store that fails the third write or a signal aborted half-way are all
    environments. *)
Record Env : Type := {
  env_fails : Call -> World -> option thrown;   (* does this call reject now? *)
  env_next : Cursor -> World -> Page;           (* provider.next, when it resolves *)
  env_aborted : World -> bool;                  (* signal.aborted *)
  env_removed : string -> string -> World -> list DeferredEntity;
                                                (* manager.computeRemoved, when it resolves *)
  env_uuid : World -> string                    (* v4() and the store's fresh ids *)
}.

(** ** The monad of asynchronous engine code *)

(** How an [async] function has settled after a bounded number of loop
    iterations: it returned, it threw, or it is still running. *)
Inductive outcome (A : Type) : Type :=
| Returned (a : A)
| Threw (e : thrown)
| Running.

Arguments Returned {A} a.
Arguments Threw {A} e.
Arguments Running {A}.

Definition M (A : Type) : Type := World -> outcome A * World.

Definition ret {A : Type} (a : A) : M A := fun w => (Returned a, w).

Definition throw {A : Type} (e : thrown) : M A := fun w => (Threw e, w).

Definition running {A : Type} : M A := fun w => (Running, w).

Definition bind {A B : Type} (m : M A) (k : A -> M B) : M B :=
  fun w =>
    match m w with
    | (Returned a, w') => k a w'
    | (Threw e, w') => (Threw e, w')
    | (Running, w') => (Running, w')
    end.

(** [try { body } catch (error) { handler }] *)
Definition try_catch {A : Type} (body : M A) (handler : thrown -> M A) : M A :=
  fun w =>
    match body w with
    | (Threw e, w') => handler e w'
    | settled => settled
    end.

(** [try { body } finally { finalizer }], for a finalizer that cannot throw. *)
Definition try_finally {A : Type} (body : M A) (finalizer : World -> World) : M A :=
  fun w =>
    match body w with
    | (Running, w') => (Running, w')
    | (settled, w') => (settled, finalizer w')
    end.

Declare Scope engine_scope.
Delimit Scope engine_scope with engine.
Notation "x <- m ;; k" := (bind m (fun x => k))
  (at level 100, m at next level, k at level 200, right associativity) : engine_scope.
Notation "m ;; k" := (bind m (fun _ => k))
  (at level 100, k at level 200, right associativity) : engine_scope.
Local Open Scope engine_scope.

(** [this.options.logger.<level>(...)] *)
Definition logger (level : LogLevel) (msg : LogMessage) : M unit :=
  fun w => (Returned tt, set_logs (fun l => l ++ [(level, msg)]) w).

(** [await collaborator.method(...)]: the call is recorded with how it
    settled; a rejected call has no effect, a resolved call has [effect]. *)
Definition extern {A : Type} (env : Env) (c : Call) (effect : World -> A * World) : M A :=
  fun w =>
    let failure := env_fails env c w in
    let w1 := set_calls (fun l => l ++ [Ev c failure]) w in
    match failure with
    | Some e => (Threw e, w1)
    | None => let '(a, w2) := effect w1 in (Returned a, w2)
    end.

(** ** The persistent store and the target store *)

(** The database manager ([IncrementalIngestionDatabaseManager]) is imported
    by the engine from [../database] and is not among the sources: its
    operations are modelled from the specification, from the lifecycle
    table (section 4.1), the data model (section 3) and the interface list
    (section 6).  A row update keeps the identity, the provider name and
    every field the specification does not mention. *)
Module Manager.

(** Modelled from the spec: which row [getCurrentIngestionRecord] looks
    for, "exactly one active ingestion record per provider name". *)
Definition is_current (provider : string) (r : IngestionRecord) : bool :=
  String.eqb (provider_name r) provider && negb (completed r).

(** Modelled from the spec: [getCurrentIngestionRecord(providerName) ->
    Record?], the active row of the provider. *)
Definition current_record (provider : string) (w : World) : option IngestionRecord :=
  List.find (is_current provider) (ingestions w).

(** Modelled from the spec: the transition operations of the manager
    mutate the row of the ingestion "in place". *)
Definition update_row (id : string) (f : IngestionRecord -> IngestionRecord)
    (w : World) : World :=
  set_ingestions (map (fun r => if String.eqb (rec_id r) id then f r else r)) w.

(** Modelled from the spec: [setProviderBursting], "mark as actively
    bursting". *)
Definition bursting (r : IngestionRecord) : IngestionRecord :=
  {| rec_id := rec_id r; provider_name := provider_name r;
     next_action := next_action r; next_action_at := next_action_at r;
     attempts := attempts r; status := "bursting";
     last_error := last_error r; completed := completed r |}.

(** Modelled from the spec: [setProviderInterstitial], "ingest (marked
    interstitial, i.e. idle until next tick)"; attempts are "reset on
    success". *)
Definition interstitial (r : IngestionRecord) : IngestionRecord :=
  {| rec_id := rec_id r; provider_name := provider_name r;
     next_action := next_action r; next_action_at := next_action_at r;
     attempts := 0; status := "interstitial";
     last_error := last_error r; completed := completed r |}.

(** Modelled from the spec: [setProviderResting], "rest (next-action-at =
    now + configured rest length)"; attempts are "reset on success". *)
Definition resting (clock : Z) (rest : Duration) (r : IngestionRecord) : IngestionRecord :=
  {| rec_id := rec_id r; provider_name := provider_name r;
     next_action := "rest"; next_action_at := clock + as_milliseconds rest;
     attempts := 0; status := "resting";
     last_error := last_error r; completed := completed r |}.

(** Modelled from the spec: [setProviderBackoff], "increment attempts;
    record failure reason; backoff (next-action-at = now + delay)". *)
Definition backing_off (clock : Z) (tried : Z) (error : thrown) (delay : Z)
    (r : IngestionRecord) : IngestionRecord :=
  {| rec_id := rec_id r; provider_name := provider_name r;
     next_action := "backoff"; next_action_at := clock + delay;
     attempts := tried + 1; status := "backing off";
     last_error := Some (to_template error); completed := completed r |}.

(** Modelled from the spec: [setProviderCanceling], "mark as canceling,
    recording the cancellation reason; cancel (next tick)". *)
Definition canceling (reason : string) (r : IngestionRecord) : IngestionRecord :=
  {| rec_id := rec_id r; provider_name := provider_name r;
     next_action := "cancel"; next_action_at := next_action_at r;
     attempts := attempts r; status := "canceling";
     last_error := Some reason; completed := completed r |}.

(** Modelled from the spec: [setProviderIngesting], "reset to resume
    ingesting". *)
Definition ingesting (r : IngestionRecord) : IngestionRecord :=
  {| rec_id := rec_id r; provider_name := provider_name r;
     next_action := "ingest"; next_action_at := next_action_at r;
     attempts := attempts r; status := "ingesting";
     last_error := last_error r; completed := completed r |}.

(** Modelled from the spec: [setProviderComplete] and
    [setProviderCanceled], "mark ingestion complete" and "finalize
    cancellation bookkeeping": the row stops being the active one, the next
    tick starts a fresh cycle with a new ingestion identity. *)
Definition finished (how : string) (r : IngestionRecord) : IngestionRecord :=
  {| rec_id := rec_id r; provider_name := provider_name r;
     next_action := next_action r; next_action_at := next_action_at r;
     attempts := attempts r; status := how;
     last_error := last_error r; completed := true |}.

(** Modelled from the spec: the rows [clearFinishedIngestions] purges,
    "stale completed ingestion rows for this provider". *)
Definition is_stale (provider : string) (r : IngestionRecord) : bool :=
  String.eqb (provider_name r) provider && completed r.

(** Modelled from the spec: the ingestions whose marks go with their
    row. *)
Definition owned_by_stale (provider : string) (w : World) (id : string) : bool :=
  existsb (fun r => is_stale provider r && String.eqb (rec_id r) id) (ingestions w).

(** Modelled from the spec: [clearFinishedIngestions], "purge stale
    completed ingestion rows for this provider"; the marks of an ingestion
    are "retained until the owning ingestion's records are cleared at
    rest-period completion". *)
Definition clear_finished (provider : string) (w : World) : World :=
  let gone := owned_by_stale provider w in
  let purged := List.filter (fun m => negb (gone (mark_ingestion_id m))) (marks w) in
  let kept (me : string * list DeferredEntity) :=
    existsb (fun m => String.eqb (mark_id m) (fst me)) purged in
  set_ingestions (List.filter (fun r => negb (is_stale provider r)))
    (set_marks (fun _ => purged)
       (set_mark_entities (List.filter kept) w)).

(** Modelled from the spec: the row of a new ingestion, "created when no
    record exists for a provider name": it is to ingest and has no failed
    attempt. *)
Definition fresh_row (id provider : string) (clock : Z) : IngestionRecord :=
  {| rec_id := id; provider_name := provider; next_action := "ingest";
     next_action_at := clock; attempts := 0; status := "assigned";
     last_error := None; completed := false |}.

(** Modelled from the spec: [createProviderIngestionRecord(providerName) ->
    {ingestionId, ...}]; it returns nothing when the provider has an
    active row already. *)
Definition create_record (id provider : string) (w : World)
    : option CurrentAction * World :=
  match current_record provider w with
  | Some _ => (None, w)
  | None =>
      (Some {| ingestionId := id; nextAction := "ingest"; act_attempts := 0;
               nextActionAt := now w |},
       set_ingestions (fun l => l ++ [fresh_row id provider (now w)]) w)
  end.

(** Modelled from the spec: [getLastMark(ingestionId) -> {cursor,
    sequence}?], the mark of the ingestion persisted last. *)
Definition last_mark (id : string) (w : World) : option MarkRecord :=
  last (List.filter (fun m => String.eqb (mark_ingestion_id m) id) (marks w)).

End Manager.

(** ** The engine *)

Record IterationEngineOptions : Type := {
  providerName : string;                         (* options.provider.getProviderName() *)
  opt_restLength : DurationObjectUnits;          (* options.restLength *)
  opt_backoff : option (list DurationObjectUnits) (* options.backoff *)
}.

Record IncrementalIngestionEngine : Type := {
  options : IterationEngineOptions;
  restLength : Duration;
  backoff : list DurationObjectUnits
}.

Definition default_backoff : list DurationObjectUnits :=
  [ mkDuration 0 1 0 0; mkDuration 0 5 0 0; mkDuration 0 30 0 0; mkDuration 3 0 0 0 ].

(** [constructor(private options: IterationEngineOptions)] *)
Definition constructor (opts : IterationEngineOptions) : IncrementalIngestionEngine :=
  {| options := opts;
     restLength := opt_restLength opts;
     backoff := match opt_backoff opts with
                | Some table => table
                | None => default_backoff
                end |}.

Section Engine.

Variable env : Env.

(** [INCREMENTAL_ENTITY_PROVIDER_ANNOTATION], a constant of the module
    [../types], which is not among the sources. *)
Variable INCREMENTAL_ENTITY_PROVIDER_ANNOTATION : string.

Variable this : IncrementalIngestionEngine.

(** *** The collaborators' methods *)

Definition ready : M unit :=
  extern env AwaitReady (fun w => (tt, w)).

Definition getCurrentIngestionRecord (provider : string) : M (option IngestionRecord) :=
  extern env (GetCurrentIngestionRecord provider)
    (fun w => (Manager.current_record provider w, w)).

Definition createProviderIngestionRecord (provider : string) : M (option CurrentAction) :=
  extern env (CreateProviderIngestionRecord provider)
    (fun w => Manager.create_record (env_uuid env w) provider w).

Definition clearFinishedIngestions (provider : string) : M unit :=
  extern env (ClearFinishedIngestions provider)
    (fun w => (tt, Manager.clear_finished provider w)).

Definition setProviderComplete (id : string) : M unit :=
  extern env (SetProviderComplete id)
    (fun w => (tt, Manager.update_row id (Manager.finished "complete") w)).

Definition setProviderBursting (id : string) : M unit :=
  extern env (SetProviderBursting id)
    (fun w => (tt, Manager.update_row id Manager.bursting w)).

Definition setProviderResting (id : string) (rest : Duration) : M unit :=
  extern env (SetProviderResting id rest)
    (fun w => (tt, Manager.update_row id (Manager.resting (now w) rest) w)).

Definition setProviderInterstitial (id : string) : M unit :=
  extern env (SetProviderInterstitial id)
    (fun w => (tt, Manager.update_row id Manager.interstitial w)).

Definition setProviderCanceling (id reason : string) : M unit :=
  extern env (SetProviderCanceling id reason)
    (fun w => (tt, Manager.update_row id (Manager.canceling reason) w)).

Definition setProviderBackoff (id : string) (tried : Z) (error : thrown)
    (backoffLength : Z) : M unit :=
  extern env (SetProviderBackoff id tried error backoffLength)
    (fun w => (tt, Manager.update_row id
                     (Manager.backing_off (now w) tried error backoffLength) w)).

Definition setProviderIngesting (id : string) : M unit :=
  extern env (SetProviderIngesting id)
    (fun w => (tt, Manager.update_row id Manager.ingesting w)).

Definition setProviderCanceled (id : string) : M unit :=
  extern env (SetProviderCanceled id)
    (fun w => (tt, Manager.update_row id (Manager.finished "canceled") w)).

Definition getLastMark (id : string) : M (option MarkRecord) :=
  extern env (GetLastMark id) (fun w => (Manager.last_mark id w, w)).

Definition createMark (record : MarkRecord) : M unit :=
  extern env (CreateMark record)
    (fun w => (tt, set_marks (fun l => l ++ [record]) w)).

Definition createMarkEntities (markId : string) (entities : list DeferredEntity) : M unit :=
  extern env (CreateMarkEntities markId entities)
    (fun w => (tt, set_mark_entities (fun l => l ++ [(markId, entities)]) w)).

(** The reconciliation query; what it answers is the environment's. *)
Definition computeRemoved (provider id : string) : M (list DeferredEntity) :=
  extern env (ComputeRemoved provider id)
    (fun w => let answer := env_removed env provider id w in
              (answer, set_reconciled (fun l => l ++ [answer]) w)).

(** [connection.applyMutation]: the target store takes the mutation. *)
Definition applyMutation (mutation : EntityProviderMutation) : M unit :=
  extern env (ApplyMutation mutation)
    (fun w => (tt, set_catalog (fun l => l ++ [mutation]) w)).

(** [provider.next(context, cursor)] *)
Definition provider_next (cursor : Cursor) : M Page :=
  extern env (ProviderNext cursor)
    (fun w => let page := env_next env cursor w in
              (page, set_fetched (fun l => l ++ [page]) w)).

(** [provider.around(fn)]: the provider sets its context up, which may
    reject, and runs [fn(context)] once; the context itself is opaque and
    left out. *)
Definition provider_around {A : Type} (fn : M A) : M A :=
  extern env ProviderAround (fun w => (tt, w)) ;; fn.

(** [signal.aborted] *)
Definition signal_aborted : M bool :=
  fun w => (Returned (env_aborted env w), w).

(** [v4()] *)
Definition v4 : M string :=
  fun w => (Returned (env_uuid env w), w).

(** [Date.now()] *)
Definition Date_now : M Z :=
  fun w => (Returned (now w), w).

(** *** [mark] *)

(** The object spread of [mark]: the entity with the provider's name
    under the annotation key, everything else as it was. *)
Definition tag (deferred : DeferredEntity) : DeferredEntity :=
  {| entity :=
       {| apiVersion := apiVersion (entity deferred);
          kind := kind (entity deferred);
          metadata :=
            {| meta_name := meta_name (metadata (entity deferred));
               meta_namespace := meta_namespace (metadata (entity deferred));
               annotations :=
                 Some (<[INCREMENTAL_ENTITY_PROVIDER_ANNOTATION :=
                           providerName (options this)]>
                         (default ∅ (annotations (metadata (entity deferred))))) |} |};
     locationKey := locationKey deferred |}.

Definition mark (id : string) (sequence : Z) (entities : list DeferredEntity)
    (done : bool) (cursor : Cursor) : M unit :=
  logger Debug (MarkLine id (length entities) cursor done) ;;
  markId <- v4 ;;
  createMark {| mark_id := markId; mark_ingestion_id := id;
                mark_cursor := cursor; mark_sequence := sequence |} ;;
  (if (0 <? length entities)%nat
   then createMarkEntities markId entities
   else ret tt) ;;
  let added := map tag entities in
  removed <- (if done
              then ret []
              else computeRemoved (providerName (options this)) id) ;;
  applyMutation (DeltaMutation added removed).

(** *** [ingestOneBurst] *)

(** The [while (true)] loop, entered with the page fetched last; [fuel]
    bounds the iterations observed.  It yields the captured variables
    [done] and [count]; the timing read from [performance.now()] only goes
    into a log line and is left out. *)
Fixpoint burst_loop (fuel : nat) (id : string) (sequence count : Z) (next : Page)
    : M (bool * Z) :=
  match fuel with
  | O => running
  | S fuel' =>
      mark id sequence (page_entities next) (page_done next) (page_cursor next) ;;
      aborted <- signal_aborted ;;
      if aborted || page_done next
      then ret (page_done next, count)
      else
        next' <- provider_next (page_cursor next) ;;
        burst_loop fuel' id (sequence + 1) (count + 1) next'
  end.

Definition ingestOneBurst (fuel : nat) (id : string) : M bool :=
  lastMark <- getLastMark id ;;
  let cursor := match lastMark with Some m => mark_cursor m | None => None end in
  let sequence := match lastMark with Some m => mark_sequence m + 1 | None => 0 end in
  logger Info (BurstInitiated id) ;;
  settled <- provider_around
               (next <- provider_next cursor ;;
                burst_loop fuel id sequence 1 next) ;;
  logger Info (BurstComplete id (snd settled)) ;;
  ret (fst settled).

(** *** [getCurrentAction] *)

Definition getCurrentAction : M (option CurrentAction) :=
  let provider := providerName (options this) in
  record <- getCurrentIngestionRecord provider ;;
  match record with
  | Some r =>
      logger Info (RecordFound (rec_id r)) ;;
      ret (Some {| ingestionId := rec_id r; nextAction := next_action r;
                   act_attempts := attempts r;
                   nextActionAt := next_action_at r |})
  | None =>
      result <- createProviderIngestionRecord provider ;;
      match result with
      | Some a => logger Info (RecordCreated (ingestionId a))
      | None => ret tt
      end ;;
      ret result
  end.

(** *** [handleNextAction] *)

(** The [try] block of [case 'ingest']. *)
Definition ingestTry (fuel : nat) (id : string) : M unit :=
  setProviderBursting id ;;
  done <- ingestOneBurst fuel id ;;
  if done : bool
  then
    logger Info (IngestionComplete id (restLength this)) ;;
    setProviderResting id (restLength this)
  else
    setProviderInterstitial id ;;
    logger Info (IngestionContinuing id).

(** [Duration.fromObject(this.backoff[Math.min(this.backoff.length - 1, attempts)])] *)
Definition currentBackoff (tried : Z) : thrown + Duration :=
  fromObject
    (js_index (backoff this) (Z.min (Z.of_nat (length (backoff this)) - 1) tried)).

(** The [else] branch of the [catch] block. *)
Definition ingestBackoff (id : string) (tried : Z) (error : thrown) : M unit :=
  match currentBackoff tried with
  | inl invalid => throw invalid
  | inr currentBackoff =>
      let backoffLength := as_milliseconds currentBackoff in
      logger Error (BurstError error) ;;
      logger Error (BurstBackoff id currentBackoff (truncatedError error)) ;;
      setProviderBackoff id tried error backoffLength
  end.

(** The [catch (error)] block of [case 'ingest']. *)
Definition ingestCatch (id : string) (tried : Z) (error : thrown) : M unit :=
  match message error with
  | Some m =>
      if truthy m && String.eqb m "CANCEL"
      then
        logger Info (IngestionCanceled id) ;;
        setProviderCanceling id m
      else ingestBackoff id tried error
  | None => ingestBackoff id tried error
  end.

(** The [switch (nextAction)] statement. *)
Definition dispatch (fuel : nat) (a : CurrentAction) : M unit :=
  let id := ingestionId a in
  if String.eqb (nextAction a) "rest" then
    clock <- Date_now ;;
    if clock >? nextActionAt a then
      clearFinishedIngestions (providerName (options this)) ;;
      logger Info (RestComplete id) ;;
      setProviderComplete id
    else logger Info (RestContinuing id)
  else if String.eqb (nextAction a) "ingest" then
    try_catch (ingestTry fuel id) (ingestCatch id (act_attempts a))
  else if String.eqb (nextAction a) "backoff" then
    clock <- Date_now ;;
    if clock >? nextActionAt a then
      logger Info (BackoffComplete id) ;;
      setProviderIngesting id
    else logger Info (BackoffContinuing id)
  else if String.eqb (nextAction a) "cancel" then
    logger Info (IngestionCanceling id) ;;
    setProviderCanceled id
  else logger Error (UnknownAction id (nextAction a)).

Definition handleNextAction (fuel : nat) : M unit :=
  ready ;;
  result <- getCurrentAction ;;
  match result with
  | Some a => dispatch fuel a
  | None => logger Error (DuplicateRecord (providerName (options this)))
  end.

(** *** [taskFn] *)

Definition taskFn (fuel : nat) : M unit :=
  try_finally
    (try_catch
       (logger Debug BeginTick ;;
        handleNextAction fuel)
       (fun error =>
          logger Error (TickError (to_template error)) ;;
          throw error))
    (set_logs (fun l => l ++ [(Debug, EndTick)])).

End Engine.

(** * Properties *)

(** ** External calls *)

Lemma extern_cases {A : Type} (env : Env) (c : Call) (effect : World -> A * World)
    (w : World) :
  let w1 := set_calls (fun l => l ++ [Ev c (env_fails env c w)]) w in
  (exists e, env_fails env c w = Some e /\ extern env c effect w = (Threw e, w1))
  \/ (env_fails env c w = None
      /\ extern env c effect w = (Returned (fst (effect w1)), snd (effect w1))).
Proof.
  unfold extern. destruct (env_fails env c w) as [e|] eqn:F; simpl.
  - left. exists e. split; reflexivity.
  - right. split; [reflexivity|]. destruct (effect _); reflexivity.
Qed.

Lemma bind_returned {A B : Type} (m : M A) (k : A -> M B) (w w1 : World) (a : A) :
  m w = (Returned a, w1) -> bind m k w = k a w1.
Proof. intros H. unfold bind. rewrite H. reflexivity. Qed.

(** ** The backoff table *)

Lemma js_index_clamped {A : Type} (l : list A) (a : Z) :
  l <> [] -> 0 <= a ->
  js_index l (Z.min (Z.of_nat (length l) - 1) a)
  = nth_error l (Nat.min (Z.to_nat a) (length l - 1)).
Proof.
  intros Hl Ha. unfold js_index.
  assert (0 < length l)%nat by (destruct l; [congruence | simpl; lia]).
  destruct (Z.ltb_spec (Z.min (Z.of_nat (length l) - 1) a) 0) as [Hneg|_]; [lia|].
  f_equal. lia.
Qed.

Lemma nth_error_last {A : Type} (l : list A) :
  nth_error l (length l - 1) = last l.
Proof.
  induction l as [|x [|y l] IH]; try reflexivity.
  change (last (x :: y :: l)) with (last (y :: l)). rewrite <- IH.
  simpl. rewrite Nat.sub_0_r. reflexivity.
Qed.

Lemma StronglySorted_nth_error {A : Type} (R : A -> A -> Prop) (l : list A) :
  (forall x, R x x) -> StronglySorted R l ->
  forall i j x y, (i <= j)%nat ->
    nth_error l i = Some x -> nth_error l j = Some y -> R x y.
Proof.
  intros Hrefl Hs. induction Hs as [|h t Hs IH Hall]; intros i j x y Hij Hi Hj.
  - destruct i; discriminate.
  - destruct i as [|i], j as [|j]; simpl in Hi, Hj.
    + injection Hi as <-. injection Hj as <-. apply Hrefl.
    + injection Hi as <-. rewrite List.Forall_forall in Hall.
      apply Hall. eapply nth_error_In; eauto.
    + lia.
    + apply (IH i j); auto with arith.
Qed.

(** The table is "ordered shortest-first". *)
Definition shortest_first (table : list DurationObjectUnits) : Prop :=
  StronglySorted (fun a b => as_milliseconds a <= as_milliseconds b) table.

(** The delay of the engine does not decrease with the attempts. *)
Definition delay_monotone (this : IncrementalIngestionEngine) : Prop :=
  forall a b da db, 0 <= a <= b ->
    currentBackoff this a = inr da -> currentBackoff this b = inr db ->
    as_milliseconds da <= as_milliseconds db.

(** The delay does not decrease with the attempts, whatever options the
    engine was constructed with. *)
Definition delay_monotone_for_every_table : Prop :=
  forall opts, delay_monotone (constructor opts).

(** The constructor keeps the table of the caller as it is given: an
    engine given 5 minutes, then 1 minute waits 5 minutes after the first
    failure and 1 minute after the second. *)
Lemma longest_first_table_delay_decreases : ~ delay_monotone_for_every_table.
Proof.
  intros H.
  specialize (H {| providerName := "github"; opt_restLength := mkDuration 1 0 0 0;
                   opt_backoff := Some [mkDuration 0 5 0 0; mkDuration 0 1 0 0] |}
                0 1 (mkDuration 0 5 0 0) (mkDuration 0 1 0 0)
                ltac:(lia) eq_refl eq_refl).
  vm_compute in H. apply H. reflexivity.
Qed.

Lemma StronglySorted_of_nth_error {A : Type} (R : A -> A -> Prop) (l : list A) :
  (forall i j x y, (i < j)%nat ->
     nth_error l i = Some x -> nth_error l j = Some y -> R x y) ->
  StronglySorted R l.
Proof.
  induction l as [|h t IH]; intros H; [constructor|].
  constructor.
  - apply IH. intros i j x y Hij Hi Hj. apply (H (S i) (S j)); [lia|exact Hi|exact Hj].
  - apply List.Forall_forall. intros y Hy.
    apply In_nth_error in Hy as [j Hj].
    apply (H 0%nat (S j)); [lia|reflexivity|exact Hj].
Qed.

Lemma currentBackoff_entry (this : IncrementalIngestionEngine) (i : nat) d :
  nth_error (backoff this) i = Some d ->
  currentBackoff this (Z.of_nat i) = inr d.
Proof.
  intros Hd.
  assert (Hi : (i < length (backoff this))%nat)
    by (apply nth_error_Some; congruence).
  unfold currentBackoff.
  rewrite js_index_clamped by (try lia; intros E; rewrite E in Hi; cbn in Hi; lia).
  rewrite Nat2Z.id, Nat.min_l by lia. rewrite Hd. reflexivity.
Qed.

(** C3, as the code has it: for a table that is not empty and attempts
    that are not negative, the delay handed to [setProviderBackoff] after
    a burst failure that is not a cancellation is the table entry at index
    [min(attempts, length - 1)], and it is the last entry from
    [attempts >= length] on; the delay does not decrease with the attempts
    exactly when the table is ordered shortest-first, and the constructor
    keeps the table of the caller whatever its order; with an empty table
    the look-up yields no delay but an error; the default table (1 minute,
    5 minutes, 30 minutes, 3 hours), taken when the options give none, is
    ordered shortest-first and yields 1 minute at 0 attempts and 3 hours at
    3 and at 10 attempts. *)
Theorem backoff_delay_clamped (this : IncrementalIngestionEngine) :
  (backoff this <> [] ->
   (forall a, 0 <= a ->
      exists d,
        currentBackoff this a = inr d
        /\ nth_error (backoff this)
             (Nat.min (Z.to_nat a) (length (backoff this) - 1)) = Some d
        /\ forall env id e w,
             isCancel e = false ->
             exists f,
               calls (snd (ingestCatch env this id a e w))
               = calls w ++ [Ev (SetProviderBackoff id a e (as_milliseconds d)) f])
   /\ (forall a, Z.of_nat (length (backoff this)) <= a ->
         currentBackoff this a = fromObject (last (backoff this))))
  /\ (delay_monotone this <-> shortest_first (backoff this))
  /\ (backoff this = [] -> forall a, currentBackoff this a = inl invalid_duration)
  /\ (forall opts table,
        opt_backoff opts = Some table -> backoff (constructor opts) = table)
  /\ (forall opts, opt_backoff opts = None ->
        backoff (constructor opts) = default_backoff
        /\ shortest_first (backoff (constructor opts))
        /\ currentBackoff (constructor opts) 0 = inr (mkDuration 0 1 0 0)
        /\ currentBackoff (constructor opts) 3 = inr (mkDuration 3 0 0 0)
        /\ currentBackoff (constructor opts) 10 = inr (mkDuration 3 0 0 0)
        /\ as_milliseconds (mkDuration 0 1 0 0) = 60 * 1000
        /\ as_milliseconds (mkDuration 3 0 0 0) = 3 * 60 * 60 * 1000).
Proof.
  assert (Hnone : backoff this = [] ->
                  forall a, currentBackoff this a = inl invalid_duration).
  { intros Hempty a. unfold currentBackoff, js_index. rewrite Hempty.
    destruct (Z.min (Z.of_nat (length (@nil DurationObjectUnits)) - 1) a <? 0);
      [reflexivity|].
    destruct (Z.to_nat _); reflexivity. }
  split; [|split; [|split; [|split]]].
  - intros Hne.
    assert (Hlen : (0 < length (backoff this))%nat)
      by (destruct (backoff this); [congruence | simpl; lia]).
    assert (Hentry : forall a, 0 <= a ->
              exists d, nth_error (backoff this)
                          (Nat.min (Z.to_nat a) (length (backoff this) - 1)) = Some d).
    { intros a Ha.
      destruct (nth_error (backoff this) (Nat.min (Z.to_nat a) (length (backoff this) - 1)))
        as [d|] eqn:E; [eauto|].
      apply nth_error_None in E. exfalso. lia. }
    split.
    + intros a Ha. destruct (Hentry a Ha) as [d Hd]. exists d.
      assert (Hcur : currentBackoff this a = inr d).
      { unfold currentBackoff. rewrite js_index_clamped by assumption.
        rewrite Hd. reflexivity. }
      split; [exact Hcur|]. split; [exact Hd|].
      intros env id e w Hc.
      assert (Hgo : ingestCatch env this id a e w = ingestBackoff env this id a e w).
      { unfold ingestCatch. unfold isCancel in Hc.
        destruct (message e) as [m|]; [|reflexivity]. rewrite Hc. reflexivity. }
      rewrite Hgo. unfold ingestBackoff. rewrite Hcur.
      unfold bind, logger, setProviderBackoff, extern. simpl.
      match goal with |- context [env_fails env ?c ?w'] =>
        destruct (env_fails env c w') as [x|] eqn:F end; simpl; eauto.
    + intros a Ha. unfold currentBackoff.
      rewrite js_index_clamped by (assumption || lia).
      rewrite Nat.min_r by lia. rewrite nth_error_last. reflexivity.
  - split.
    + intros Hmono. apply StronglySorted_of_nth_error.
      intros i j x y Hij Hi Hj.
      apply (Hmono (Z.of_nat i) (Z.of_nat j) x y); [lia| |];
        apply currentBackoff_entry; assumption.
    + intros Hs a b da db Hab Ea Eb.
      assert (Hne : backoff this <> [])
        by (intros E; rewrite (Hnone E a) in Ea; discriminate Ea).
      unfold currentBackoff in Ea, Eb.
      rewrite js_index_clamped in Ea, Eb by (assumption || lia).
      destruct (nth_error (backoff this) (Nat.min (Z.to_nat a) _)) as [xa|] eqn:Na;
        [|discriminate].
      destruct (nth_error (backoff this) (Nat.min (Z.to_nat b) _)) as [xb|] eqn:Nb;
        [|discriminate].
      simpl in Ea, Eb. injection Ea as <-. injection Eb as <-.
      refine (StronglySorted_nth_error
                (fun x y => as_milliseconds x <= as_milliseconds y) _
                (fun x => Z.le_refl _) Hs _ _ _ _ _ Na Nb).
      lia.
  - exact Hnone.
  - intros opts table Hopt. unfold constructor. cbn. rewrite Hopt. reflexivity.
  - intros opts Hopt. unfold constructor, currentBackoff, shortest_first. simpl.
    rewrite Hopt.
    split; [reflexivity|]. split; [|repeat split].
    unfold default_backoff.
    repeat (apply SSorted_cons;
            [|repeat (apply List.Forall_cons; [unfold as_milliseconds; cbn; lia|]);
              apply List.Forall_nil]).
    apply SSorted_nil.
Qed.

Definition sample_options : IterationEngineOptions :=
  {| providerName := "github"; opt_restLength := mkDuration 1 0 0 0;
     opt_backoff := None |}.

Lemma backoff_delay_clamped_witness :
  backoff (constructor sample_options) <> []
  /\ currentBackoff (constructor sample_options) 7
     = fromObject (last (backoff (constructor sample_options))).
Proof.
  assert (H : backoff (constructor sample_options) <> []) by discriminate.
  split; [exact H|].
  destruct (backoff_delay_clamped (constructor sample_options)) as (Hentry & _).
  destruct (Hentry H) as (_ & Hclamp).
  apply Hclamp. vm_compute. intros X. discriminate X.
Defined.

(** ** One page: [mark] *)

Ltac settle_extern :=
  match goal with
  | |- context [extern ?env ?c ?eff ?w] =>
      let e := fresh "e" in
      let F := fresh "F" in
      let E := fresh "E" in
      destruct (extern_cases env c eff w) as [(e & F & E) | (F & E)];
      rewrite E; clear E; try rewrite F; cbn beta iota delta [fst snd]
  end.

Ltac stores :=
  cbn; rewrite <- ?app_assoc, ?app_nil_r;
  first [reflexivity | discriminate | tauto | idtac].

Section Burst.

Variable env : Env.
Variable key : string.
Variable this : IncrementalIngestionEngine.

Definition new_mark (uid id : string) (cursor : Cursor) (sequence : Z) : MarkRecord :=
  {| mark_id := uid; mark_ingestion_id := id; mark_cursor := cursor;
     mark_sequence := sequence |}.

(** The mutations of the resolved [applyMutation] calls of a history. *)
Definition applied (evs : list Event) : list EntityProviderMutation :=
  flat_map (fun ev => match ev with
                      | Ev (ApplyMutation m) None => [m]
                      | _ => []
                      end) evs.

(** The external calls of a burst: reads and writes of marks, the
    provider, the reconciliation query, and mutations handed to the target
    store as deltas whose added entities are already tagged.  The lifecycle
    writes are not among them. *)
Definition burst_event (ev : Event) : Prop :=
  match ev_call ev with
  | ApplyMutation m =>
      exists entities removed, m = DeltaMutation (map (tag key this) entities) removed
  | GetLastMark _ | ProviderAround | ProviderNext _ | CreateMark _
  | CreateMarkEntities _ _ | ComputeRemoved _ _ => True
  | _ => False
  end.

(** What one call of [mark] does to the stores, by how it settles. *)
Inductive marked (id : string) (sequence : Z) (entities : list DeferredEntity)
    (done : bool) (cursor : Cursor) (w : World) : outcome unit -> World -> Prop :=
| marked_applied (w' : World) (uid : string) (removed : list DeferredEntity)
    (evs : list Event) :
    marks w' = marks w ++ [new_mark uid id cursor sequence] ->
    catalog w' = catalog w ++ [DeltaMutation (map (tag key this) entities) removed] ->
    reconciled w' = reconciled w ++ (if done then [] else [removed]) ->
    (done = true -> removed = []) ->
    calls w' = calls w ++ evs ->
    last evs
    = Some (Ev (ApplyMutation (DeltaMutation (map (tag key this) entities) removed)) None) ->
    applied evs = [DeltaMutation (map (tag key this) entities) removed] ->
    Forall burst_event evs ->
    marked id sequence entities done cursor w (Returned tt) w'
| marked_unapplied (w' : World) (uid : string) (e : thrown)
    (answers : list (list DeferredEntity)) (evs : list Event) (c : Call) :
    marks w' = marks w ++ [new_mark uid id cursor sequence] ->
    catalog w' = catalog w ->
    reconciled w' = reconciled w ++ answers ->
    calls w' = calls w ++ evs ->
    last evs = Some (Ev c (Some e)) ->
    applied evs = [] ->
    Forall burst_event evs ->
    marked id sequence entities done cursor w (Threw e) w'
| marked_rejected (w' : World) (e : thrown) (record : MarkRecord) :
    marks w' = marks w ->
    catalog w' = catalog w ->
    reconciled w' = reconciled w ->
    calls w' = calls w ++ [Ev (CreateMark record) (Some e)] ->
    marked id sequence entities done cursor w (Threw e) w'.

Ltac handed :=
  repeat constructor; cbn; first [exact I | do 2 eexists; reflexivity].

Lemma mark_marked id sequence entities done cursor w :
  marked id sequence entities done cursor w
    (fst (mark env key this id sequence entities done cursor w))
    (snd (mark env key this id sequence entities done cursor w)).
Proof.
  unfold mark, bind, logger, v4, createMark, createMarkEntities,
    computeRemoved, applyMutation, ret.
  cbn beta iota.
  settle_extern.
  { eapply marked_rejected; reflexivity. }
  destruct (0 <? length entities)%nat.
  - settle_extern.
    { eapply (marked_unapplied _ _ _ _ _ _ _ _ _ [] [_; _]); stores; handed. }
    destruct done.
    + settle_extern.
      * eapply (marked_unapplied _ _ _ _ _ _ _ _ _ [] [_; _; _]); stores; handed.
      * eapply (marked_applied _ _ _ _ _ _ _ _ [] [_; _; _]); stores; handed.
    + settle_extern.
      { eapply (marked_unapplied _ _ _ _ _ _ _ _ _ [] [_; _; _]); stores; handed. }
      settle_extern.
      * eapply (marked_unapplied _ _ _ _ _ _ _ _ _ [_] [_; _; _; _]); stores; handed.
      * eapply (marked_applied _ _ _ _ _ _ _ _ _ [_; _; _; _]); stores; handed.
  - destruct done.
    + settle_extern.
      * eapply (marked_unapplied _ _ _ _ _ _ _ _ _ [] [_; _]); stores; handed.
      * eapply (marked_applied _ _ _ _ _ _ _ _ [] [_; _]); stores; handed.
    + settle_extern.
      { eapply (marked_unapplied _ _ _ _ _ _ _ _ _ [] [_; _]); stores; handed. }
      settle_extern.
      * eapply (marked_unapplied _ _ _ _ _ _ _ _ _ [_] [_; _; _]); stores; handed.
      * eapply (marked_applied _ _ _ _ _ _ _ _ _ [_; _; _]); stores; handed.
Qed.

Lemma mark_frame id sequence entities done cursor w :
  ingestions (snd (mark env key this id sequence entities done cursor w)) = ingestions w
  /\ now (snd (mark env key this id sequence entities done cursor w)) = now w
  /\ fetched (snd (mark env key this id sequence entities done cursor w)) = fetched w.
Proof.
  unfold mark, bind, logger, v4, createMark, createMarkEntities,
    computeRemoved, applyMutation, ret.
  cbn beta iota.
  settle_extern; [cbn; auto|].
  destruct (0 <? length entities)%nat, done;
    repeat (settle_extern; [cbn; auto|]); cbn; auto.
Qed.

(** ** The burst loop *)

Definition mark_key (m : MarkRecord) : string * Z * Cursor :=
  (mark_ingestion_id m, mark_sequence m, mark_cursor m).

(** The marks a run of pages is to leave: one per page, numbered from
    [sequence], each with the cursor of its page. *)
Fixpoint page_keys (id : string) (sequence : Z) (pages : list Page)
    : list (string * Z * Cursor) :=
  match pages with
  | [] => []
  | p :: rest => (id, sequence, page_cursor p) :: page_keys id (sequence + 1) rest
  end.

(** The deltas a run of pages is to apply, given the answers of the
    reconciliation query in the order they came: a page that is done takes
    no answer and removes nothing. *)
Fixpoint deltas (pages : list Page) (answers : list (list DeferredEntity))
    : list EntityProviderMutation :=
  match pages with
  | [] => []
  | p :: rest =>
      if page_done p
      then DeltaMutation (map (tag key this) (page_entities p)) [] :: deltas rest answers
      else match answers with
           | a :: answers' =>
               DeltaMutation (map (tag key this) (page_entities p)) a :: deltas rest answers'
           | [] => []
           end
  end.

Definition unfinished (pages : list Page) : nat :=
  length (List.filter (fun p => negb (page_done p)) pages).

Lemma last_cons_default {A : Type} (l : list A) (a d : A) :
  List.last (a :: l) d = List.last l a.
Proof.
  revert a d. induction l as [|b l IH]; intros a d; [reflexivity|].
  change (List.last (a :: b :: l) d) with (List.last (b :: l) d).
  rewrite (IH b d), (IH b a). reflexivity.
Qed.

Lemma provider_next_cases cursor w :
  let w1 := set_calls (fun l => l ++ [Ev (ProviderNext cursor) None]) w in
  (exists e,
     env_fails env (ProviderNext cursor) w = Some e
     /\ provider_next env cursor w
        = (Threw e, set_calls (fun l => l ++ [Ev (ProviderNext cursor) (Some e)]) w))
  \/ (env_fails env (ProviderNext cursor) w = None
      /\ provider_next env cursor w
         = (Returned (env_next env cursor w1),
            set_fetched (fun l => l ++ [env_next env cursor w1]) w1)).
Proof.
  unfold provider_next, extern.
  destruct (env_fails env (ProviderNext cursor) w) as [e|] eqn:F; cbn; eauto.
Qed.

Lemma burst_loop_step fuel id sequence count p w :
  burst_loop env key this (S fuel) id sequence count p w
  = match mark env key this id sequence (page_entities p) (page_done p) (page_cursor p) w with
    | (Returned _, wm) =>
        if env_aborted env wm || page_done p
        then (Returned (page_done p, count), wm)
        else match provider_next env (page_cursor p) wm with
             | (Returned p', w2) => burst_loop env key this fuel id (sequence + 1) (count + 1) p' w2
             | (Threw e, w2) => (Threw e, w2)
             | (Running, w2) => (Running, w2)
             end
    | (Threw e, wm) => (Threw e, wm)
    | (Running, wm) => (Running, wm)
    end.
Proof.
  cbn [burst_loop]. unfold bind at 1.
  destruct (mark env key this _ _ _ _ _ w) as [[[]|e|] wm]; try reflexivity.
  unfold bind, signal_aborted, ret.
  destruct (env_aborted env wm || page_done p); reflexivity.
Qed.

Lemma applied_app evs1 evs2 : applied (evs1 ++ evs2) = applied evs1 ++ applied evs2.
Proof. apply flat_map_app. Qed.

(** What a run of the loop has done when it is observed: the pages it
    fetched after [p], the marks it persisted for the first [k] of them and
    the deltas it applied for the first [j]. *)
Lemma burst_loop_progress fuel :
  forall id sequence count p w r w',
    burst_loop env key this fuel id sequence count p w = (r, w') ->
    exists ps answers evs k j,
      fetched w' = fetched w ++ ps
      /\ reconciled w' = reconciled w ++ answers
      /\ calls w' = calls w ++ evs
      /\ map mark_key (marks w')
         = map mark_key (marks w) ++ page_keys id sequence (firstn k (p :: ps))
      /\ catalog w' = catalog w ++ deltas (firstn j (p :: ps)) answers
      /\ applied evs = deltas (firstn j (p :: ps)) answers
      /\ Forall burst_event evs
      /\ length (deltas (firstn j (p :: ps)) answers) = j
      /\ ingestions w' = ingestions w
      /\ now w' = now w
      /\ (length ps <= j)%nat /\ (j <= k)%nat /\ (k <= S (length ps))%nat
      /\ (forall x, r = Returned x ->
            j = S (length ps)
            /\ x = (page_done (List.last ps p), count + Z.of_nat (length ps))
            /\ Forall (fun q => page_done q = false) (removelast (p :: ps))
            /\ length answers = unfinished (p :: ps))
      /\ (forall m e, last evs = Some (Ev (ApplyMutation m) (Some e)) ->
            r = Threw e /\ k = S (length ps) /\ j = length ps).
Proof.
  induction fuel as [|fuel IH]; intros id sequence count p w r w' Hrun.
  - cbn in Hrun. injection Hrun as <- <-.
    exists [], [], [], 0%nat, 0%nat. cbn. rewrite !app_nil_r.
    repeat split; try reflexivity; try lia; try constructor; intros; discriminate.
  - rewrite burst_loop_step in Hrun.
    pose proof (mark_marked id sequence (page_entities p) (page_done p)
                  (page_cursor p) w) as Hm.
    destruct (mark_frame id sequence (page_entities p) (page_done p)
                (page_cursor p) w) as (Hi & Hn & Hf).
    destruct (mark env key this id sequence (page_entities p) (page_done p)
                (page_cursor p) w) as [rm wm].
    cbn [fst snd] in Hm, Hi, Hn, Hf.
    inversion Hm as [? uid removed evm Hmk Hcat Hrec Hdone Hcalls Hlastm Happ Hhand
                    |? uid e ans evm c Hmk Hcat Hrec Hcalls Hlastm Happ Hhand
                    |? e record Hmk Hcat Hrec Hcalls]; subst.
    + destruct (env_aborted env wm || page_done p) eqn:Hstop.
      * injection Hrun as <- <-.
        exists [], (if page_done p then [] else [removed]), evm, 1%nat, 1%nat.
        cbn [firstn page_keys deltas length List.last].
        rewrite Hf, Hrec, Hcalls, Hcat, Hi, Hn, Hmk, Happ, map_app, !app_nil_r.
        assert (Hone : [DeltaMutation (map (tag key this) (page_entities p)) removed]
                       = (if page_done p
                          then [DeltaMutation (map (tag key this) (page_entities p)) []]
                          else match (if page_done p then [] else [removed]) with
                               | [] => []
                               | a :: _ =>
                                   [DeltaMutation (map (tag key this) (page_entities p)) a]
                               end)).
        { destruct (page_done p); [rewrite Hdone by reflexivity|]; reflexivity. }
        rewrite <- Hone.
        split; [reflexivity|]. split; [reflexivity|]. split; [reflexivity|].
        split; [reflexivity|]. split; [reflexivity|]. split; [reflexivity|].
        split; [exact Hhand|]. split; [reflexivity|].
        split; [reflexivity|]. split; [reflexivity|].
        split; [lia|]. split; [lia|]. split; [lia|].
        split.
        -- intros x [= <-]. rewrite Z.add_0_r.
           split; [reflexivity|]. split; [reflexivity|]. split; [constructor|].
           unfold unfinished. cbn. destruct (page_done p); reflexivity.
        -- intros m e H. rewrite Hlastm in H. discriminate H.
      * apply orb_false_iff in Hstop as [_ Hnd].
        rewrite Hnd in Hrec.
        destruct (provider_next_cases (page_cursor p) wm)
          as [(e & F & E) | (F & E)]; rewrite E in Hrun; clear E;
          cbn [fst snd] in Hrun.
        -- injection Hrun as <- <-.
           exists [], [removed],
             (evm ++ [Ev (ProviderNext (page_cursor p)) (Some e)]), 1%nat, 1%nat.
           cbn [firstn page_keys deltas length]. rewrite Hnd. cbn.
           rewrite Hf, Hrec, Hcalls, Hcat, Hi, Hn, Hmk, map_app, <- !app_assoc,
             !app_nil_r, applied_app, Happ.
           split; [reflexivity|]. split; [reflexivity|]. split; [reflexivity|].
           split; [reflexivity|]. split; [reflexivity|]. split; [reflexivity|].
           split.
           { apply Forall_app. split; [exact Hhand|].
             constructor; [exact I|constructor]. }
           split; [reflexivity|]. split; [reflexivity|]. split; [reflexivity|].
           split; [lia|]. split; [lia|]. split; [lia|].
           split; [intros; discriminate|].
           intros m e' H. rewrite last_snoc in H. discriminate H.
        -- match type of Hrun with
           | burst_loop _ _ _ _ _ _ _ ?q ?w2 = _ =>
               set (w2' := w2) in *; set (p' := q) in *
           end.
           destruct (IH _ _ _ _ _ _ _ Hrun)
             as (ps & answers & evs & k & j & Hf' & Hrec' & Hcalls' & Hmk' & Hcat'
                 & Happ' & Hhand' & Hlen' & Hi' & Hn' & Hj & Hjk & Hk & Hret & Hfail).
           exists (p' :: ps), (removed :: answers),
             (evm ++ [Ev (ProviderNext (page_cursor p)) None] ++ evs),
             (S k), (S j).
           subst w2'. cbn in Hf', Hrec', Hcalls', Hmk', Hcat', Hi', Hn'.
           cbn [firstn page_keys deltas length]. rewrite Hnd.
           rewrite Hf', Hrec', Hcalls', Hcat', Hi', Hn', Hmk'.
           rewrite Hf, Hrec, Hcalls, Hcat, Hi, Hn, Hmk, map_app, <- !app_assoc.
           rewrite !applied_app, Happ, Happ'.
           assert (Hlast : forall m e',
                     last (evm ++ [Ev (ProviderNext (page_cursor p)) None] ++ evs)
                     = Some (Ev (ApplyMutation m) (Some e')) ->
                     last evs = Some (Ev (ApplyMutation m) (Some e'))).
           { intros m e' H. rewrite app_assoc, last_app in H.
             destruct (last evs) as [y|] eqn:L; [exact H|].
             rewrite last_snoc in H. discriminate H. }
           split; [reflexivity|]. split; [reflexivity|]. split; [reflexivity|].
           split; [reflexivity|]. split; [reflexivity|]. split; [reflexivity|].
           split.
           { apply Forall_app. split; [exact Hhand|].
             constructor; [exact I|exact Hhand']. }
           split; [cbn [length]; rewrite Hlen'; reflexivity|].
           split; [reflexivity|].
           split; [reflexivity|]. split; [lia|]. split; [lia|]. split; [lia|].
           split.
           ++ intros x Hx. destruct (Hret x Hx) as (Hj' & Hx' & Hall & Hlen).
              split; [lia|]. split; [|split].
              ** rewrite Hx'. cbn [length]. rewrite last_cons_default.
                 f_equal. lia.
              ** change (removelast (p :: p' :: ps)) with (p :: removelast (p' :: ps)).
                 constructor; assumption.
              ** unfold unfinished in *. cbn [List.filter]. rewrite Hnd.
                 cbn [negb length]. rewrite Hlen. reflexivity.
           ++ intros m e' H. apply Hlast in H.
              destruct (Hfail m e' H) as (Hr & Hk' & Hj'). cbn [length].
              split; [exact Hr|]. split; lia.
    + injection Hrun as <- <-.
      exists [], ans, evm, 1%nat, 0%nat.
      cbn [firstn page_keys deltas length].
      rewrite Hf, Hrec, Hcalls, Hcat, Hi, Hn, Hmk, Happ, map_app, !app_nil_r.
      split; [reflexivity|]. split; [reflexivity|]. split; [reflexivity|].
      split; [reflexivity|]. split; [reflexivity|]. split; [reflexivity|].
      split; [exact Hhand|]. split; [reflexivity|].
      split; [reflexivity|]. split; [reflexivity|].
      split; [lia|]. split; [lia|]. split; [lia|].
      split; [intros; discriminate|].
      intros m e' H. rewrite Hlastm in H. injection H as _ <-. auto.
    + injection Hrun as <- <-.
      exists [], [], [Ev (CreateMark record) (Some e)], 0%nat, 0%nat.
      cbn [firstn page_keys deltas length].
      rewrite Hf, Hrec, Hcalls, Hcat, Hi, Hn, Hmk, !app_nil_r.
      split; [reflexivity|]. split; [reflexivity|]. split; [reflexivity|].
      split; [reflexivity|]. split; [reflexivity|]. split; [reflexivity|].
      split.
      { constructor; [exact I|constructor]. }
      split; [reflexivity|]. split; [reflexivity|]. split; [reflexivity|].
      split; [lia|]. split; [lia|]. split; [lia|].
      split; [intros; discriminate|].
      intros m e' H. discriminate H.
Qed.

(** ** One burst *)

(** Where a burst resumes: the cursor and the sequence number that
    [ingestOneBurst] derives from the last persisted mark. *)
Definition resume_cursor (id : string) (w : World) : Cursor :=
  match Manager.last_mark id w with
  | Some m => mark_cursor m
  | None => None
  end.

Definition resume_sequence (id : string) (w : World) : Z :=
  match Manager.last_mark id w with
  | Some m => mark_sequence m + 1
  | None => 0
  end.

(** How the call history of a burst begins: with the read of the last
    mark, the provider's set-up and the fetch at the resume cursor. *)
Definition burst_opening (id : string) (w : World) (evs : list Event) : Prop :=
  (exists e, evs = [Ev (GetLastMark id) (Some e)])
  \/ (exists e, evs = [Ev (GetLastMark id) None; Ev ProviderAround (Some e)])
  \/ (exists f rest,
        evs = Ev (GetLastMark id) None :: Ev ProviderAround None
              :: Ev (ProviderNext (resume_cursor id w)) f :: rest).

Lemma ingestOneBurst_progress fuel id w r w' :
  ingestOneBurst env key this fuel id w = (r, w') ->
  exists ps answers evs k j,
    fetched w' = fetched w ++ ps
    /\ reconciled w' = reconciled w ++ answers
    /\ calls w' = calls w ++ evs
    /\ map mark_key (marks w')
       = map mark_key (marks w) ++ page_keys id (resume_sequence id w) (firstn k ps)
    /\ catalog w' = catalog w ++ deltas (firstn j ps) answers
    /\ applied evs = deltas (firstn j ps) answers
    /\ Forall burst_event evs
    /\ length (deltas (firstn j ps) answers) = j
    /\ ingestions w' = ingestions w
    /\ now w' = now w
    /\ (length ps <= S j)%nat /\ (j <= k)%nat /\ (k <= length ps)%nat
    /\ (forall d, r = Returned d ->
          ps <> [] /\ j = length ps
          /\ (forall p0, d = page_done (List.last ps p0))
          /\ Forall (fun q => page_done q = false) (removelast ps)
          /\ length answers = unfinished ps)
    /\ (forall m e, last evs = Some (Ev (ApplyMutation m) (Some e)) ->
          r = Threw e /\ k = length ps /\ S j = length ps)
    /\ burst_opening id w evs.
Proof.
  unfold ingestOneBurst, getLastMark, provider_around, burst_opening.
  unfold bind at 1. settle_extern.
  { intros [= <- <-]. exists [], [], [Ev (GetLastMark id) (Some e)], 0%nat, 0%nat.
    cbn. rewrite !app_nil_r.
    repeat split; try reflexivity; try lia; try discriminate; eauto.
    constructor; [exact I|constructor]. }
  unfold bind at 1, logger at 1. cbn beta iota.
  unfold bind at 1. unfold bind at 1. settle_extern.
  { intros [= <- <-].
    exists [], [], [Ev (GetLastMark id) None; Ev ProviderAround (Some e)], 0%nat, 0%nat.
    cbn. rewrite <- !app_assoc, !app_nil_r.
    repeat split; try reflexivity; try lia; try discriminate; eauto.
    repeat (constructor; [exact I|]). constructor. }
  unfold bind at 1.
  match goal with
  | |- context [provider_next env ?c ?w1] =>
      destruct (provider_next_cases c w1) as [(e & F1 & E) | (F1 & E)];
      rewrite E; clear E
  end.
  { intros [= <- <-].
    exists [], [],
      [Ev (GetLastMark id) None; Ev ProviderAround None;
       Ev (ProviderNext (resume_cursor id w)) (Some e)], 0%nat, 0%nat.
    cbn. rewrite <- !app_assoc, !app_nil_r.
    repeat split; try reflexivity; try lia; try discriminate.
    - repeat (constructor; [exact I|]). constructor.
    - right. right. eauto. }
  match goal with
  | |- context [burst_loop env key this fuel id ?s 1 ?q ?w3] =>
      set (w3' := w3); set (p := q) in *;
      destruct (burst_loop env key this fuel id s 1 p w3') as [r0 w4] eqn:Hloop
  end.
  destruct (burst_loop_progress _ _ _ _ _ _ _ _ Hloop)
    as (ps & answers & evs & k & j & Hf & Hrec & Hcalls & Hmk & Hcat & Happ & Hhand
        & Hlen & Hi & Hn & Hj & Hjk & Hk & Hret & Hfail).
  subst w3'. cbn in Hf, Hrec, Hcalls, Hmk, Hcat, Hi, Hn.
  assert (Hlast : forall m e',
            last ([Ev (GetLastMark id) None; Ev ProviderAround None;
                   Ev (ProviderNext (resume_cursor id w)) None] ++ evs)
            = Some (Ev (ApplyMutation m) (Some e')) ->
            last evs = Some (Ev (ApplyMutation m) (Some e'))).
  { intros m e' H. rewrite last_app in H.
    destruct (last evs) as [y|] eqn:L; [exact H|]. discriminate H. }
  intros Hrun.
  exists (p :: ps), answers,
    ([Ev (GetLastMark id) None; Ev ProviderAround None;
      Ev (ProviderNext (resume_cursor id w)) None] ++ evs), k, j.
  assert (Hw' : fetched w' = fetched w4 /\ reconciled w' = reconciled w4
                /\ calls w' = calls w4 /\ marks w' = marks w4
                /\ catalog w' = catalog w4 /\ ingestions w' = ingestions w4
                /\ now w' = now w4).
  { destruct r0 as [x| |]; cbn in Hrun; injection Hrun as <- <-; cbn; tauto. }
  destruct Hw' as (-> & -> & -> & -> & -> & -> & ->).
  rewrite Hf, Hrec, Hcalls, Hmk, Hcat, Hi, Hn, <- !app_assoc.
  split; [reflexivity|]. split; [reflexivity|]. split; [reflexivity|].
  split; [reflexivity|]. split; [reflexivity|].
  split; [rewrite applied_app; exact Happ|].
  split.
  { apply Forall_app. split; [|exact Hhand].
    repeat (constructor; [exact I|]). constructor. }
  split; [exact Hlen|].
  split; [reflexivity|].
  split; [reflexivity|]. cbn [length].
  split; [lia|]. split; [lia|]. split; [lia|].
  split; [|split].
  - intros d Hd. destruct r0 as [x| |]; cbn in Hrun; injection Hrun as <- _;
      try discriminate Hd.
    injection Hd as <-.
    destruct (Hret x eq_refl) as (Hj' & -> & Hall & Hans).
    split; [discriminate|]. split; [lia|]. split; [|split; assumption].
    intros p0. rewrite last_cons_default. reflexivity.
  - intros m e' H. apply Hlast in H. destruct (Hfail m e' H) as (-> & -> & ->).
    cbn in Hrun. injection Hrun as <- _. split; [reflexivity|]. split; reflexivity.
  - right. right. eauto.
Qed.

(** ** Sequence numbers *)

(** The sequence numbers of the marks of one ingestion, oldest first. *)
Definition mark_sequences (id : string) (w : World) : list Z :=
  map mark_sequence
    (List.filter (fun m => String.eqb (mark_ingestion_id m) id) (marks w)).

(** Strictly increasing and contiguous from zero: [0; 1; ...; n - 1]. *)
Definition contiguous (l : list Z) : Prop :=
  l = map Z.of_nat (seq 0 (length l)).

Definition sequences_of (id : string) (keys : list (string * Z * Cursor)) : list Z :=
  map (fun k => snd (fst k)) (List.filter (fun k => String.eqb (fst (fst k)) id) keys).

Lemma mark_sequences_keys id w :
  mark_sequences id w = sequences_of id (map mark_key (marks w)).
Proof.
  unfold mark_sequences, sequences_of.
  induction (marks w) as [|m l IH]; [reflexivity|].
  cbn. destruct (String.eqb (mark_ingestion_id m) id); cbn; rewrite IH; reflexivity.
Qed.

Lemma sequences_of_app id k1 k2 :
  sequences_of id (k1 ++ k2) = sequences_of id k1 ++ sequences_of id k2.
Proof. unfold sequences_of. rewrite List.filter_app, map_app. reflexivity. Qed.

Lemma sequences_of_page_keys id s pages :
  sequences_of id (page_keys id s pages)
  = map (fun i => s + Z.of_nat i) (seq 0 (length pages)).
Proof.
  revert s. induction pages as [|p pages IH]; intros s; [reflexivity|].
  unfold sequences_of in *. cbn. rewrite String.eqb_refl. cbn.
  rewrite IH, <- seq_shift, map_map. f_equal; [lia|].
  apply map_ext. intros i. lia.
Qed.

Lemma sequences_of_page_keys_other id id' s pages :
  id' <> id -> sequences_of id' (page_keys id s pages) = [].
Proof.
  intros Hne. revert s. induction pages as [|p pages IH]; intros s; [reflexivity|].
  unfold sequences_of in *. cbn.
  destruct (String.eqb_spec id id') as [->|_]; [congruence|]. apply IH.
Qed.

Lemma contiguous_resume id w :
  contiguous (mark_sequences id w) ->
  resume_sequence id w = Z.of_nat (length (mark_sequences id w)).
Proof.
  unfold contiguous, resume_sequence, Manager.last_mark, mark_sequences.
  set (l := List.filter _ (marks w)). intros H.
  destruct (last l) as [m|] eqn:L.
  - apply last_Some in L as [l' ->].
    rewrite map_app, length_app in *. cbn [map length] in *.
    rewrite Nat.add_1_r in *. rewrite seq_S, map_app in H. cbn in H.
    apply app_inj_tail in H as [_ ->]. rewrite length_map. lia.
  - apply last_None in L. rewrite L. reflexivity.
Qed.

Lemma map_seq_shift (n a k : nat) :
  map (fun i => Z.of_nat n + Z.of_nat i) (seq a k) = map Z.of_nat (seq (n + a) k).
Proof.
  revert a. induction k as [|k IH]; intros a; [reflexivity|].
  cbn. f_equal; [lia|]. rewrite IH, Nat.add_succ_r. reflexivity.
Qed.

Lemma contiguous_extend l k :
  contiguous l ->
  contiguous (l ++ map (fun i => Z.of_nat (length l) + Z.of_nat i) (seq 0 k)).
Proof.
  unfold contiguous. intros H.
  rewrite length_app, length_map, length_seq, seq_app, map_app, <- H. cbn.
  f_equal. rewrite (map_seq_shift (length l) 0 k), Nat.add_0_r. reflexivity.
Qed.

End Burst.

(** ** Marks across bursts *)

Lemma burst_sequences env key this fuel id w r w' :
  ingestOneBurst env key this fuel id w = (r, w') ->
  exists ps evs k,
    fetched w' = fetched w ++ ps
    /\ calls w' = calls w ++ evs
    /\ burst_opening id w evs
    /\ map mark_key (marks w')
       = map mark_key (marks w) ++ page_keys id (resume_sequence id w) (firstn k ps)
    /\ (length ps <= S k)%nat /\ (k <= length ps)%nat
    /\ (forall d, r = Returned d -> k = length ps)
    /\ mark_sequences id w'
       = mark_sequences id w
         ++ map (fun i => resume_sequence id w + Z.of_nat i) (seq 0 k)
    /\ (forall id', id' <> id -> mark_sequences id' w' = mark_sequences id' w).
Proof.
  intros Hrun.
  destruct (ingestOneBurst_progress _ _ _ _ _ _ _ _ Hrun)
    as (ps & answers & evs & k & j & Hf & _ & Hcalls & Hmk & _ & _ & _ & _ & _ & _
        & Hj & Hjk & Hk & Hret & _ & Hopen).
  exists ps, evs, k.
  split; [exact Hf|]. split; [exact Hcalls|]. split; [exact Hopen|].
  split; [exact Hmk|]. split; [lia|]. split; [lia|].
  split; [intros d Hd; destruct (Hret d Hd) as (_ & ? & _); lia|].
  split.
  - rewrite !mark_sequences_keys, Hmk, sequences_of_app, sequences_of_page_keys.
    rewrite length_firstn, Nat.min_l by lia. reflexivity.
  - intros id' Hne.
    rewrite !mark_sequences_keys, Hmk, sequences_of_app,
      sequences_of_page_keys_other, app_nil_r by assumption.
    reflexivity.
Qed.

Lemma burst_contiguous env key this fuel id w :
  contiguous (mark_sequences id w) ->
  contiguous (mark_sequences id (snd (ingestOneBurst env key this fuel id w))).
Proof.
  intros Hc.
  destruct (ingestOneBurst env key this fuel id w) as [r w'] eqn:Hrun.
  destruct (burst_sequences _ _ _ _ _ _ _ _ Hrun)
    as (ps & evs & k & _ & _ & _ & _ & _ & _ & _ & Hseq & _).
  cbn [snd]. rewrite Hseq, (contiguous_resume _ _ Hc).
  apply contiguous_extend, Hc.
Qed.

(** *** A two-page source *)

Definition empty_world : World := mkWorld [] [] [] [] 0 [] [] [] [].

Definition component (name : string) : DeferredEntity :=
  {| entity := {| apiVersion := "backstage.io/v1alpha1"; kind := "Component";
                  metadata := {| meta_name := name; meta_namespace := None;
                                 annotations := None |} |};
     locationKey := None |}.

(** Page 1 has three entities and is not done, page 2 has two and is. *)
Definition two_pages (cursor : Cursor) : Page :=
  match cursor with
  | None =>
      {| page_done := false;
         page_entities := [component "a"; component "b"; component "c"];
         page_cursor := Some "page-2" |}
  | Some _ =>
      {| page_done := true;
         page_entities := [component "d"; component "e"];
         page_cursor := Some "end" |}
  end.

Definition quiet_env : Env :=
  {| env_fails := fun _ _ => None;
     env_next := fun cursor _ => two_pages cursor;
     env_aborted := fun _ => false;
     env_removed := fun _ _ _ => [component "gone"];
     env_uuid := fun _ => "6f1c" |}.

Definition sample_key : string := "incremental-entity-provider".

Definition sample_engine : IncrementalIngestionEngine := constructor sample_options.

(** One tick over the two-page source, from nothing: two marks numbered 0
    and 1, two deltas of which the first removes what the query answered
    and the second nothing, and the record at rest for an hour. *)
Example two_page_source_rests :
  let w' := snd (taskFn quiet_env sample_key sample_engine 3 empty_world) in
  fst (taskFn quiet_env sample_key sample_engine 3 empty_world) = Returned tt
  /\ map mark_sequence (marks w') = [0; 1]
  /\ map (fun m => match m with
                   | DeltaMutation added removed => (length added, removed)
                   | FullMutation _ => (0%nat, [])
                   end) (catalog w')
     = [(3%nat, [component "gone"]); (2%nat, [])]
  /\ option_map next_action (Manager.current_record "github" w') = Some "rest"
  /\ option_map next_action_at (Manager.current_record "github" w') = Some 3600000.
Proof. vm_compute. repeat split. Qed.

(** Observed after one iteration only, the same burst is still running:
    page 1 is marked and applied, page 2 is fetched. *)
Example burst_cut_short :
  let run := ingestOneBurst quiet_env sample_key sample_engine 1 "run-1" empty_world in
  fst run = Running
  /\ map mark_sequence (marks (snd run)) = [0]
  /\ length (fetched (snd run)) = 2%nat.
Proof. vm_compute. repeat split. Qed.

(** ** A rejected mutation *)

Definition delta_of (key : string) (this : IncrementalIngestionEngine)
    (q : Page) (m : EntityProviderMutation) : Prop :=
  exists removed,
    m = DeltaMutation (map (tag key this) (page_entities q)) removed
    /\ (page_done q = true -> removed = []).

Lemma deltas_delta_of key this pages :
  forall answers,
    length (deltas key this pages answers) = length pages ->
    Forall2 (delta_of key this) pages (deltas key this pages answers).
Proof.
  induction pages as [|q pages IH]; intros answers Hlen; [constructor|].
  cbn in *. destruct (page_done q) eqn:Hd.
  - constructor; [|apply IH; cbn in Hlen; lia].
    exists []. rewrite Hd. split; [reflexivity|]. reflexivity.
  - destruct answers as [|a answers]; [discriminate Hlen|].
    constructor; [|apply IH; cbn in Hlen; lia].
    exists a. rewrite Hd. split; [reflexivity|discriminate].
Qed.

Lemma page_keys_snoc id s pages p :
  page_keys id s (pages ++ [p])
  = page_keys id s pages ++ [(id, s + Z.of_nat (length pages), page_cursor p)].
Proof.
  revert s. induction pages as [|q pages IH]; intros s; cbn.
  - rewrite Z.add_0_r. reflexivity.
  - rewrite IH.
    replace (s + Z.of_nat (S (length pages))) with (s + 1 + Z.of_nat (length pages))
      by lia.
    reflexivity.
Qed.

Lemma resume_after_keys id s c keys w :
  map mark_key (marks w) = keys ++ [(id, s, c)] ->
  resume_cursor id w = c /\ resume_sequence id w = s + 1.
Proof.
  intros H. apply map_eq_app in H as (l1 & l2 & Hm & _ & H2).
  destruct l2 as [|m [|? ?]]; try discriminate H2.
  cbn in H2. unfold mark_key in H2. injection H2 as Hid Hs Hc.
  unfold resume_cursor, resume_sequence, Manager.last_mark.
  rewrite Hm, List.filter_app. cbn. rewrite Hid, String.eqb_refl, last_snoc.
  split; congruence.
Qed.

Lemma resume_same_marks id w1 w2 :
  marks w2 = marks w1 ->
  resume_cursor id w2 = resume_cursor id w1
  /\ resume_sequence id w2 = resume_sequence id w1.
Proof.
  intros H. unfold resume_cursor, resume_sequence, Manager.last_mark.
  rewrite H. auto.
Qed.

(** A burst that stops on a rejected [applyMutation] throws that error;
    the page in flight has its mark persisted but no delta applied, every
    page fetched before it has exactly one delta applied, and the last
    mark of the ingestion is the mark of the page in flight. *)
Lemma rejected_mutation_burst env key this fuel id w r w1 evs m e :
  ingestOneBurst env key this fuel id w = (r, w1) ->
  calls w1 = calls w ++ evs ->
  last evs = Some (Ev (ApplyMutation m) (Some e)) ->
  r = Threw e
  /\ exists ps p answers,
       fetched w1 = fetched w ++ ps ++ [p]
       /\ map mark_key (marks w1)
          = map mark_key (marks w) ++ page_keys id (resume_sequence id w) (ps ++ [p])
       /\ catalog w1 = catalog w ++ deltas key this ps answers
       /\ Forall2 (delta_of key this) ps (deltas key this ps answers)
       /\ resume_cursor id w1 = page_cursor p
       /\ resume_sequence id w1 = resume_sequence id w + Z.of_nat (length ps) + 1.
Proof.
  intros Hrun Hevs Hlast.
  destruct (ingestOneBurst_progress _ _ _ _ _ _ _ _ Hrun)
    as (ps & answers & evs0 & k & j & Hf & _ & Hcalls & Hmk & Hcat & _ & _ & Hlen
        & _ & _ & Hj & Hjk & Hk & _ & Hfail & _).
  rewrite Hcalls in Hevs. apply app_inv_head in Hevs. subst evs0.
  destruct (Hfail m e Hlast) as (-> & -> & Hsj).
  split; [reflexivity|].
  destruct (exists_last (l := ps)) as (ps0 & p & ->);
    [intros ->; discriminate Hsj|].
  rewrite length_app in Hsj. cbn in Hsj. assert (j = length ps0) by lia. subst j.
  rewrite firstn_all in Hmk. rewrite take_app_length in Hcat, Hlen.
  exists ps0, p, answers.
  pose proof Hmk as Hkeys. rewrite page_keys_snoc, app_assoc in Hkeys.
  destruct (resume_after_keys _ _ _ _ _ Hkeys) as (Hrc & Hrs).
  split; [exact Hf|]. split; [exact Hmk|]. split; [exact Hcat|].
  split; [apply deltas_delta_of, Hlen|]. split; [exact Hrc|exact Hrs].
Qed.

Definition catalog_down : thrown := JsError "Error" "catalog unavailable".

(** The target store takes one mutation and rejects every later one. *)
Definition flaky_catalog_env : Env :=
  {| env_fails := fun c w =>
       match c with
       | ApplyMutation _ =>
           if (1 <=? length (catalog w))%nat then Some catalog_down else None
       | _ => None
       end;
     env_next := fun cursor _ => two_pages cursor;
     env_aborted := fun _ => false;
     env_removed := fun _ _ _ => [];
     env_uuid := fun _ => "6f1c" |}.

(** ** Deltas *)

(** The provenance annotation: the provider's name under the annotation
    key. *)
Definition provenance (key : string) (this : IncrementalIngestionEngine)
    (e : DeferredEntity) : Prop :=
  exists anns,
    annotations (metadata (entity e)) = Some anns
    /\ anns !! key = Some (providerName (options this)).

Lemma tag_provenance key this d : provenance key this (tag key this d).
Proof.
  eexists. split; [reflexivity|]. apply lookup_insert_eq.
Qed.

(** Tagging leaves every other annotation as it was. *)
Lemma tag_other_annotations key this d k :
  k <> key ->
  (default ∅ (annotations (metadata (entity (tag key this d))))) !! k
  = (default ∅ (annotations (metadata (entity d)))) !! k.
Proof. intros Hne. cbn. apply lookup_insert_ne. congruence. Qed.

(** C8: in every burst each page that was processed has exactly one
    mutation applied to the target store, a delta whose added entities are
    the page's entities with the provider's name under the annotation key;
    the target store holds exactly the mutations of the resolved
    [applyMutation] calls; and every mutation handed to [applyMutation],
    resolved or rejected, is a delta that already carries the annotation. *)
Theorem every_page_one_tagged_delta env key this fuel id w r w' :
  ingestOneBurst env key this fuel id w = (r, w') ->
  exists ps evs j,
    fetched w' = fetched w ++ ps
    /\ calls w' = calls w ++ evs
    /\ catalog w' = catalog w ++ applied evs
    /\ Forall2 (delta_of key this) (firstn j ps) (applied evs)
    /\ (length ps <= S j)%nat /\ (j <= length ps)%nat
    /\ (forall d, r = Returned d -> j = length ps)
    /\ (forall m f, In (Ev (ApplyMutation m) f) evs ->
          exists added removed,
            m = DeltaMutation added removed /\ Forall (provenance key this) added).
Proof.
  intros Hrun.
  destruct (ingestOneBurst_progress _ _ _ _ _ _ _ _ Hrun)
    as (ps & answers & evs & k & j & Hf & _ & Hcalls & _ & Hcat & Happ & Hhand & Hlen
        & _ & _ & Hj & Hjk & Hk & Hret & _ & _).
  exists ps, evs, j.
  split; [exact Hf|]. split; [exact Hcalls|].
  split; [rewrite Happ; exact Hcat|].
  split.
  { rewrite Happ. apply deltas_delta_of. rewrite Hlen, length_firstn. lia. }
  split; [lia|]. split; [lia|].
  split; [intros d Hd; apply (Hret d Hd)|].
  intros m f Hin. rewrite List.Forall_forall in Hhand.
  destruct (Hhand _ Hin) as (entities & removed & ->).
  exists (map (tag key this) entities), removed. split; [reflexivity|].
  apply List.Forall_forall. intros e He. apply in_map_iff in He as (d & <- & _).
  apply tag_provenance.
Qed.

Lemma every_page_one_tagged_delta_witness :
  exists ps evs,
    fetched (snd (ingestOneBurst quiet_env sample_key sample_engine 3 "run-1" empty_world))
    = fetched empty_world ++ ps
    /\ Forall2 (delta_of sample_key sample_engine) ps (applied evs)
    /\ length ps = 2%nat.
Proof.
  set (run := ingestOneBurst quiet_env sample_key sample_engine 3 "run-1" empty_world).
  assert (Hrun : run = (fst run, snd run)) by (vm_compute; reflexivity).
  destruct (every_page_one_tagged_delta _ _ _ _ _ _ _ _ Hrun)
    as (ps & evs & j & Hf & _ & _ & Hall & _ & _ & Hret & _).
  exists ps, evs.
  assert (Hj : j = length ps) by (apply (Hret true); reflexivity).
  rewrite Hj, firstn_all in Hall.
  split; [exact Hf|]. split; [exact Hall|].
  apply (f_equal (@length Page)) in Hf. rewrite length_app in Hf.
  vm_compute in Hf. vm_compute. congruence.
Defined.

(** *** The removed set *)

(** The signal is aborted from the start. *)
Definition aborted_env : Env :=
  {| env_fails := fun _ _ => None;
     env_next := fun cursor _ => two_pages cursor;
     env_aborted := fun _ => true;
     env_removed := fun _ _ _ => [component "gone"];
     env_uuid := fun _ => "6f1c" |}.

(** The last page of a burst that returned removes nothing. *)
Definition final_page_removes_nothing (env : Env) (key : string)
    (this : IncrementalIngestionEngine) (fuel : nat) (id : string) (w : World) : Prop :=
  forall d w',
    ingestOneBurst env key this fuel id w = (Returned d, w') ->
    forall added removed,
      last (catalog w') = Some (DeltaMutation added removed) -> removed = [].

(** A burst stopped by the signal on a page that is not done: its last
    page removes what the reconciliation query answered. *)
Lemma final_page_of_aborted_burst_removes :
  ~ final_page_removes_nothing aborted_env sample_key sample_engine 1 "run-1" empty_world.
Proof.
  intros H.
  set (run := ingestOneBurst aborted_env sample_key sample_engine 1 "run-1" empty_world).
  assert (Hrun : run = (Returned false, snd run)) by (vm_compute; reflexivity).
  assert (Hlast : last (catalog (snd run))
                  = Some (DeltaMutation
                            (map (tag sample_key sample_engine)
                               (page_entities (two_pages None)))
                            [component "gone"]))
    by (vm_compute; reflexivity).
  discriminate (H false (snd run) Hrun _ _ Hlast).
Qed.

Lemma deltas_last key this ps :
  forall answers p0,
    ps <> [] ->
    Forall (fun q => page_done q = false) (removelast ps) ->
    length answers = unfinished ps ->
    (page_done (List.last ps p0) = true ->
       exists added, last (deltas key this ps answers) = Some (DeltaMutation added []))
    /\ (page_done (List.last ps p0) = false ->
          exists added a,
            last (deltas key this ps answers) = Some (DeltaMutation added a)
            /\ last answers = Some a).
Proof.
  induction ps as [|q [|q' ps] IH]; intros answers p0 Hne Hall Hlen.
  - congruence.
  - unfold unfinished in Hlen. cbn in *. destruct (page_done q) eqn:Hd; cbn in Hlen.
    + split; [eauto|discriminate].
    + destruct answers as [|a [|? ?]]; try discriminate Hlen.
      split; [discriminate|]. eauto.
  - change (removelast (q :: q' :: ps)) with (q :: removelast (q' :: ps)) in Hall.
    apply Forall_cons_iff in Hall as [Hq Hall].
    unfold unfinished in Hlen. cbn [List.filter] in Hlen. rewrite Hq in Hlen.
    cbn [negb length] in Hlen.
    destruct answers as [|a answers]; [discriminate Hlen|].
    injection Hlen as Hlen.
    change (List.last (q :: q' :: ps) p0) with (List.last (q' :: ps) p0).
    destruct (IH answers p0 ltac:(discriminate) Hall Hlen) as [Ht Hf].
    cbn [deltas]. rewrite Hq.
    split.
    + intros Hd. destruct (Ht Hd) as [added E]. exists added.
      rewrite last_cons. cbn [deltas] in E. rewrite E. reflexivity.
    + intros Hd. destruct (Hf Hd) as (added & a' & E & Ea). exists added, a'.
      rewrite !last_cons. cbn [deltas] in E. rewrite E, Ea. auto.
Qed.

(** C7, as the code has it: the removed set of a page's delta is the
    answer of the reconciliation query exactly when the page's [done] flag
    is false, and it is empty when the flag is true; the query is asked
    once for each page whose flag is false and not at all for the others.
    In a burst that returned, every page but the last has the flag false
    and the last page carries the flag the burst returns: a burst that ran
    to the end of the source removes nothing on its last page, a burst
    stopped earlier (by the signal) removes on its last page what the query
    answered. *)
Theorem removed_computed_unless_done env key this fuel id w r w' :
  ingestOneBurst env key this fuel id w = (r, w') ->
  exists ps answers j,
    fetched w' = fetched w ++ ps
    /\ reconciled w' = reconciled w ++ answers
    /\ catalog w' = catalog w ++ deltas key this (firstn j ps) answers
    /\ Forall2 (delta_of key this) (firstn j ps) (deltas key this (firstn j ps) answers)
    /\ (length ps <= S j)%nat /\ (j <= length ps)%nat
    /\ forall d, r = Returned d ->
         j = length ps
         /\ length answers = unfinished ps
         /\ Forall (fun q => page_done q = false) (removelast ps)
         /\ (forall p0, d = page_done (List.last ps p0))
         /\ (d = true ->
               exists added, last (catalog w') = Some (DeltaMutation added []))
         /\ (d = false ->
               exists added a,
                 last (catalog w') = Some (DeltaMutation added a)
                 /\ last (reconciled w') = Some a).
Proof.
  intros Hrun.
  destruct (ingestOneBurst_progress _ _ _ _ _ _ _ _ Hrun)
    as (ps & answers & evs & k & j & Hf & Hrec & _ & _ & Hcat & _ & _ & Hlen
        & _ & _ & Hj & Hjk & Hk & Hret & _ & _).
  exists ps, answers, j.
  split; [exact Hf|]. split; [exact Hrec|]. split; [exact Hcat|].
  split; [apply deltas_delta_of; rewrite Hlen, length_firstn; lia|].
  split; [lia|]. split; [lia|].
  intros d Hd. destruct (Hret d Hd) as (Hne & -> & Hlast & Hall & Hans).
  rewrite firstn_all in Hcat.
  split; [reflexivity|]. split; [exact Hans|]. split; [exact Hall|].
  split; [exact Hlast|].
  destruct ps as [|p0 ps']; [congruence|].
  destruct (deltas_last key this (p0 :: ps') answers p0 Hne Hall Hans) as [Ht Hfl].
  rewrite <- (Hlast p0) in Ht, Hfl.
  rewrite Hcat, Hrec, !last_app.
  split.
  - intros E. destruct (Ht E) as [added ->]. eauto.
  - intros E. destruct (Hfl E) as (added & a & -> & ->). eauto.
Qed.

Lemma removed_computed_unless_done_witness :
  exists added a,
    last (catalog (snd (ingestOneBurst aborted_env sample_key sample_engine 1 "run-1"
                          empty_world)))
    = Some (DeltaMutation added a)
    /\ last (reconciled (snd (ingestOneBurst aborted_env sample_key sample_engine 1
                                "run-1" empty_world)))
       = Some a.
Proof.
  set (run := ingestOneBurst aborted_env sample_key sample_engine 1 "run-1" empty_world).
  assert (Hrun : run = (Returned false, snd run)) by (vm_compute; reflexivity).
  destruct (removed_computed_unless_done _ _ _ _ _ _ _ _ Hrun)
    as (ps & answers & j & _ & _ & _ & _ & _ & _ & Hret).
  destruct (Hret false eq_refl) as (_ & _ & _ & _ & _ & Hfalse).
  exact (Hfalse eq_refl).
Defined.

(** ** The lifecycle record *)

Lemma current_record_update_row provider id f w :
  (forall r, provider_name (f r) = provider_name r) ->
  (forall r, completed (f r) = completed r) ->
  Manager.current_record provider (Manager.update_row id f w)
  = option_map (fun r => if String.eqb (rec_id r) id then f r else r)
      (Manager.current_record provider w).
Proof.
  intros Hname Hdone. unfold Manager.current_record, Manager.update_row. cbn.
  induction (ingestions w) as [|r l IH]; [reflexivity|].
  cbn. unfold Manager.is_current at 1 3.
  destruct (String.eqb (rec_id r) id) eqn:E.
  - rewrite Hname, Hdone.
    destruct (String.eqb (provider_name r) provider && negb (completed r));
      cbn; [rewrite E; reflexivity|exact IH].
  - destruct (String.eqb (provider_name r) provider && negb (completed r));
      cbn; [rewrite E; reflexivity|exact IH].
Qed.

Lemma current_record_same_rows provider w1 w2 :
  ingestions w2 = ingestions w1 ->
  Manager.current_record provider w2 = Manager.current_record provider w1.
Proof. intros H. unfold Manager.current_record. rewrite H. reflexivity. Qed.

Lemma find_snoc_fresh {A : Type} (f : A -> bool) (l : list A) (x : A) :
  List.find f l = None -> f x = true -> List.find f (l ++ [x]) = Some x.
Proof.
  intros Hl Hx. induction l as [|y l IH]; cbn in *; [rewrite Hx; reflexivity|].
  destruct (f y); [discriminate|]. apply IH, Hl.
Qed.

(** The record a tick acts on: what [getCurrentAction] returns describes
    the active row of the provider. *)
Definition describes (a : CurrentAction) (r : IngestionRecord) : Prop :=
  rec_id r = ingestionId a /\ next_action r = nextAction a
  /\ attempts r = act_attempts a /\ next_action_at r = nextActionAt a.

Lemma getCurrentAction_some env this w a w0 :
  getCurrentAction env this w = (Returned (Some a), w0) ->
  exists r,
    Manager.current_record (providerName (options this)) w0 = Some r
    /\ describes a r
    /\ marks w0 = marks w /\ catalog w0 = catalog w /\ now w0 = now w.
Proof.
  unfold getCurrentAction, getCurrentIngestionRecord, createProviderIngestionRecord.
  unfold bind at 1. settle_extern; [discriminate|].
  destruct (Manager.current_record (providerName (options this)) _) as [r|] eqn:Hcur.
  - cbn. intros [= <- <-]. exists r. unfold describes. cbn.
    repeat split; try reflexivity. exact Hcur.
  - unfold bind at 1. settle_extern; [discriminate|].
    unfold Manager.create_record.
    match goal with
    | |- context [Manager.current_record ?p ?w'] =>
        replace (Manager.current_record p w') with (@None IngestionRecord)
          by (rewrite <- Hcur; reflexivity)
    end.
    cbn. intros [= <- <-]. eexists. split.
    { unfold Manager.current_record in *. cbn in *.
      apply find_snoc_fresh; [exact Hcur|].
      unfold Manager.is_current. cbn. rewrite String.eqb_refl. reflexivity. }
    unfold describes, Manager.fresh_row. cbn. repeat split; reflexivity.
Qed.

Lemma handleNextAction_dispatch env key this fuel w wa a w0 :
  ready env w = (Returned tt, wa) ->
  getCurrentAction env this wa = (Returned (Some a), w0) ->
  handleNextAction env key this fuel w = dispatch env key this fuel a w0.
Proof.
  intros Hr Ha. unfold handleNextAction.
  rewrite (bind_returned _ _ _ _ _ Hr), (bind_returned _ _ _ _ _ Ha). reflexivity.
Qed.

Lemma dispatch_ingest env key this fuel a w :
  nextAction a = "ingest" ->
  dispatch env key this fuel a w
  = try_catch (ingestTry env key this fuel (ingestionId a))
      (ingestCatch env this (ingestionId a) (act_attempts a)) w.
Proof. intros H. unfold dispatch. rewrite H. reflexivity. Qed.

(** ** Recognising a cancellation *)

Lemma isCancel_message e : isCancel e = true <-> message e = Some "CANCEL".
Proof.
  unfold isCancel. destruct (message e) as [m|]; [|split; discriminate].
  destruct (String.eqb_spec m "CANCEL") as [->|Hne].
  - split; reflexivity.
  - rewrite andb_false_r. split; [discriminate|]. intros [= ->]. congruence.
Qed.

Lemma ingestCatch_cancel env this id tried e w :
  message e = Some "CANCEL" ->
  ingestCatch env this id tried e w
  = setProviderCanceling env id "CANCEL"
      (set_logs (fun l => l ++ [(Info, IngestionCanceled id)]) w).
Proof. intros H. unfold ingestCatch. rewrite H. reflexivity. Qed.

Lemma ingestCatch_other env this id tried e w :
  isCancel e = false ->
  ingestCatch env this id tried e w = ingestBackoff env this id tried e w.
Proof.
  unfold ingestCatch, isCancel. destruct (message e) as [m|]; [|reflexivity].
  intros ->. reflexivity.
Qed.

Lemma ingestBackoff_entry env this id tried e d w :
  currentBackoff this tried = inr d ->
  ingestBackoff env this id tried e w
  = setProviderBackoff env id tried e (as_milliseconds d)
      (set_logs (fun l => l ++ [(Error, BurstError e);
                                (Error, BurstBackoff id d (truncatedError e))]) w).
Proof.
  intros H. unfold ingestBackoff. rewrite H. unfold bind, logger.
  cbn. unfold set_logs. cbn. rewrite <- app_assoc. reflexivity.
Qed.

(** ** The [try] block *)

(** The external calls of the [try] block: those of the burst and the
    three lifecycle writes around it. *)
Definition try_event (key : string) (this : IncrementalIngestionEngine)
    (ev : Event) : Prop :=
  burst_event key this ev
  \/ (exists id, ev_call ev = SetProviderBursting id)
  \/ (exists id rest, ev_call ev = SetProviderResting id rest)
  \/ (exists id, ev_call ev = SetProviderInterstitial id).

Lemma setProviderBursting_returned env id w0 w1 :
  setProviderBursting env id w0 = (Returned tt, w1) ->
  w1 = Manager.update_row id Manager.bursting
         (set_calls (fun l => l ++ [Ev (SetProviderBursting id) None]) w0).
Proof.
  unfold setProviderBursting, extern.
  destruct (env_fails env (SetProviderBursting id) w0); [discriminate|].
  intros [= <-]. reflexivity.
Qed.

Lemma ingestTry_progress env key this fuel id w0 r w1 :
  ingestTry env key this fuel id w0 = (r, w1) ->
  exists evs,
    calls w1 = calls w0 ++ evs
    /\ Forall (try_event key this) evs
    /\ now w1 = now w0
    /\ (forall e, r = Threw e ->
          ingestions w1 = ingestions w0
          \/ ingestions w1 = ingestions (Manager.update_row id Manager.bursting w0)).
Proof.
  unfold ingestTry, setProviderBursting.
  unfold bind at 1. settle_extern.
  { intros [= <- <-]. eexists. split; [reflexivity|].
    split; [|split; [reflexivity|intros; left; reflexivity]].
    constructor; [|constructor]. right. left. eauto. }
  unfold bind at 1.
  match goal with
  | |- context [ingestOneBurst env key this fuel id ?w] =>
      set (wb := w);
      destruct (ingestOneBurst env key this fuel id wb) as [rb w2] eqn:Hburst
  end.
  destruct (ingestOneBurst_progress _ _ _ _ _ _ _ _ Hburst)
    as (ps & answers & evs & k & j & _ & _ & Hcalls & _ & _ & _ & Hev & _
        & Hi & Hn & _).
  assert (Hevs : Forall (try_event key this)
                   (Ev (SetProviderBursting id) None :: evs)).
  { constructor; [right; left; eauto|].
    eapply Forall_impl; [exact Hev|]. intros ev H. left. exact H. }
  subst wb. cbn in Hcalls, Hi, Hn.
  destruct rb as [d| |].
  - destruct d.
    + unfold bind, logger, setProviderResting. settle_extern.
      * intros [= <- <-]. cbn. rewrite Hcalls, Hi, Hn, <- !app_assoc.
        exists ((Ev (SetProviderBursting id) None :: evs)
                ++ [Ev (SetProviderResting id (restLength this)) (Some e)]).
        split; [reflexivity|]. split; [|split; [reflexivity|auto]].
        apply Forall_app. split; [exact Hevs|].
        constructor; [|constructor]. right. right. left. eauto.
      * intros [= <- <-]. cbn. rewrite Hcalls, Hn, <- !app_assoc.
        exists ((Ev (SetProviderBursting id) None :: evs)
                ++ [Ev (SetProviderResting id (restLength this)) None]).
        split; [reflexivity|]. split; [|split; [reflexivity|discriminate]].
        apply Forall_app. split; [exact Hevs|].
        constructor; [|constructor]. right. right. left. eauto.
    + unfold bind, logger, setProviderInterstitial. settle_extern.
      * intros [= <- <-]. cbn. rewrite Hcalls, Hi, Hn, <- !app_assoc.
        exists ((Ev (SetProviderBursting id) None :: evs)
                ++ [Ev (SetProviderInterstitial id) (Some e)]).
        split; [reflexivity|]. split; [|split; [reflexivity|auto]].
        apply Forall_app. split; [exact Hevs|].
        constructor; [|constructor]. right. right. right. eauto.
      * intros [= <- <-]. cbn. rewrite Hcalls, Hn, <- !app_assoc.
        exists ((Ev (SetProviderBursting id) None :: evs)
                ++ [Ev (SetProviderInterstitial id) None]).
        split; [reflexivity|]. split; [|split; [reflexivity|discriminate]].
        apply Forall_app. split; [exact Hevs|].
        constructor; [|constructor]. right. right. right. eauto.
  - intros [= <- <-]. rewrite Hcalls, Hi, Hn, <- !app_assoc.
    exists (Ev (SetProviderBursting id) None :: evs).
    split; [reflexivity|]. split; [exact Hevs|]. split; [reflexivity|auto].
  - intros [= <- <-]. rewrite Hcalls, Hn, <- !app_assoc.
    exists (Ev (SetProviderBursting id) None :: evs).
    split; [reflexivity|]. split; [exact Hevs|].
    split; [reflexivity|discriminate].
Qed.

Lemma record_after_try provider id r0 w0 w1 :
  Manager.current_record provider w0 = Some r0 ->
  rec_id r0 = id ->
  ingestions w1 = ingestions w0
  \/ ingestions w1 = ingestions (Manager.update_row id Manager.bursting w0) ->
  exists r1,
    Manager.current_record provider w1 = Some r1
    /\ rec_id r1 = id /\ attempts r1 = attempts r0
    /\ next_action r1 = next_action r0 /\ next_action_at r1 = next_action_at r0.
Proof.
  intros Hcur Hid [H|H].
  - exists r0. rewrite (current_record_same_rows _ _ _ H). auto.
  - exists (Manager.bursting r0).
    rewrite (current_record_same_rows _ _ _ H), current_record_update_row, Hcur
      by reflexivity.
    cbn. rewrite Hid, String.eqb_refl. auto.
Qed.

Lemma current_after_write provider id f w wl r1 :
  (forall r, provider_name (f r) = provider_name r) ->
  (forall r, completed (f r) = completed r) ->
  ingestions wl = ingestions w ->
  Manager.current_record provider w = Some r1 ->
  rec_id r1 = id ->
  Manager.current_record provider (Manager.update_row id f wl) = Some (f r1).
Proof.
  intros Hn Hc Hsame Hcur Hid.
  rewrite current_record_update_row by assumption.
  rewrite (current_record_same_rows _ _ _ Hsame), Hcur. cbn.
  rewrite Hid, String.eqb_refl. reflexivity.
Qed.

Lemma try_event_not_backoff key this id tried error delay f :
  ~ try_event key this (Ev (SetProviderBackoff id tried error delay) f).
Proof.
  intros [H|[(x & H)|[(x & y & H)|(x & H)]]]; cbn in H;
    first [contradiction | discriminate].
Qed.

Lemma try_event_not_canceling key this id reason f :
  ~ try_event key this (Ev (SetProviderCanceling id reason) f).
Proof.
  intros [H|[(x & H)|[(x & y & H)|(x & H)]]]; cbn in H;
    first [contradiction | discriminate].
Qed.

(** How a lifecycle write settles: rejected with [x] or resolved. *)
Definition settled (f : option thrown) : outcome unit :=
  match f with
  | Some x => Threw x
  | None => Returned tt
  end.

(** ** Failures of a burst *)

(** An engine that was given an empty backoff table. *)
Definition tableless_engine : IncrementalIngestionEngine :=
  constructor {| providerName := "github"; opt_restLength := mkDuration 1 0 0 0;
                 opt_backoff := Some [] |}.

(** The provider's fetch fails. *)
Definition source_down : thrown := JsError "Error" "connect ETIMEDOUT".

Definition failing_fetch_env : Env :=
  {| env_fails := fun c _ =>
       match c with
       | ProviderNext _ => Some source_down
       | _ => None
       end;
     env_next := fun cursor _ => two_pages cursor;
     env_aborted := fun _ => false;
     env_removed := fun _ _ _ => [];
     env_uuid := fun _ => "6f1c" |}.

(** An ingestion of the sample provider that is to ingest, after seven
    failed attempts. *)
Definition ingesting_world : World :=
  mkWorld
    [ {| rec_id := "run-1"; provider_name := "github"; next_action := "ingest";
         next_action_at := 0; attempts := 7; status := "interstitial";
         last_error := None; completed := false |} ]
    [] [] [] 1000 [] [] [] [].

(** Whatever table the engine has, a failure of the burst that is not a
    cancellation is answered by a call of [setProviderBackoff], and the
    tick settles as that call does. *)
Definition failure_always_backs_off : Prop :=
  forall env key this fuel w wa a w0 e w1,
    ready env w = (Returned tt, wa) ->
    getCurrentAction env this wa = (Returned (Some a), w0) ->
    nextAction a = "ingest" ->
    ingestTry env key this fuel (ingestionId a) w0 = (Threw e, w1) ->
    isCancel e = false ->
    exists delay f w',
      handleNextAction env key this fuel w = (settled f, w')
      /\ calls w'
         = calls w1 ++ [Ev (SetProviderBackoff (ingestionId a) (act_attempts a) e delay) f].

(** An engine constructed with an empty table, a fetch that fails: the
    look-up of the delay throws inside the [catch] block, the tick throws
    that error and makes no call after the fetch. *)
Lemma empty_table_failure_leaves_the_tick : ~ failure_always_backs_off.
Proof.
  intros H.
  set (a := {| ingestionId := "run-1"; nextAction := "ingest"; act_attempts := 7;
               nextActionAt := 0 |}).
  set (wa := snd (ready failing_fetch_env ingesting_world)).
  set (w0 := snd (getCurrentAction failing_fetch_env tableless_engine wa)).
  set (w1 := snd (ingestTry failing_fetch_env sample_key tableless_engine 3 "run-1" w0)).
  assert (H1 : ready failing_fetch_env ingesting_world = (Returned tt, wa))
    by (vm_compute; reflexivity).
  assert (H2 : getCurrentAction failing_fetch_env tableless_engine wa
               = (Returned (Some a), w0)) by (vm_compute; reflexivity).
  assert (H3 : nextAction a = "ingest") by reflexivity.
  assert (H4 : ingestTry failing_fetch_env sample_key tableless_engine 3 (ingestionId a) w0
               = (Threw source_down, w1)) by (vm_compute; reflexivity).
  destruct (H _ _ _ _ _ _ _ _ _ _ H1 H2 H3 H4 eq_refl) as (delay & f & w' & Hrun & Hcalls).
  assert (Hthrew : handleNextAction failing_fetch_env sample_key tableless_engine 3
                     ingesting_world = (Threw invalid_duration, w1))
    by (vm_compute; reflexivity).
  rewrite Hthrew in Hrun. injection Hrun as _ <-.
  apply (f_equal (@length Event)) in Hcalls. rewrite length_app in Hcalls.
  cbn in Hcalls. lia.
Qed.

(** The look-up of the delay yields an entry for a table that is not
    empty and attempts that are not negative, and luxon's error
    otherwise. *)
Lemma currentBackoff_cases (this : IncrementalIngestionEngine) (tries : Z) :
  (backoff this <> [] /\ 0 <= tries /\ exists d, currentBackoff this tries = inr d)
  \/ ((backoff this = [] \/ tries < 0)
      /\ currentBackoff this tries = inl invalid_duration).
Proof.
  destruct (backoff this) as [|d0 l] eqn:Htable.
  - right. split; [left; reflexivity|].
    unfold currentBackoff, js_index. rewrite Htable.
    destruct (Z.min (Z.of_nat (length (@nil DurationObjectUnits)) - 1) tries <? 0);
      [reflexivity|].
    destruct (Z.to_nat _); reflexivity.
  - destruct (Z.ltb_spec tries 0) as [Hneg|Hpos].
    + right. split; [right; exact Hneg|].
      unfold currentBackoff, js_index.
      destruct (Z.ltb_spec (Z.min (Z.of_nat (length (backoff this)) - 1) tries) 0)
        as [_|Hge]; [reflexivity|lia].
    + left. split; [discriminate|]. split; [exact Hpos|].
      unfold currentBackoff.
      rewrite js_index_clamped by (rewrite ?Htable; (discriminate || assumption)).
      destruct (nth_error (backoff this) _) as [d|] eqn:E; [exists d; reflexivity|].
      apply nth_error_None in E. rewrite Htable in E. cbn in E. lia.
Qed.

(** C4, as the code has it: in a tick whose action is [ingest] and whose
    [try] block throws [e]: when [e] is a cancellation the tick calls
    [setProviderCanceling] with the reason, makes no call of
    [setProviderBackoff], and, the write resolved, leaves the record in
    [cancel] with its attempts as they were, whatever their count; when
    [e] is anything else and the table has an entry for the attempts (it
    has one when it is not empty and the attempts are not negative), the
    tick calls [setProviderBackoff] with the attempts and the delay of the
    table and settles as that call does, the record in [backoff] with one
    more attempt and due at now plus the delay when the write resolved;
    and when the table has no entry (it is empty, or the attempts are
    negative), the tick throws the error of the look-up in the world the
    [try] block left, without a call of [setProviderBackoff]. *)
Theorem burst_failure_cancels_or_backs_off env key this fuel w wa a w0 e w1 :
  ready env w = (Returned tt, wa) ->
  getCurrentAction env this wa = (Returned (Some a), w0) ->
  nextAction a = "ingest" ->
  ingestTry env key this fuel (ingestionId a) w0 = (Threw e, w1) ->
  (isCancel e = true ->
     exists f w',
       handleNextAction env key this fuel w = (settled f, w')
       /\ calls w' = calls w1 ++ [Ev (SetProviderCanceling (ingestionId a) "CANCEL") f]
       /\ (forall evs, calls w' = calls w0 ++ evs ->
             forall i n x d f', ~ In (Ev (SetProviderBackoff i n x d) f') evs)
       /\ (f = None ->
             exists r',
               Manager.current_record (providerName (options this)) w' = Some r'
               /\ rec_id r' = ingestionId a
               /\ next_action r' = "cancel"
               /\ last_error r' = Some "CANCEL"
               /\ attempts r' = act_attempts a))
  /\ (isCancel e = false ->
      (forall d, currentBackoff this (act_attempts a) = inr d ->
       exists f w',
         handleNextAction env key this fuel w = (settled f, w')
         /\ calls w'
            = calls w1 ++ [Ev (SetProviderBackoff (ingestionId a) (act_attempts a) e
                                 (as_milliseconds d)) f]
         /\ (f = None ->
               exists r',
                 Manager.current_record (providerName (options this)) w' = Some r'
                 /\ rec_id r' = ingestionId a
                 /\ next_action r' = "backoff"
                 /\ attempts r' = act_attempts a + 1
                 /\ next_action_at r' = now w' + as_milliseconds d))
      /\ (forall x, currentBackoff this (act_attempts a) = inl x ->
            x = invalid_duration
            /\ (backoff this = [] \/ act_attempts a < 0)
            /\ handleNextAction env key this fuel w = (Threw x, w1))
      /\ (backoff this <> [] -> 0 <= act_attempts a ->
            exists d, currentBackoff this (act_attempts a) = inr d)).
Proof.
  intros Hready Hact Hingest Htry.
  destruct (getCurrentAction_some _ _ _ _ _ Hact)
    as (r0 & Hcur0 & (Hid0 & Hna0 & Hat0 & Hnaa0) & _).
  destruct (ingestTry_progress _ _ _ _ _ _ _ _ Htry)
    as (evs & Hcalls & Hevs & Hnow & Hrows).
  destruct (record_after_try _ _ _ _ _ Hcur0 Hid0 (Hrows e eq_refl))
    as (r1 & Hcur1 & Hid1 & Hat1 & Hna1 & Hnaa1).
  rewrite (handleNextAction_dispatch _ _ _ _ _ _ _ _ Hready Hact),
    (dispatch_ingest _ _ _ _ _ _ Hingest).
  unfold try_catch. rewrite Htry.
  split.
  - intros Hc. apply isCancel_message in Hc.
    rewrite (ingestCatch_cancel _ _ _ _ _ _ Hc).
    unfold setProviderCanceling, extern.
    match goal with
    | |- context [env_fails env ?c ?wl] => destruct (env_fails env c wl) as [x|] eqn:F
    end.
    + exists (Some x). eexists. split; [reflexivity|]. cbn.
      split; [reflexivity|]. split; [|discriminate].
      intros evs' Hevs' i n y d f' Hin. rewrite Hcalls, <- app_assoc in Hevs'.
      apply app_inv_head in Hevs'. subst evs'.
      apply in_app_or in Hin as [Hin|[Hin|[]]]; [|discriminate Hin].
      rewrite List.Forall_forall in Hevs.
      exact (try_event_not_backoff _ _ _ _ _ _ _ (Hevs _ Hin)).
    + exists None. eexists. split; [reflexivity|]. cbn.
      split; [reflexivity|]. split.
      * intros evs' Hevs' i n y d f' Hin. rewrite Hcalls, <- app_assoc in Hevs'.
        apply app_inv_head in Hevs'. subst evs'.
        apply in_app_or in Hin as [Hin|[Hin|[]]]; [|discriminate Hin].
        rewrite List.Forall_forall in Hevs.
        exact (try_event_not_backoff _ _ _ _ _ _ _ (Hevs _ Hin)).
      * intros _. exists (Manager.canceling "CANCEL" r1).
        split; [|cbn; repeat split; congruence].
        eapply current_after_write; try reflexivity; [exact Hcur1|exact Hid1].
  - intros Hc. rewrite (ingestCatch_other _ _ _ _ _ _ Hc).
    split; [|split].
    + intros d Hd. rewrite (ingestBackoff_entry _ _ _ _ _ _ _ Hd).
      unfold setProviderBackoff, extern.
      match goal with
      | |- context [env_fails env ?c ?wl] => destruct (env_fails env c wl) as [x|] eqn:F
      end.
      * exists (Some x). eexists. split; [reflexivity|]. cbn.
        split; [reflexivity|discriminate].
      * exists None. eexists. split; [reflexivity|]. cbn.
        split; [reflexivity|]. intros _.
        exists (Manager.backing_off (now w1) (act_attempts a) e (as_milliseconds d) r1).
        split; [|cbn; repeat split; congruence].
        eapply current_after_write; try reflexivity; [exact Hcur1|exact Hid1].
    + intros x Hx.
      destruct (currentBackoff_cases this (act_attempts a))
        as [(_ & _ & d & Hd)|(Hwhy & Hinv)].
      * rewrite Hd in Hx. discriminate Hx.
      * rewrite Hinv in Hx. injection Hx as <-.
        split; [reflexivity|]. split; [exact Hwhy|].
        unfold ingestBackoff. rewrite Hinv. reflexivity.
    + intros Hne Hpos.
      destruct (currentBackoff_cases this (act_attempts a))
        as [(_ & _ & Hd)|([Hempty|Hneg] & _)]; [exact Hd|contradiction|lia].
Qed.

(** The provider's fetch is cancelled. *)
Definition canceled_fetch_env : Env :=
  {| env_fails := fun c _ =>
       match c with
       | ProviderNext _ => Some (JsError "Error" "CANCEL")
       | _ => None
       end;
     env_next := fun cursor _ => two_pages cursor;
     env_aborted := fun _ => false;
     env_removed := fun _ _ _ => [];
     env_uuid := fun _ => "6f1c" |}.

Lemma burst_failure_cancels_or_backs_off_witness :
  exists r',
    Manager.current_record "github"
      (snd (handleNextAction canceled_fetch_env sample_key sample_engine 3 ingesting_world))
    = Some r'
    /\ next_action r' = "cancel" /\ attempts r' = 7.
Proof.
  set (a := {| ingestionId := "run-1"; nextAction := "ingest"; act_attempts := 7;
               nextActionAt := 0 |}).
  set (wa := snd (ready canceled_fetch_env ingesting_world)).
  set (w0 := snd (getCurrentAction canceled_fetch_env sample_engine wa)).
  set (w1 := snd (ingestTry canceled_fetch_env sample_key sample_engine 3 "run-1" w0)).
  assert (H1 : ready canceled_fetch_env ingesting_world = (Returned tt, wa))
    by (vm_compute; reflexivity).
  assert (H2 : getCurrentAction canceled_fetch_env sample_engine wa
               = (Returned (Some a), w0)) by (vm_compute; reflexivity).
  assert (H3 : nextAction a = "ingest") by reflexivity.
  assert (H4 : ingestTry canceled_fetch_env sample_key sample_engine 3 (ingestionId a) w0
               = (Threw (JsError "Error" "CANCEL"), w1)) by (vm_compute; reflexivity).
  destruct (burst_failure_cancels_or_backs_off _ _ _ _ _ _ _ _ _ _ H1 H2 H3 H4)
    as [Hcancel _].
  destruct (Hcancel eq_refl) as (f & w' & Hrun & _ & _ & Hrec).
  assert (Hv : fst (handleNextAction canceled_fetch_env sample_key sample_engine 3
                      ingesting_world) = Returned tt) by (vm_compute; reflexivity).
  rewrite Hrun in Hv |- *. cbn [fst snd] in Hv |- *.
  destruct f as [x|]; [discriminate Hv|].
  destruct (Hrec eq_refl) as (r' & Hcur & _ & Hna & _ & Hat).
  exists r'. split; [exact Hcur|]. split; [exact Hna|exact Hat].
Defined.

(** ** How a cancellation is recognised *)

(** The [catch] block routes the error to the cancel state. *)
Definition routes_to_cancel (env : Env) (this : IncrementalIngestionEngine)
    (id : string) (tried : Z) (e : thrown) (w : World) : Prop :=
  exists reason f,
    calls (snd (ingestCatch env this id tried e w))
    = calls w ++ [Ev (SetProviderCanceling id reason) f].

(** Cancellation is a distinguished kind of error: which errors are routed
    to the cancel state is decided by their kind. *)
Definition recognised_by_kind : Prop :=
  exists cancellation : error_kind -> bool,
    forall env this id tried e w,
      routes_to_cancel env this id tried e w <-> cancellation (kind_of e) = true.

(** Two errors of one kind, [Error], that differ in their message only:
    the first is routed to the cancel state, the second is not. *)
Lemma cancellation_not_recognised_by_kind : ~ recognised_by_kind.
Proof.
  intros (cancellation & H).
  assert (H1 : routes_to_cancel quiet_env sample_engine "run-1" 0
                 (JsError "Error" "CANCEL") empty_world).
  { exists "CANCEL", None. vm_compute. reflexivity. }
  apply H in H1. change (kind_of (JsError "Error" "CANCEL"))
    with (kind_of (JsError "Error" "connect ETIMEDOUT")) in H1.
  apply (H quiet_env sample_engine "run-1" 0 (JsError "Error" "connect ETIMEDOUT")
           empty_world) in H1.
  destruct H1 as (reason & f & H1). vm_compute in H1. discriminate H1.
Qed.

(** C5, as the code has it: an error raised during a burst is recognised
    as a cancellation by its message being exactly the text [CANCEL],
    whatever kind of error it is, and this recognition routes the
    ingestion to the cancel state (a call of [setProviderCanceling] with
    that text and no call of [setProviderBackoff]). *)
Theorem cancellation_recognised_by_message env this id tried e w :
  (routes_to_cancel env this id tried e w <-> message e = Some "CANCEL")
  /\ (message e = Some "CANCEL" ->
      exists f,
        fst (ingestCatch env this id tried e w) = settled f
        /\ calls (snd (ingestCatch env this id tried e w))
           = calls w ++ [Ev (SetProviderCanceling id "CANCEL") f]
        /\ (f = None ->
              ingestions (snd (ingestCatch env this id tried e w))
              = ingestions (Manager.update_row id (Manager.canceling "CANCEL") w))).
Proof.
  assert (Hroute : message e = Some "CANCEL" ->
            exists f,
              fst (ingestCatch env this id tried e w) = settled f
              /\ calls (snd (ingestCatch env this id tried e w))
                 = calls w ++ [Ev (SetProviderCanceling id "CANCEL") f]
              /\ (f = None ->
                    ingestions (snd (ingestCatch env this id tried e w))
                    = ingestions (Manager.update_row id (Manager.canceling "CANCEL") w))).
  { intros Hm. rewrite (ingestCatch_cancel _ _ _ _ _ _ Hm).
    unfold setProviderCanceling, extern.
    match goal with
    | |- context [env_fails env ?c ?wl] => destruct (env_fails env c wl) as [x|] eqn:F
    end.
    - exists (Some x). cbn. split; [reflexivity|]. split; [reflexivity|discriminate].
    - exists None. cbn. split; [reflexivity|]. split; reflexivity. }
  split; [|exact Hroute].
  split.
  - intros (reason & f & H).
    destruct (isCancel e) eqn:Hc; [apply isCancel_message, Hc|].
    exfalso. rewrite (ingestCatch_other _ _ _ _ _ _ Hc) in H.
    unfold ingestBackoff in H.
    destruct (currentBackoff this tried) as [invalid|d].
    + cbn in H. apply (f_equal (@length Event)) in H.
      rewrite length_app in H. cbn in H. lia.
    + unfold bind, logger, setProviderBackoff, extern in H. cbn in H.
      match type of H with
      | context [env_fails env ?c ?wl] => destruct (env_fails env c wl)
      end; cbn in H; apply app_inv_head in H; discriminate H.
  - intros Hm. destruct (Hroute Hm) as (f & _ & H & _). exists "CANCEL", f. exact H.
Qed.

(** ** A burst that returned *)

(** The lifecycle write that follows a burst that returned [done]. *)
Definition transition (this : IncrementalIngestionEngine) (id : string) (done : bool)
    : Call :=
  if done then SetProviderResting id (restLength this) else SetProviderInterstitial id.

Lemma tick_after_burst env key this fuel w wa a w0 w1 done w2 :
  ready env w = (Returned tt, wa) ->
  getCurrentAction env this wa = (Returned (Some a), w0) ->
  nextAction a = "ingest" ->
  setProviderBursting env (ingestionId a) w0 = (Returned tt, w1) ->
  ingestOneBurst env key this fuel (ingestionId a) w1 = (Returned done, w2) ->
  (forall w, env_fails env (transition this (ingestionId a) done) w = None) ->
  exists w' r',
    handleNextAction env key this fuel w = (Returned tt, w')
    /\ calls w' = calls w2 ++ [Ev (transition this (ingestionId a) done) None]
    /\ marks w' = marks w2 /\ catalog w' = catalog w2
    /\ Manager.current_record (providerName (options this)) w' = Some r'
    /\ rec_id r' = ingestionId a
    /\ attempts r' = 0
    /\ (done = true ->
          next_action r' = "rest"
          /\ next_action_at r' = now w' + as_milliseconds (restLength this))
    /\ (done = false ->
          next_action r' = "ingest" /\ status r' = "interstitial").
Proof.
  intros Hready Hact Hingest Hburst Hrun Hok.
  destruct (getCurrentAction_some _ _ _ _ _ Hact)
    as (r0 & Hcur0 & (Hid0 & Hna0 & Hat0 & Hnaa0) & _).
  pose proof (setProviderBursting_returned _ _ _ _ Hburst) as Hw1.
  destruct (ingestOneBurst_progress _ _ _ _ _ _ _ _ Hrun)
    as (ps & answers & evs & k & j & _ & _ & _ & _ & _ & _ & _ & _ & Hi & Hn & _).
  assert (Hcur2 : Manager.current_record (providerName (options this)) w2
                  = Some (Manager.bursting r0)).
  { rewrite (current_record_same_rows _ _ _ Hi), Hw1.
    eapply current_after_write; try reflexivity; [exact Hcur0|exact Hid0]. }
  rewrite (handleNextAction_dispatch _ _ _ _ _ _ _ _ Hready Hact),
    (dispatch_ingest _ _ _ _ _ _ Hingest).
  unfold try_catch, ingestTry.
  rewrite (bind_returned _ _ _ _ _ Hburst), (bind_returned _ _ _ _ _ Hrun).
  destruct done; cbn [transition] in Hok |- *.
  - unfold bind, logger, setProviderResting, extern. rewrite Hok.
    eexists. exists (Manager.resting (now w2) (restLength this) (Manager.bursting r0)).
    split; [reflexivity|]. cbn.
    split; [reflexivity|]. split; [reflexivity|]. split; [reflexivity|].
    split; [eapply current_after_write; try reflexivity; [exact Hcur2|exact Hid0]|].
    split; [exact Hid0|]. split; [reflexivity|].
    split; [auto|discriminate].
  - unfold bind, logger, setProviderInterstitial, extern. rewrite Hok.
    eexists. exists (Manager.interstitial (Manager.bursting r0)).
    split; [reflexivity|]. cbn.
    split; [reflexivity|]. split; [reflexivity|]. split; [reflexivity|].
    split; [eapply current_after_write; try reflexivity; [exact Hcur2|exact Hid0]|].
    split; [exact Hid0|]. split; [reflexivity|].
    split; [discriminate|]. intros _. split; [|reflexivity].
    rewrite Hna0. exact Hingest.
Qed.



(** ** Where a cancellation comes from *)

Lemma dispatch_cancels_on_message env key this fuel a w r w' evs :
  nextAction a = "ingest" ->
  dispatch env key this fuel a w = (r, w') ->
  calls w' = calls w ++ evs ->
  forall id reason f,
    In (Ev (SetProviderCanceling id reason) f) evs ->
    exists e w1,
      ingestTry env key this fuel (ingestionId a) w = (Threw e, w1)
      /\ message e = Some "CANCEL" /\ reason = "CANCEL".
Proof.
  intros Hingest Hrun Hcalls id reason f Hin.
  rewrite (dispatch_ingest _ _ _ _ _ _ Hingest) in Hrun. unfold try_catch in Hrun.
  destruct (ingestTry env key this fuel (ingestionId a) w) as [rt w1] eqn:Htry.
  destruct (ingestTry_progress _ _ _ _ _ _ _ _ Htry) as (evt & Hevt & Hall & _).
  rewrite List.Forall_forall in Hall.
  assert (Hnot : ~ In (Ev (SetProviderCanceling id reason) f) evt).
  { intros H. exact (try_event_not_canceling _ _ _ _ _ (Hall _ H)). }
  destruct rt as [[]|e|].
  - injection Hrun as _ <-. rewrite Hevt in Hcalls.
    apply app_inv_head in Hcalls. subst evt. contradiction.
  - destruct (isCancel e) eqn:Hc.
    + apply isCancel_message in Hc. exists e, w1.
      split; [reflexivity|]. split; [exact Hc|].
      rewrite (ingestCatch_cancel _ _ _ _ _ _ Hc) in Hrun.
      unfold setProviderCanceling, extern in Hrun.
      match type of Hrun with
      | context [env_fails env ?c ?wl] => destruct (env_fails env c wl)
      end; injection Hrun as _ <-; cbn in Hcalls;
        rewrite Hevt, <- app_assoc in Hcalls; apply app_inv_head in Hcalls;
        subst evs; apply in_app_or in Hin as [Hin|[Hin|[]]];
        try contradiction; injection Hin as _ <- _; reflexivity.
    + exfalso. rewrite (ingestCatch_other _ _ _ _ _ _ Hc) in Hrun.
      unfold ingestBackoff in Hrun.
      destruct (currentBackoff this (act_attempts a)) as [invalid|d].
      * injection Hrun as _ <-. rewrite Hevt in Hcalls.
        apply app_inv_head in Hcalls. subst evt. contradiction.
      * unfold bind, logger, setProviderBackoff, extern in Hrun. cbn in Hrun.
        match type of Hrun with
        | context [env_fails env ?c ?wl] => destruct (env_fails env c wl)
        end; injection Hrun as _ <-; cbn in Hcalls;
          rewrite Hevt, <- app_assoc in Hcalls; apply app_inv_head in Hcalls;
          subst evs; apply in_app_or in Hin as [Hin|[Hin|[]]];
          try contradiction; discriminate Hin.
  - injection Hrun as _ <-. rewrite Hevt in Hcalls.
    apply app_inv_head in Hcalls. subst evt. contradiction.
Qed.

(** ** Waiting *)

(** The clock moves between ticks. *)
Definition set_now (t : Z) (w : World) : World :=
  mkWorld (ingestions w) (marks w) (mark_entities w) (catalog w) t
    (calls w) (fetched w) (reconciled w) (logs w).

(** A run of ticks, each with the bound on the burst it may observe and
    the time at which it starts. *)
Fixpoint run_ticks (env : Env) (key : string) (this : IncrementalIngestionEngine)
    (schedule : list (nat * Z)) (w : World) : World :=
  match schedule with
  | [] => w
  | (fuel, t) :: rest =>
      run_ticks env key this rest (snd (taskFn env key this fuel (set_now t w)))
  end.

Definition same_stores (w w' : World) : Prop :=
  ingestions w' = ingestions w /\ marks w' = marks w
  /\ mark_entities w' = mark_entities w /\ catalog w' = catalog w.

(** The calls that only wait or read. *)
Definition read_only (ev : Event) : Prop :=
  ev_call ev = AwaitReady \/ exists p, ev_call ev = GetCurrentIngestionRecord p.

Lemma waiting_tick env key this fuel w r r0 w' :
  Manager.current_record (providerName (options this)) w = Some r ->
  next_action r = "rest" \/ next_action r = "backoff" ->
  now w <= next_action_at r ->
  handleNextAction env key this fuel w = (r0, w') ->
  same_stores w w'
  /\ exists evs, calls w' = calls w ++ evs /\ Forall read_only evs.
Proof.
  intros Hcur Hact Hnow.
  unfold handleNextAction, ready, getCurrentAction, getCurrentIngestionRecord, same_stores.
  unfold bind at 1. settle_extern.
  { intros [= <- <-]. cbn. repeat split. eexists. split; [reflexivity|].
    constructor; [left; reflexivity|constructor]. }
  unfold bind at 1. unfold bind at 1. settle_extern.
  { intros [= <- <-]. cbn. rewrite <- app_assoc. repeat split.
    eexists. split; [reflexivity|].
    constructor; [left; reflexivity|].
    constructor; [right; eexists; reflexivity|constructor]. }
  match goal with
  | |- context [Manager.current_record ?p ?w'] =>
      replace (Manager.current_record p w') with (Some r) by (rewrite <- Hcur; reflexivity)
  end.
  assert (Hlate : (now w >? next_action_at r) = false) by lia.
  unfold bind, logger, ret, dispatch, Date_now. cbn.
  destruct Hact as [-> | ->]; cbn; rewrite Hlate; cbn; intros [= <- <-]; cbn;
    rewrite <- app_assoc;
    (repeat split; eexists; split; [reflexivity|];
     constructor; [left; reflexivity|];
     constructor; [right; eexists; reflexivity|constructor]).
Qed.

Lemma taskFn_stores env key this fuel w :
  let w1 := snd (handleNextAction env key this fuel
                   (set_logs (fun l => l ++ [(Debug, BeginTick)]) w)) in
  let w' := snd (taskFn env key this fuel w) in
  ingestions w' = ingestions w1 /\ marks w' = marks w1
  /\ mark_entities w' = mark_entities w1 /\ catalog w' = catalog w1
  /\ calls w' = calls w1.
Proof.
  unfold taskFn, try_finally, try_catch, bind, logger, throw. cbn.
  destruct (handleNextAction env key this fuel _) as [[[]|e|] w1]; cbn; tauto.
Qed.

Lemma waiting_ticks env key this r schedule :
  forall w,
    Manager.current_record (providerName (options this)) w = Some r ->
    next_action r = "rest" \/ next_action r = "backoff" ->
    Forall (fun tick => snd tick <= next_action_at r) schedule ->
    same_stores w (run_ticks env key this schedule w)
    /\ exists evs,
         calls (run_ticks env key this schedule w) = calls w ++ evs
         /\ Forall read_only evs.
Proof.
  induction schedule as [|[fuel t] rest IH]; intros w Hcur Hact Hall.
  - cbn. unfold same_stores. repeat split. exists []. rewrite app_nil_r. auto.
  - apply Forall_cons_iff in Hall as [Ht Hall]. cbn in Ht. cbn [run_ticks].
    set (w0 := set_logs (fun l => l ++ [(Debug, BeginTick)]) (set_now t w)).
    assert (Hcur0 : Manager.current_record (providerName (options this)) w0 = Some r)
      by exact Hcur.
    destruct (waiting_tick env key this fuel w0 r _ _ Hcur0 Hact Ht
                (surjective_pairing _))
      as ((Hi & Hm & Hme & Hc) & evs & Hcalls & Hro).
    destruct (taskFn_stores env key this fuel (set_now t w))
      as (Hi' & Hm' & Hme' & Hc' & Hcalls').
    fold w0 in Hi', Hm', Hme', Hc', Hcalls'.
    set (w1 := snd (taskFn env key this fuel (set_now t w))) in *.
    assert (Hcur1 : Manager.current_record (providerName (options this)) w1 = Some r).
    { rewrite <- Hcur. apply current_record_same_rows. rewrite Hi', Hi. reflexivity. }
    destruct (IH w1 Hcur1 Hact Hall) as ((Hi2 & Hm2 & Hme2 & Hc2) & evs2 & Hcalls2 & Hro2).
    split.
    + unfold same_stores.
      rewrite Hi2, Hm2, Hme2, Hc2, Hi', Hm', Hme', Hc', Hi, Hm, Hme, Hc. auto.
    + exists (evs ++ evs2). split.
      * rewrite Hcalls2, Hcalls', Hcalls, <- app_assoc. reflexivity.
      * apply Forall_app. auto.
Qed.

(** C9: while the action is [rest] or [backoff] and the clock is not past
    next-action-at, a run of ticks of any length leaves the stores (the
    ingestion records with their attempts, the marks, the target store) as
    they were and makes no call but waiting for readiness and reading the
    record; once the clock is past it, and the store taking the writes, a
    tick in [rest] purges the finished ingestions of the provider and
    marks the ingestion complete, and a tick in [backoff] puts the record
    back to [ingest] with its attempts as they were. *)
Theorem waiting_leaves_record_untouched env key this r :
  (forall schedule w,
     Manager.current_record (providerName (options this)) w = Some r ->
     next_action r = "rest" \/ next_action r = "backoff" ->
     Forall (fun tick => snd tick <= next_action_at r) schedule ->
     same_stores w (run_ticks env key this schedule w)
     /\ Manager.current_record (providerName (options this))
          (run_ticks env key this schedule w) = Some r
     /\ exists evs,
          calls (run_ticks env key this schedule w) = calls w ++ evs
          /\ Forall read_only evs)
  /\ (forall fuel w,
        Manager.current_record (providerName (options this)) w = Some r ->
        next_action r = "rest" ->
        now w > next_action_at r ->
        (forall c w, env_fails env c w = None) ->
        exists w',
          handleNextAction env key this fuel w = (Returned tt, w')
          /\ calls w'
             = calls w ++ [Ev AwaitReady None;
                           Ev (GetCurrentIngestionRecord (providerName (options this))) None;
                           Ev (ClearFinishedIngestions (providerName (options this))) None;
                           Ev (SetProviderComplete (rec_id r)) None]
          /\ ingestions w'
             = ingestions (Manager.update_row (rec_id r) (Manager.finished "complete")
                             (Manager.clear_finished (providerName (options this)) w))
          /\ (forall r', In r' (ingestions w') -> rec_id r' = rec_id r ->
                completed r' = true))
  /\ (forall fuel w,
        Manager.current_record (providerName (options this)) w = Some r ->
        next_action r = "backoff" ->
        now w > next_action_at r ->
        (forall c w, env_fails env c w = None) ->
        exists w' r',
          handleNextAction env key this fuel w = (Returned tt, w')
          /\ calls w'
             = calls w ++ [Ev AwaitReady None;
                           Ev (GetCurrentIngestionRecord (providerName (options this))) None;
                           Ev (SetProviderIngesting (rec_id r)) None]
          /\ Manager.current_record (providerName (options this)) w' = Some r'
          /\ rec_id r' = rec_id r
          /\ next_action r' = "ingest"
          /\ attempts r' = attempts r).
Proof.
  split; [|split].
  - intros schedule w Hcur Hact Hall.
    destruct (waiting_ticks env key this r schedule w Hcur Hact Hall)
      as (Hsame & Hev).
    split; [exact Hsame|]. split; [|exact Hev].
    rewrite <- Hcur. apply current_record_same_rows, Hsame.
  - intros fuel w Hcur Hact Hnow Hok.
    assert (Hlate : (now w >? next_action_at r) = true) by lia.
    unfold handleNextAction, ready, getCurrentAction, getCurrentIngestionRecord,
      bind, extern.
    rewrite !Hok.
    replace (Manager.current_record (providerName (options this))
               (set_calls _ (set_calls _ w)))
      with (Some r) by (rewrite <- Hcur; reflexivity).
    unfold logger, ret, dispatch, Date_now, bind, clearFinishedIngestions,
      setProviderComplete, extern.
    cbn. rewrite Hact. cbn. rewrite Hlate, !Hok. cbn.
    eexists. split; [reflexivity|]. cbn. rewrite <- !app_assoc.
    split; [reflexivity|]. split; [reflexivity|].
    intros r' Hin Hid. apply in_map_iff in Hin as (x & <- & _).
    destruct (String.eqb_spec (rec_id x) (rec_id r)) as [_|Hne]; [reflexivity|].
    contradiction.
  - intros fuel w Hcur Hact Hnow Hok.
    assert (Hlate : (now w >? next_action_at r) = true) by lia.
    unfold handleNextAction, ready, getCurrentAction, getCurrentIngestionRecord,
      bind, extern.
    rewrite !Hok.
    replace (Manager.current_record (providerName (options this))
               (set_calls _ (set_calls _ w)))
      with (Some r) by (rewrite <- Hcur; reflexivity).
    unfold logger, ret, dispatch, Date_now, bind, setProviderIngesting, extern.
    cbn. rewrite Hact. cbn. rewrite Hlate, !Hok. cbn.
    eexists. exists (Manager.ingesting r). split; [reflexivity|]. cbn.
    rewrite <- !app_assoc.
    split; [reflexivity|].
    split; [|repeat split].
    eapply current_after_write; try reflexivity. exact Hcur.
Qed.

(** An ingestion of the sample provider that rests until 5000. *)
Definition resting_world : World :=
  mkWorld
    [ {| rec_id := "run-1"; provider_name := "github"; next_action := "rest";
         next_action_at := 5000; attempts := 0; status := "resting";
         last_error := None; completed := false |} ]
    [] [] [] 1000 [] [] [] [].

Lemma waiting_leaves_record_untouched_witness :
  same_stores resting_world
    (run_ticks quiet_env sample_key sample_engine [(3%nat, 2000); (3%nat, 4000); (3%nat, 5000)]
       resting_world).
Proof.
  destruct (waiting_leaves_record_untouched quiet_env sample_key sample_engine
              {| rec_id := "run-1"; provider_name := "github"; next_action := "rest";
                 next_action_at := 5000; attempts := 0; status := "resting";
                 last_error := None; completed := false |}) as (Hwait & _ & _).
  apply Hwait.
  - reflexivity.
  - left. reflexivity.
  - repeat constructor; cbn; lia.
Defined.

Lemma cancellation_recognised_by_message_witness :
  routes_to_cancel quiet_env sample_engine "run-1" 7 (JsError "TypeError" "CANCEL")
    empty_world.
Proof.
  apply (cancellation_recognised_by_message quiet_env sample_engine "run-1" 7
           (JsError "TypeError" "CANCEL") empty_world).
  reflexivity.
Defined.

(** ** Invariants of a tick *)

Section Keeps.

(** A property of the world that neither the call history nor the log
    bears on. *)
Variable P : World -> Prop.
Hypothesis P_calls : forall f w, P w -> P (set_calls f w).
Hypothesis P_logs : forall f w, P w -> P (set_logs f w).

(** The computation keeps [P], however it settles. *)
Definition keeps {A : Type} (m : M A) : Prop :=
  forall w, P w -> P (snd (m w)).

Lemma keeps_ret {A : Type} (a : A) : keeps (ret a).
Proof. intros w H. exact H. Qed.

Lemma keeps_throw {A : Type} (e : thrown) : keeps (@throw A e).
Proof. intros w H. exact H. Qed.

Lemma keeps_logger level msg : keeps (logger level msg).
Proof. intros w H. apply P_logs, H. Qed.

Lemma keeps_bind {A B : Type} (m : M A) (k : A -> M B) :
  keeps m -> (forall a, keeps (k a)) -> keeps (bind m k).
Proof.
  intros Hm Hk w H. unfold bind. specialize (Hm w H).
  destruct (m w) as [[a|e|] w1]; cbn in *; [apply Hk| |]; assumption.
Qed.

Lemma keeps_try_catch {A : Type} (body : M A) (handler : thrown -> M A) :
  keeps body -> (forall e, keeps (handler e)) -> keeps (try_catch body handler).
Proof.
  intros Hb Hh w H. unfold try_catch. specialize (Hb w H).
  destruct (body w) as [[a|e|] w1]; cbn in *; [|apply Hh|]; assumption.
Qed.

Lemma keeps_try_finally {A : Type} (body : M A) f :
  keeps body -> keeps (try_finally body (set_logs f)).
Proof.
  intros Hb w H. unfold try_finally. specialize (Hb w H).
  destruct (body w) as [[a|e|] w1]; cbn in *; try apply P_logs; assumption.
Qed.

Lemma keeps_extern {A : Type} env c (effect : World -> A * World) :
  (forall w, P w -> P (snd (effect w))) -> keeps (extern env c effect).
Proof.
  intros He w H. unfold extern.
  destruct (env_fails env c w); cbn; [apply P_calls, H|].
  specialize (He _ (P_calls (fun l => l ++ [Ev c None]) w H)).
  destruct (effect _). exact He.
Qed.

End Keeps.

(** The marks of every ingestion are numbered 0, 1, 2, ... *)
Definition numbered (w : World) : Prop :=
  forall id, contiguous (mark_sequences id w).

Lemma numbered_same_marks w w' : marks w' = marks w -> numbered w -> numbered w'.
Proof. intros H Hn id. unfold mark_sequences. rewrite H. apply Hn. Qed.

Lemma filter_purged (gone : string -> bool) id (l : list MarkRecord) :
  List.filter (fun m => String.eqb (mark_ingestion_id m) id)
    (List.filter (fun m => negb (gone (mark_ingestion_id m))) l)
  = if gone id then []
    else List.filter (fun m => String.eqb (mark_ingestion_id m) id) l.
Proof.
  induction l as [|m l IH]; cbn; [destruct (gone id); reflexivity|].
  destruct (String.eqb_spec (mark_ingestion_id m) id) as [E|E].
  - rewrite E. destruct (gone id) eqn:G; cbn.
    + exact IH.
    + rewrite E, String.eqb_refl, IH. reflexivity.
  - destruct (gone (mark_ingestion_id m)); cbn; [exact IH|].
    destruct (String.eqb_spec (mark_ingestion_id m) id); [contradiction|exact IH].
Qed.

Lemma numbered_clear_finished provider w :
  numbered w -> numbered (Manager.clear_finished provider w).
Proof.
  intros Hn id. unfold mark_sequences, Manager.clear_finished. cbn.
  rewrite filter_purged. destruct (Manager.owned_by_stale provider w id).
  - reflexivity.
  - apply Hn.
Qed.

Lemma numbered_burst env key this fuel id w :
  numbered w -> numbered (snd (ingestOneBurst env key this fuel id w)).
Proof.
  intros Hn id'. destruct (String.eqb_spec id' id) as [->|Hne].
  - apply burst_contiguous, Hn.
  - destruct (ingestOneBurst env key this fuel id w) as [r w'] eqn:Hrun.
    destruct (burst_sequences _ _ _ _ _ _ _ _ Hrun)
      as (ps & evs & k & _ & _ & _ & _ & _ & _ & _ & _ & Hother).
    cbn [snd]. rewrite (Hother id' Hne). apply Hn.
Qed.

Lemma taskFn_numbered env key this fuel : keeps numbered (taskFn env key this fuel).
Proof.
  assert (Hc : forall f w, numbered w -> numbered (set_calls f w))
    by (intros f w; apply numbered_same_marks; reflexivity).
  assert (Hl : forall f w, numbered w -> numbered (set_logs f w))
    by (intros f w; apply numbered_same_marks; reflexivity).
  assert (Hrow : forall id f w, numbered w -> numbered (snd (tt, Manager.update_row id f w)))
    by (intros id f w; apply numbered_same_marks; reflexivity).
  unfold taskFn. apply keeps_try_finally; [exact Hl|].
  apply keeps_try_catch.
  2:{ intros e. apply keeps_bind; [apply keeps_logger, Hl|intros _; apply keeps_throw]. }
  apply keeps_bind; [apply keeps_logger, Hl|intros _].
  unfold handleNextAction. apply keeps_bind.
  { apply keeps_extern; [exact Hc|]. intros w H. exact H. }
  intros _. apply keeps_bind.
  { unfold getCurrentAction. apply keeps_bind.
    { apply keeps_extern; [exact Hc|]. intros w H. exact H. }
    intros [r|].
    - apply keeps_bind; [apply keeps_logger, Hl|intros _; apply keeps_ret].
    - apply keeps_bind.
      + apply keeps_extern; [exact Hc|]. intros w H.
        unfold Manager.create_record.
        destruct (Manager.current_record _ w); [exact H|].
        revert H. apply numbered_same_marks. reflexivity.
      + intros [a|]; (apply keeps_bind; [|intros _; apply keeps_ret]);
          [apply keeps_logger, Hl|apply keeps_ret]. }
  intros [a|]; [|apply keeps_logger, Hl].
  unfold dispatch.
  destruct (String.eqb (nextAction a) "rest").
  { apply keeps_bind; [intros w H; exact H|]. intros clock.
    destruct (clock >? nextActionAt a); [|apply keeps_logger, Hl].
    apply keeps_bind.
    { apply keeps_extern; [exact Hc|]. intros w. apply numbered_clear_finished. }
    intros _. apply keeps_bind; [apply keeps_logger, Hl|intros _].
    apply keeps_extern; [exact Hc|]. apply Hrow. }
  destruct (String.eqb (nextAction a) "ingest").
  { apply keeps_try_catch.
    - unfold ingestTry. apply keeps_bind; [apply keeps_extern; [exact Hc|apply Hrow]|].
      intros _. apply keeps_bind; [intros w; apply numbered_burst|].
      intros [|].
      + apply keeps_bind; [apply keeps_logger, Hl|intros _].
        apply keeps_extern; [exact Hc|]. intros w. apply Hrow.
      + apply keeps_bind; [|intros _; apply keeps_logger, Hl].
        apply keeps_extern; [exact Hc|]. apply Hrow.
    - intros e. unfold ingestCatch, ingestBackoff.
      assert (Hb : keeps numbered
                     (match currentBackoff this (act_attempts a) with
                      | inl invalid => throw invalid
                      | inr d =>
                          bind (logger Error (BurstError e))
                            (fun _ =>
                               bind (logger Error
                                       (BurstBackoff (ingestionId a) d (truncatedError e)))
                                 (fun _ =>
                                    setProviderBackoff env (ingestionId a)
                                      (act_attempts a) e (as_milliseconds d)))
                      end)).
      { destruct (currentBackoff this (act_attempts a)); [apply keeps_throw|].
        apply keeps_bind; [apply keeps_logger, Hl|intros _].
        apply keeps_bind; [apply keeps_logger, Hl|intros _].
        apply keeps_extern; [exact Hc|]. intros w. apply Hrow. }
      destruct (message e) as [m|]; [|exact Hb].
      destruct (truthy m && String.eqb m "CANCEL"); [|exact Hb].
      apply keeps_bind; [apply keeps_logger, Hl|intros _].
      apply keeps_extern; [exact Hc|]. apply Hrow. }
  destruct (String.eqb (nextAction a) "backoff").
  { apply keeps_bind; [intros w H; exact H|]. intros clock.
    destruct (clock >? nextActionAt a); [|apply keeps_logger, Hl].
    apply keeps_bind; [apply keeps_logger, Hl|intros _].
    apply keeps_extern; [exact Hc|]. apply Hrow. }
  destruct (String.eqb (nextAction a) "cancel"); [|apply keeps_logger, Hl].
  apply keeps_bind; [apply keeps_logger, Hl|intros _].
  apply keeps_extern; [exact Hc|]. apply Hrow.
Qed.

Lemma run_ticks_numbered env key this schedule :
  forall w, numbered w -> numbered (run_ticks env key this schedule w).
Proof.
  induction schedule as [|[fuel t] rest IH]; intros w Hn; [exact Hn|].
  cbn [run_ticks]. apply IH, taskFn_numbered.
  revert Hn. apply numbered_same_marks. reflexivity.
Qed.

(** ** Marks across ticks *)

(** C1: after any run of ticks from a world whose marks are numbered 0, 1,
    2, ... for every ingestion (ticks whose bursts returned, threw at any
    call or were cut short, the next tick starting the process again), the
    marks are still numbered so; and a burst started there resumes at the
    sequence after the last mark, which is the number of marks of the
    ingestion (0 without a mark), opens with a fetch at the last mark's
    cursor ([undefined] without a mark), and leaves one mark for every page
    it fetched, whatever the page holds, the last page excepted when the
    burst was stopped before that page's mark was written. *)
Theorem marks_contiguous_across_bursts env key this schedule w0 :
  numbered w0 ->
  numbered (run_ticks env key this schedule w0)
  /\ forall id fuel r w',
       ingestOneBurst env key this fuel id (run_ticks env key this schedule w0)
       = (r, w') ->
       let w := run_ticks env key this schedule w0 in
       resume_sequence id w = Z.of_nat (length (mark_sequences id w))
       /\ exists ps evs k,
            fetched w' = fetched w ++ ps
            /\ calls w' = calls w ++ evs
            /\ burst_opening id w evs
            /\ map mark_key (marks w')
               = map mark_key (marks w)
                 ++ page_keys id (resume_sequence id w) (firstn k ps)
            /\ (length ps <= S k)%nat /\ (k <= length ps)%nat
            /\ (forall d, r = Returned d -> k = length ps)
            /\ mark_sequences id w'
               = map Z.of_nat (seq 0 (length (mark_sequences id w) + k))
            /\ numbered w'.
Proof.
  intros Hn0.
  pose proof (run_ticks_numbered env key this schedule w0 Hn0) as Hn.
  split; [exact Hn|].
  intros id fuel r w' Hrun. cbv zeta.
  set (w := run_ticks env key this schedule w0) in *.
  split; [apply contiguous_resume, Hn|].
  destruct (burst_sequences _ _ _ _ _ _ _ _ Hrun)
    as (ps & evs & k & Hf & Hcalls & Hopen & Hmk & Hlo & Hhi & Hret & Hseq & _).
  exists ps, evs, k.
  repeat (split; [assumption|]).
  assert (Hn' : numbered w').
  { replace w' with (snd (ingestOneBurst env key this fuel id w))
      by (rewrite Hrun; reflexivity).
    apply numbered_burst, Hn. }
  split; [|exact Hn'].
  pose proof (Hn' id) as Hc'. unfold contiguous in Hc'. rewrite Hc' at 1.
  rewrite Hseq, length_app, length_map, length_seq. reflexivity.
Qed.

Lemma marks_contiguous_across_bursts_witness :
  numbered empty_world
  /\ numbered
       (run_ticks quiet_env sample_key sample_engine [(1%nat, 10); (3%nat, 20)] empty_world)
  /\ map mark_sequence
       (marks (run_ticks quiet_env sample_key sample_engine [(1%nat, 10); (3%nat, 20)]
                 empty_world))
     = [0; 1].
Proof.
  assert (H0 : numbered empty_world) by (intros id; reflexivity).
  split; [exact H0|]. split.
  - apply (marks_contiguous_across_bursts quiet_env sample_key sample_engine
             [(1%nat, 10); (3%nat, 20)] empty_world H0).
  - vm_compute. reflexivity.
Defined.

(** *** A rejected mutation, tick by tick *)

(** Three pages of one entity each; the third is the last. *)
Definition three_pages (cursor : Cursor) : Page :=
  match cursor with
  | None =>
      {| page_done := false; page_entities := [component "a"];
         page_cursor := Some "2" |}
  | Some c =>
      if String.eqb c "2"
      then {| page_done := false; page_entities := [component "b"];
              page_cursor := Some "3" |}
      else {| page_done := true; page_entities := [component "c"];
              page_cursor := Some "end" |}
  end.

Definition rejected_before (w : World) : bool :=
  existsb (fun ev => match ev with
                     | Ev (ApplyMutation _) (Some _) => true
                     | _ => false
                     end) (calls w).

(** The target store rejects the second mutation it is handed, once. *)
Definition once_flaky_env : Env :=
  {| env_fails := fun c w =>
       match c with
       | ApplyMutation _ =>
           if negb (rejected_before w) && (1 <=? length (catalog w))%nat
           then Some catalog_down
           else None
       | _ => None
       end;
     env_next := fun cursor _ => three_pages cursor;
     env_aborted := fun _ => false;
     env_removed := fun _ _ _ => [];
     env_uuid := fun _ => "6f1c" |}.

Definition added_names (m : EntityProviderMutation) : list string :=
  match m with
  | DeltaMutation added _ => map (fun d => meta_name (metadata (entity d))) added
  | FullMutation entities => map (fun d => meta_name (metadata (entity d))) entities
  end.

(** The first tick fails on the delta of page 2 and backs off for a
    minute; the second, a minute later, puts the ingestion back to
    [ingest]; the third resumes after the mark of page 2.  Every page is
    fetched once, the marks are numbered 0, 1, 2, and the target store has
    the deltas of pages 1 and 3: page 2, in flight when the mutation was
    rejected, is the only page without a delta, and no page has two. *)
Example rejected_mutation_skips_one_page :
  let w1 := run_ticks once_flaky_env sample_key sample_engine [(5%nat, 0)] empty_world in
  let w3 := run_ticks once_flaky_env sample_key sample_engine
              [(5%nat, 0); (5%nat, 60001); (5%nat, 60002)] empty_world in
  option_map next_action (Manager.current_record "github" w1) = Some "backoff"
  /\ option_map attempts (Manager.current_record "github" w1) = Some 1
  /\ option_map next_action_at (Manager.current_record "github" w1) = Some 60000
  /\ map mark_sequence (marks w1) = [0; 1]
  /\ map added_names (catalog w1) = [["a"]]
  /\ map page_cursor (fetched w3) = [Some "2"; Some "3"; Some "end"]
  /\ map mark_sequence (marks w3) = [0; 1; 2]
  /\ map added_names (catalog w3) = [["a"]; ["c"]]
  /\ option_map next_action (Manager.current_record "github" w3) = Some "rest".
Proof. vm_compute. repeat split. Qed.
(** * The calls of a tick, in order *)

(** The lifecycle writes that move the record to another state or close
    it; [setProviderBursting] only marks the record while a burst runs. *)
Definition transition_write (c : Call) : bool :=
  match c with
  | SetProviderComplete _ | SetProviderResting _ _ | SetProviderInterstitial _
  | SetProviderCanceling _ _ | SetProviderBackoff _ _ _ _
  | SetProviderIngesting _ | SetProviderCanceled _ => true
  | _ => false
  end.

(** The calls [ingestOneBurst] and [mark] make. *)
Definition burst_call (c : Call) : bool :=
  match c with
  | GetLastMark _ | ProviderAround | ProviderNext _ | CreateMark _
  | CreateMarkEntities _ _ | ComputeRemoved _ _ | ApplyMutation _ => true
  | _ => false
  end.

(** The calls [handleNextAction] makes outside the [try] block of
    [case 'ingest']: nothing catches what they reject with but [taskFn],
    which throws it again. *)
Definition escaping (c : Call) : bool :=
  match c with
  | AwaitReady | GetCurrentIngestionRecord _ | CreateProviderIngestionRecord _
  | ClearFinishedIngestions _ | SetProviderComplete _ | SetProviderIngesting _
  | SetProviderCanceled _ | SetProviderCanceling _ _ | SetProviderBackoff _ _ _ _ => true
  | _ => false
  end.

Definition resolved (ev : Event) : bool :=
  match ev_failure ev with
  | None => true
  | Some _ => false
  end.

Section Protocol.

Variable env : Env.
Variable key : string.
Variable this : IncrementalIngestionEngine.

(** The calls of the [try] block for the ingestion [id], with how the
    block settles. *)
Inductive tried (id : string) : list Event -> outcome unit -> Prop :=
| tried_refused (e : thrown) :
    tried id [Ev (SetProviderBursting id) (Some e)] (Threw e)
| tried_stopped (evs : list Event) (r : outcome unit) :
    Forall (burst_event key this) evs ->
    r <> Returned tt ->
    tried id (Ev (SetProviderBursting id) None :: evs) r
| tried_moved (evs : list Event) (done : bool) (f : option thrown) :
    Forall (burst_event key this) evs ->
    tried id (Ev (SetProviderBursting id) None :: evs ++ [Ev (transition this id done) f])
      (settled f).

(** The calls of the [catch] block for the error [e]. *)
Inductive caught (id : string) (tries : Z) (e : thrown)
    : list Event -> outcome unit -> Prop :=
| caught_cancel (f : option thrown) :
    message e = Some "CANCEL" ->
    caught id tries e [Ev (SetProviderCanceling id "CANCEL") f] (settled f)
| caught_backoff (d : Duration) (f : option thrown) :
    isCancel e = false ->
    currentBackoff this tries = inr d ->
    caught id tries e [Ev (SetProviderBackoff id tries e (as_milliseconds d)) f] (settled f)
| caught_no_delay (x : thrown) :
    isCancel e = false ->
    currentBackoff this tries = inl x ->
    caught id tries e [] (Threw x).

(** The calls of the [switch] statement for the action [a]. *)
Inductive dispatched (a : CurrentAction) : list Event -> outcome unit -> Prop :=
| dispatched_nothing :
    nextAction a <> "ingest" ->
    dispatched a [] (Returned tt)
| dispatched_purge_refused (e : thrown) :
    nextAction a = "rest" ->
    dispatched a [Ev (ClearFinishedIngestions (providerName (options this))) (Some e)]
      (Threw e)
| dispatched_complete (f : option thrown) :
    nextAction a = "rest" ->
    dispatched a [Ev (ClearFinishedIngestions (providerName (options this))) None;
                  Ev (SetProviderComplete (ingestionId a)) f] (settled f)
| dispatched_resume (f : option thrown) :
    nextAction a = "backoff" ->
    dispatched a [Ev (SetProviderIngesting (ingestionId a)) f] (settled f)
| dispatched_canceled (f : option thrown) :
    nextAction a = "cancel" ->
    dispatched a [Ev (SetProviderCanceled (ingestionId a)) f] (settled f)
| dispatched_tried (evs : list Event) (r : outcome unit) :
    nextAction a = "ingest" ->
    tried (ingestionId a) evs r ->
    (forall e, r <> Threw e) ->
    dispatched a evs r
| dispatched_caught (evs hevs : list Event) (e : thrown) (r : outcome unit) :
    nextAction a = "ingest" ->
    tried (ingestionId a) evs (Threw e) ->
    caught (ingestionId a) (act_attempts a) e hevs r ->
    dispatched a (evs ++ hevs) r.

(** The calls of [handleNextAction]. *)
Inductive ticked : list Event -> outcome unit -> Prop :=
| ticked_not_ready (e : thrown) :
    ticked [Ev AwaitReady (Some e)] (Threw e)
| ticked_not_read (e : thrown) :
    ticked [Ev AwaitReady None;
            Ev (GetCurrentIngestionRecord (providerName (options this))) (Some e)] (Threw e)
| ticked_not_created (e : thrown) :
    ticked [Ev AwaitReady None;
            Ev (GetCurrentIngestionRecord (providerName (options this))) None;
            Ev (CreateProviderIngestionRecord (providerName (options this))) (Some e)]
      (Threw e)
| ticked_duplicate :
    ticked [Ev AwaitReady None;
            Ev (GetCurrentIngestionRecord (providerName (options this))) None;
            Ev (CreateProviderIngestionRecord (providerName (options this))) None]
      (Returned tt)
| ticked_found (a : CurrentAction) (evs : list Event) (r : outcome unit) :
    dispatched a evs r ->
    ticked (Ev AwaitReady None
            :: Ev (GetCurrentIngestionRecord (providerName (options this))) None :: evs) r
| ticked_created (a : CurrentAction) (evs : list Event) (r : outcome unit) :
    dispatched a evs r ->
    ticked (Ev AwaitReady None
            :: Ev (GetCurrentIngestionRecord (providerName (options this))) None
            :: Ev (CreateProviderIngestionRecord (providerName (options this))) None
            :: evs) r.

Lemma ingestTry_tried fuel id w0 r w1 :
  ingestTry env key this fuel id w0 = (r, w1) ->
  exists evs, calls w1 = calls w0 ++ evs /\ tried id evs r.
Proof.
  unfold ingestTry, setProviderBursting.
  unfold bind at 1. settle_extern.
  { intros [= <- <-]. eexists. split; [reflexivity|]. constructor. }
  unfold bind at 1.
  match goal with
  | |- context [ingestOneBurst env key this fuel id ?w] =>
      set (wb := w);
      destruct (ingestOneBurst env key this fuel id wb) as [rb w2] eqn:Hburst
  end.
  destruct (ingestOneBurst_progress _ _ _ _ _ _ _ _ Hburst)
    as (ps & answers & evs & k & j & _ & _ & Hcalls & _ & _ & _ & Hev & _).
  subst wb. cbn in Hcalls.
  destruct rb as [d| |].
  - destruct d.
    + unfold bind, logger, setProviderResting. settle_extern.
      * intros [= <- <-]. cbn. rewrite Hcalls, <- !app_assoc.
        eexists. split; [reflexivity|].
        apply (tried_moved id evs true (Some e)), Hev.
      * intros [= <- <-]. cbn. rewrite Hcalls, <- !app_assoc.
        eexists. split; [reflexivity|].
        apply (tried_moved id evs true None), Hev.
    + unfold bind, logger, setProviderInterstitial. settle_extern.
      * intros [= <- <-]. cbn. rewrite Hcalls, <- !app_assoc.
        eexists. split; [reflexivity|].
        apply (tried_moved id evs false (Some e)), Hev.
      * intros [= <- <-]. cbn. rewrite Hcalls, <- !app_assoc.
        eexists. split; [reflexivity|].
        apply (tried_moved id evs false None), Hev.
  - intros [= <- <-]. rewrite Hcalls, <- !app_assoc.
    eexists. split; [reflexivity|]. apply tried_stopped; [exact Hev|discriminate].
  - intros [= <- <-]. rewrite Hcalls, <- !app_assoc.
    eexists. split; [reflexivity|]. apply tried_stopped; [exact Hev|discriminate].
Qed.

Lemma ingestCatch_caught id tries e w r w' :
  ingestCatch env this id tries e w = (r, w') ->
  exists evs, calls w' = calls w ++ evs /\ caught id tries e evs r.
Proof.
  destruct (isCancel e) eqn:Hc.
  - apply isCancel_message in Hc. rewrite (ingestCatch_cancel _ _ _ _ _ _ Hc).
    unfold setProviderCanceling, extern.
    match goal with
    | |- context [env_fails env ?c ?wl] => destruct (env_fails env c wl) as [x|] eqn:F
    end; intros [= <- <-]; cbn; eexists; (split; [reflexivity|]).
    + apply (caught_cancel id tries e (Some x)), Hc.
    + apply (caught_cancel id tries e None), Hc.
  - rewrite (ingestCatch_other _ _ _ _ _ _ Hc).
    destruct (currentBackoff this tries) as [x|d] eqn:Hd.
    + unfold ingestBackoff. rewrite Hd. intros [= <- <-].
      exists []. rewrite app_nil_r. split; [reflexivity|].
      apply caught_no_delay; assumption.
    + rewrite (ingestBackoff_entry _ _ _ _ _ _ _ Hd).
      unfold setProviderBackoff, extern.
      match goal with
      | |- context [env_fails env ?c ?wl] => destruct (env_fails env c wl) as [x|] eqn:F
      end; intros [= <- <-]; cbn; eexists; (split; [reflexivity|]).
      * apply (caught_backoff id tries e d (Some x)); assumption.
      * apply (caught_backoff id tries e d None); assumption.
Qed.

Lemma dispatch_dispatched fuel a w r w' :
  dispatch env key this fuel a w = (r, w') ->
  exists evs, calls w' = calls w ++ evs /\ dispatched a evs r.
Proof.
  unfold dispatch.
  destruct (String.eqb_spec (nextAction a) "rest") as [Hrest|Hnrest].
  { assert (Hni : nextAction a <> "ingest") by (rewrite Hrest; discriminate).
    unfold bind at 1, Date_now.
    destruct (now w >? nextActionAt a).
    - unfold clearFinishedIngestions. unfold bind at 1. settle_extern.
      { intros [= <- <-]. eexists. split; [reflexivity|].
        apply dispatched_purge_refused, Hrest. }
      unfold bind, logger, setProviderComplete, extern. cbn.
      match goal with
      | |- context [env_fails env ?c ?wl] => destruct (env_fails env c wl) as [x|] eqn:F'
      end; intros [= <- <-]; cbn; rewrite <- app_assoc; eexists;
        (split; [reflexivity|]).
      + apply (dispatched_complete a (Some x)), Hrest.
      + apply (dispatched_complete a None), Hrest.
    - unfold logger. intros [= <- <-]. exists []. cbn. rewrite app_nil_r.
      split; [reflexivity|]. apply dispatched_nothing, Hni. }
  destruct (String.eqb_spec (nextAction a) "ingest") as [Hingest|Hningest].
  { unfold try_catch.
    destruct (ingestTry env key this fuel (ingestionId a) w) as [rt w1] eqn:Htry.
    destruct (ingestTry_tried _ _ _ _ _ Htry) as (evs & Hcalls & Htried).
    destruct rt as [[]|e|].
    - intros [= <- <-]. exists evs. split; [exact Hcalls|].
      apply dispatched_tried; [exact Hingest|exact Htried|discriminate].
    - intros Hcatch.
      destruct (ingestCatch_caught _ _ _ _ _ _ Hcatch) as (hevs & Hcalls' & Hcaught).
      exists (evs ++ hevs). rewrite Hcalls', Hcalls, <- app_assoc.
      split; [reflexivity|].
      eapply dispatched_caught; eassumption.
    - intros [= <- <-]. exists evs. split; [exact Hcalls|].
      apply dispatched_tried; [exact Hingest|exact Htried|discriminate]. }
  destruct (String.eqb_spec (nextAction a) "backoff") as [Hback|Hnback].
  { unfold bind at 1, Date_now.
    destruct (now w >? nextActionAt a).
    - unfold bind, logger, setProviderIngesting, extern. cbn.
      match goal with
      | |- context [env_fails env ?c ?wl] => destruct (env_fails env c wl) as [x|] eqn:F'
      end; intros [= <- <-]; cbn; eexists; (split; [reflexivity|]).
      + apply (dispatched_resume a (Some x)), Hback.
      + apply (dispatched_resume a None), Hback.
    - unfold logger. intros [= <- <-]. exists []. cbn. rewrite app_nil_r.
      split; [reflexivity|]. apply dispatched_nothing, Hningest. }
  destruct (String.eqb_spec (nextAction a) "cancel") as [Hcancel|Hncancel].
  { unfold bind, logger, setProviderCanceled, extern. cbn.
    match goal with
    | |- context [env_fails env ?c ?wl] => destruct (env_fails env c wl) as [x|] eqn:F'
    end; intros [= <- <-]; cbn; eexists; (split; [reflexivity|]).
    + apply (dispatched_canceled a (Some x)), Hcancel.
    + apply (dispatched_canceled a None), Hcancel. }
  unfold logger. intros [= <- <-]. exists []. cbn. rewrite app_nil_r.
  split; [reflexivity|]. apply dispatched_nothing, Hningest.
Qed.

Lemma handleNextAction_ticked fuel w r w' :
  handleNextAction env key this fuel w = (r, w') ->
  exists evs, calls w' = calls w ++ evs /\ ticked evs r.
Proof.
  unfold handleNextAction, ready, getCurrentAction, getCurrentIngestionRecord,
    createProviderIngestionRecord.
  unfold bind at 1. settle_extern.
  { intros [= <- <-]. eexists. split; [reflexivity|]. constructor. }
  unfold bind at 1. unfold bind at 1. settle_extern.
  { intros [= <- <-]. cbn. rewrite <- app_assoc.
    eexists. split; [reflexivity|]. constructor. }
  destruct (Manager.current_record (providerName (options this)) _) as [r0|].
  - unfold bind at 1, logger at 1, ret. cbn beta iota.
    intros Hd. destruct (dispatch_dispatched _ _ _ _ _ Hd) as (evs & Hcalls & Hdisp).
    cbn in Hcalls. rewrite <- !app_assoc in Hcalls.
    eexists. split; [exact Hcalls|]. eapply ticked_found, Hdisp.
  - unfold bind at 1. unfold bind at 1. settle_extern.
    { intros [= <- <-]. cbn. rewrite <- !app_assoc.
      eexists. split; [reflexivity|]. constructor. }
    match goal with
    | |- context [Manager.create_record ?i ?p ?wl] =>
        destruct (Manager.create_record i p wl) as [[a|] wc] eqn:Hcreate
    end; cbn [fst snd].
    + unfold logger at 1, ret. cbn beta iota.
      intros Hd. destruct (dispatch_dispatched _ _ _ _ _ Hd) as (evs & Hcalls & Hdisp).
      assert (Hwc : calls wc = calls w ++ [Ev AwaitReady None;
                Ev (GetCurrentIngestionRecord (providerName (options this))) None;
                Ev (CreateProviderIngestionRecord (providerName (options this))) None]).
      { unfold Manager.create_record in Hcreate.
        destruct (Manager.current_record _ _); [discriminate Hcreate|].
        injection Hcreate as _ <-. cbn. rewrite <- !app_assoc. reflexivity. }
      cbn in Hcalls. rewrite Hwc, <- !app_assoc in Hcalls.
      eexists. split; [exact Hcalls|]. eapply ticked_created, Hdisp.
    + unfold ret, logger. cbn. intros [= <- <-].
      assert (Hwc : calls wc = calls w ++ [Ev AwaitReady None;
                Ev (GetCurrentIngestionRecord (providerName (options this))) None;
                Ev (CreateProviderIngestionRecord (providerName (options this))) None]).
      { unfold Manager.create_record in Hcreate.
        destruct (Manager.current_record _ _); [|discriminate Hcreate].
        injection Hcreate as <-. cbn. rewrite <- !app_assoc. reflexivity. }
      cbn. eexists. split; [exact Hwc|]. constructor.
Qed.

End Protocol.

(** [taskFn] makes the calls of [handleNextAction] and settles as it
    does. *)
Lemma taskFn_ticked env key this fuel w r w' :
  taskFn env key this fuel w = (r, w') ->
  exists evs, calls w' = calls w ++ evs /\ ticked key this evs r.
Proof.
  unfold taskFn, try_finally, try_catch, bind, logger, throw. cbn.
  destruct (handleNextAction env key this fuel _) as [r0 w1] eqn:Hrun.
  destruct (handleNextAction_ticked _ _ _ _ _ _ _ Hrun) as (evs & Hcalls & Ht).
  cbn in Hcalls.
  destruct r0 as [[]|e|]; cbn; intros [= <- <-]; exists evs; cbn; auto.
Qed.

Lemma burst_event_call key this ev :
  burst_event key this ev ->
  burst_call (ev_call ev) = true
  /\ escaping (ev_call ev) = false
  /\ transition_write (ev_call ev) = false.
Proof.
  unfold burst_event. destruct (ev_call ev); cbn; intros H;
    first [contradiction | auto].
Qed.

Lemma transition_call_kinds this id done :
  escaping (transition this id done) = false
  /\ burst_call (transition this id done) = false
  /\ transition_write (transition this id done) = true.
Proof. destruct done; cbn; auto. Qed.

(** *** What a tick throws *)

Lemma last_guarded (evs : list Event) (x : Event) :
  Forall (fun ev => escaping (ev_call ev) = false) evs ->
  escaping (ev_call x) = false ->
  forall c f, last (x :: evs) = Some (Ev c f) -> escaping c = false.
Proof.
  intros Hall Hx c f Hlast. rewrite last_cons in Hlast.
  destruct (last evs) as [y|] eqn:L.
  - injection Hlast as ->. apply last_Some in L as [l' ->].
    apply Forall_app in Hall as [_ Hy]. apply Forall_cons_iff in Hy as [Hy _]. exact Hy.
  - injection Hlast as ->. exact Hx.
Qed.

Lemma tried_last key this id evs r :
  tried key this id evs r ->
  forall c f, last evs = Some (Ev c f) -> escaping c = false.
Proof.
  intros [e|bevs r' Hall _|bevs done f Hall] c f' Hlast.
  - injection Hlast as <- _. reflexivity.
  - refine (last_guarded bevs (Ev (SetProviderBursting id) None) _ eq_refl c f' Hlast).
    eapply Forall_impl; [exact Hall|]. intros ev H. apply (burst_event_call _ _ _ H).
  - rewrite last_cons, last_snoc in Hlast. injection Hlast as <- _.
    apply transition_call_kinds.
Qed.

Lemma settled_threw f e : settled f = Threw e -> f = Some e.
Proof. destruct f; cbn; [intros [= ->]; reflexivity|discriminate]. Qed.

Lemma dispatched_thrown key this a evs r :
  dispatched key this a evs r ->
  (forall e, r = Threw e ->
     (exists c, last evs = Some (Ev c (Some e)) /\ escaping c = true)
     \/ (exists tries, currentBackoff this tries = inl e))
  /\ (forall c e, last evs = Some (Ev c (Some e)) -> escaping c = true -> r = Threw e).
Proof.
  intros [Hni|e Hrest|f Hrest|f Hback|f Hcancel|tevs r' Hingest Htried Hnot
          |tevs hevs e r' Hingest Htried Hcaught].
  - split; [discriminate|]. intros c e Hlast. discriminate Hlast.
  - split.
    + intros e' [= <-]. left. eexists. split; reflexivity.
    + intros c e' [= <- <-] _. reflexivity.
  - split.
    + intros e Hf. apply settled_threw in Hf as ->. left. eexists. split; reflexivity.
    + intros c e [= <- ->] _. reflexivity.
  - split.
    + intros e Hf. apply settled_threw in Hf as ->. left. eexists. split; reflexivity.
    + intros c e [= <- ->] _. reflexivity.
  - split.
    + intros e Hf. apply settled_threw in Hf as ->. left. eexists. split; reflexivity.
    + intros c e [= <- ->] _. reflexivity.
  - split.
    + intros e He. destruct (Hnot e He).
    + intros c e Hlast Hesc. rewrite (tried_last _ _ _ _ _ Htried _ _ Hlast) in Hesc.
      discriminate Hesc.
  - destruct Hcaught as [f Hm|d f Hc Hd|x Hc Hd].
    + rewrite last_snoc. split.
      * intros e' Hf. apply settled_threw in Hf as ->. left. eexists.
        split; reflexivity.
      * intros c e' [= <- ->] _. reflexivity.
    + rewrite last_snoc. split.
      * intros e' Hf. apply settled_threw in Hf as ->. left. eexists.
        split; reflexivity.
      * intros c e' [= <- ->] _. reflexivity.
    + rewrite app_nil_r. split.
      * intros e' [= <-]. right. eauto.
      * intros c e' Hlast Hesc.
        rewrite (tried_last _ _ _ _ _ Htried _ _ Hlast) in Hesc. discriminate Hesc.
Qed.

Lemma ticked_thrown key this evs r :
  ticked key this evs r ->
  (forall e, r = Threw e ->
     (exists c, last evs = Some (Ev c (Some e)) /\ escaping c = true)
     \/ (exists tries, currentBackoff this tries = inl e))
  /\ (forall c e, last evs = Some (Ev c (Some e)) -> escaping c = true -> r = Threw e).
Proof.
  intros [e|e|e| |a devs r' Hd|a devs r' Hd].
  - split; [intros e' [= <-]; left; eexists; split; reflexivity|].
    intros c e' [= <- <-] _. reflexivity.
  - split; [intros e' [= <-]; left; eexists; split; reflexivity|].
    intros c e' [= <- <-] _. reflexivity.
  - split; [intros e' [= <-]; left; eexists; split; reflexivity|].
    intros c e' [= <- <-] _. reflexivity.
  - split; [discriminate|]. intros c e Hlast. discriminate Hlast.
  - destruct (dispatched_thrown _ _ _ _ _ Hd) as [Hthrew Hlast].
    rewrite !last_cons. destruct (last devs) as [y|] eqn:L.
    + split; assumption.
    + apply last_None in L. subst devs. split.
      * intros e He. destruct (Hthrew e He) as [(c & Hc & _)|Hb];
          [discriminate Hc|right; exact Hb].
      * intros c e Hl. discriminate Hl.
  - destruct (dispatched_thrown _ _ _ _ _ Hd) as [Hthrew Hlast].
    rewrite !last_cons. destruct (last devs) as [y|] eqn:L.
    + split; assumption.
    + apply last_None in L. subst devs. split.
      * intros e He. destruct (Hthrew e He) as [(c & Hc & _)|Hb];
          [discriminate Hc|right; exact Hb].
      * intros c e Hl. discriminate Hl.
Qed.

(** X2: whatever a tick throws was rejected by the last call it made, a
    call outside the [try] block of [case 'ingest'] (waiting for readiness,
    reading or creating the record, purging, or one of the writes
    [setProviderComplete], [setProviderIngesting], [setProviderCanceled],
    [setProviderCanceling], [setProviderBackoff]), or it is the error of
    the duration look-up in the [catch] block; and whenever the last call
    of a tick is such a call and was rejected, the tick throws that
    error.  An error of the provider, of the target store or of a write
    inside the [try] block never leaves the tick as it is. *)
Theorem tick_throws_what_escapes env key this fuel w r w' evs :
  taskFn env key this fuel w = (r, w') ->
  calls w' = calls w ++ evs ->
  (forall e, r = Threw e ->
     (exists c, last evs = Some (Ev c (Some e)) /\ escaping c = true)
     \/ (exists tries, currentBackoff this tries = inl e))
  /\ (forall c e, last evs = Some (Ev c (Some e)) -> escaping c = true -> r = Threw e).
Proof.
  intros Hrun Hcalls.
  destruct (taskFn_ticked _ _ _ _ _ _ _ Hrun) as (evs' & Hcalls' & Ht).
  rewrite Hcalls' in Hcalls. apply app_inv_head in Hcalls. subst evs'.
  apply (ticked_thrown _ _ _ _ Ht).
Qed.

(** The store is down when the record is read. *)
Definition store_down : thrown := JsError "Error" "connection terminated".

Definition unreadable_env : Env :=
  {| env_fails := fun c _ =>
       match c with
       | GetCurrentIngestionRecord _ => Some store_down
       | _ => None
       end;
     env_next := fun cursor _ => two_pages cursor;
     env_aborted := fun _ => false;
     env_removed := fun _ _ _ => [];
     env_uuid := fun _ => "6f1c" |}.

Lemma tick_throws_what_escapes_witness :
  fst (taskFn unreadable_env sample_key sample_engine 3 ingesting_world) = Threw store_down.
Proof.
  set (run := taskFn unreadable_env sample_key sample_engine 3 ingesting_world).
  assert (Hrun : run = (fst run, snd run)) by (vm_compute; reflexivity).
  assert (Hcalls : calls (snd run)
                   = calls ingesting_world
                     ++ [Ev AwaitReady None;
                         Ev (GetCurrentIngestionRecord "github") (Some store_down)])
    by (vm_compute; reflexivity).
  destruct (tick_throws_what_escapes _ _ _ _ _ _ _ _ Hrun Hcalls) as [_ Hlast].
  apply (Hlast (GetCurrentIngestionRecord "github") store_down); reflexivity.
Defined.

(** *** One transition a tick *)

(** The resolved transition writes of a history. *)
Definition transitions (evs : list Event) : list Event :=
  List.filter (fun ev => transition_write (ev_call ev) && resolved ev) evs.

Lemma transitions_app evs1 evs2 :
  transitions (evs1 ++ evs2) = transitions evs1 ++ transitions evs2.
Proof. apply List.filter_app. Qed.

Lemma transitions_burst key this evs :
  Forall (burst_event key this) evs -> transitions evs = [].
Proof.
  induction 1 as [|ev evs Hev _ IH]; [reflexivity|].
  unfold transitions in *. cbn.
  destruct (burst_event_call _ _ _ Hev) as (_ & _ & ->). exact IH.
Qed.

Lemma transitions_one c f : (length (transitions [Ev c f]) <= 1)%nat.
Proof. unfold transitions. cbn. destruct (_ && _); cbn; lia. Qed.

Lemma tried_transitions key this id evs r :
  tried key this id evs r ->
  (length (transitions evs) <= 1)%nat
  /\ (forall e, r = Threw e -> transitions evs = []).
Proof.
  intros [e|bevs r' Hall _|bevs done f Hall].
  - split; [cbn; lia|reflexivity].
  - change (Ev (SetProviderBursting id) None :: bevs)
      with ([Ev (SetProviderBursting id) None] ++ bevs).
    rewrite transitions_app, (transitions_burst _ _ _ Hall). cbn. split; [lia|reflexivity].
  - change (Ev (SetProviderBursting id) None :: bevs ++ [Ev (transition this id done) f])
      with ([Ev (SetProviderBursting id) None] ++ bevs ++ [Ev (transition this id done) f]).
    rewrite !transitions_app, (transitions_burst _ _ _ Hall). cbn [app].
    split; [apply transitions_one|].
    intros e Hf. apply settled_threw in Hf as ->.
    unfold transitions. cbn. rewrite andb_false_r. reflexivity.
Qed.

Lemma dispatched_transitions key this a evs r :
  dispatched key this a evs r -> (length (transitions evs) <= 1)%nat.
Proof.
  intros [Hni|e Hrest|f Hrest|f Hback|f Hcancel|tevs r' Hingest Htried Hnot
          |tevs hevs e r' Hingest Htried Hcaught];
    try (cbn; lia); try apply transitions_one.
  - apply (tried_transitions _ _ _ _ _ Htried).
  - rewrite transitions_app.
    destruct (tried_transitions _ _ _ _ _ Htried) as [_ Hnone].
    rewrite (Hnone e eq_refl).
    destruct Hcaught; try apply transitions_one. cbn. lia.
Qed.

(** X3: a tick makes at most one transition: of the lifecycle writes
    that move the record to another state or close it
    ([setProviderResting], [setProviderInterstitial],
    [setProviderCanceling], [setProviderBackoff], [setProviderComplete],
    [setProviderIngesting], [setProviderCanceled]) at most one resolves in
    a tick, however the tick settles. *)
Theorem one_transition_a_tick env key this fuel w :
  exists evs,
    calls (snd (taskFn env key this fuel w)) = calls w ++ evs
    /\ (length (transitions evs) <= 1)%nat.
Proof.
  destruct (taskFn env key this fuel w) as [r w'] eqn:Hrun.
  destruct (taskFn_ticked _ _ _ _ _ _ _ Hrun) as (evs & Hcalls & Ht).
  exists evs. split; [exact Hcalls|].
  destruct Ht as [e|e|e| |a devs r' Hd|a devs r' Hd]; try (cbn; lia).
  - change (Ev AwaitReady None
            :: Ev (GetCurrentIngestionRecord (providerName (options this))) None :: devs)
      with ([Ev AwaitReady None;
             Ev (GetCurrentIngestionRecord (providerName (options this))) None] ++ devs).
    rewrite transitions_app. apply (dispatched_transitions _ _ _ _ _ Hd).
  - change (Ev AwaitReady None
            :: Ev (GetCurrentIngestionRecord (providerName (options this))) None
            :: Ev (CreateProviderIngestionRecord (providerName (options this))) None
            :: devs)
      with ([Ev AwaitReady None;
             Ev (GetCurrentIngestionRecord (providerName (options this))) None;
             Ev (CreateProviderIngestionRecord (providerName (options this))) None]
              ++ devs).
    rewrite transitions_app. apply (dispatched_transitions _ _ _ _ _ Hd).
Qed.

(** *** No burst before the record is marked *)

Definition quiet (evs : list Event) : Prop :=
  Forall (fun ev => burst_call (ev_call ev) = false) evs.

Lemma split_after_quiet (l1 l2 pre post : list Event) (ev : Event) :
  quiet l1 ->
  l1 ++ l2 = pre ++ ev :: post ->
  burst_call (ev_call ev) = true ->
  exists pre2, pre = l1 ++ pre2 /\ l2 = pre2 ++ ev :: post.
Proof.
  revert pre. induction l1 as [|x l1 IH]; intros pre Hq Heq Hb.
  - exists pre. auto.
  - apply Forall_cons_iff in Hq as [Hx Hq].
    destruct pre as [|y pre]; cbn in Heq; injection Heq as <- Heq.
    + rewrite Hb in Hx. discriminate Hx.
    + destruct (IH pre Hq Heq Hb) as (pre2 & -> & ->). exists pre2. auto.
Qed.

Lemma quiet_no_burst (l pre post : list Event) (ev : Event) :
  quiet l -> l = pre ++ ev :: post -> burst_call (ev_call ev) = true -> False.
Proof.
  intros Hq -> Hb. apply Forall_app in Hq as [_ Hq].
  apply Forall_cons_iff in Hq as [Hx _]. rewrite Hb in Hx. discriminate Hx.
Qed.

Lemma caught_quiet this id tries e hevs r : caught this id tries e hevs r -> quiet hevs.
Proof. intros []; repeat constructor. Qed.

Lemma dispatched_opening key this a evs r :
  dispatched key this a evs r ->
  quiet evs \/ exists rest, evs = Ev (SetProviderBursting (ingestionId a)) None :: rest.
Proof.
  intros [Hni|e Hrest|f Hrest|f Hback|f Hcancel|tevs r' Hingest Htried Hnot
          |tevs hevs e r' Hingest Htried Hcaught];
    try solve [left; repeat constructor].
  - destruct Htried; [left; repeat constructor|right; eauto|right; eauto].
  - destruct Htried as [e0| |].
    + left. apply Forall_app. split; [repeat constructor|].
      apply (caught_quiet _ _ _ _ _ _ Hcaught).
    + right. eexists. reflexivity.
    + right. eexists. reflexivity.
Qed.

Lemma dispatched_idle key this a evs r :
  dispatched key this a evs r ->
  nextAction a <> "ingest" ->
  Forall (fun ev => burst_call (ev_call ev) = false
                    /\ forall id, ev_call ev <> SetProviderBursting id) evs.
Proof.
  intros [Hni|e Hrest|f Hrest|f Hback|f Hcancel|tevs r' Hingest Htried Hnot
          |tevs hevs e r' Hingest Htried Hcaught] Hidle;
    try contradiction;
    repeat (constructor; [split; [reflexivity|discriminate]|]); constructor.
Qed.

(** X6: in every tick the calls of a burst (reading the last mark, the
    provider's [around] and [next], the writes of marks and their
    entities, the reconciliation query, [applyMutation]) come only after
    the wait for readiness has resolved and after [setProviderBursting]
    has resolved in that tick: the engine fetches no page and changes
    neither the marks nor the target store before the record is marked as
    bursting; and a tick that finds a record whose action is not [ingest]
    makes none of these calls, nor a call of [setProviderBursting]. *)
Theorem burst_calls_follow_bursting env key this fuel w :
  exists evs,
    calls (snd (taskFn env key this fuel w)) = calls w ++ evs
    /\ (forall pre ev post,
          evs = pre ++ ev :: post ->
          burst_call (ev_call ev) = true ->
          In (Ev AwaitReady None) pre
          /\ exists id, In (Ev (SetProviderBursting id) None) pre)
    /\ (forall r,
          Manager.current_record (providerName (options this)) w = Some r ->
          next_action r <> "ingest" ->
          Forall (fun ev => burst_call (ev_call ev) = false
                            /\ forall id, ev_call ev <> SetProviderBursting id) evs).
Proof.
  destruct (taskFn env key this fuel w) as [r w'] eqn:Hrun.
  destruct (taskFn_ticked _ _ _ _ _ _ _ Hrun) as (evs & Hcalls & Ht).
  exists evs. split; [exact Hcalls|]. split.
  2:{ intros r0 Hcur Hidle. cbn [snd] in Hcalls.
      assert (Hsame : calls w' = calls (snd (handleNextAction env key this fuel
                                    (set_logs (fun l => l ++ [(Debug, BeginTick)]) w)))).
      { pose proof (taskFn_stores env key this fuel w) as Hs. cbv zeta in Hs.
        rewrite Hrun in Hs. cbn [snd] in Hs. apply Hs. }
      rewrite Hsame in Hcalls. clear Hsame Hrun Ht. revert Hcalls.
      unfold handleNextAction, ready, getCurrentAction, getCurrentIngestionRecord.
      unfold bind at 1. settle_extern.
      { cbn. intros H. apply app_inv_head in H. subst evs.
        repeat (constructor; [split; [reflexivity|discriminate]|]). constructor. }
      unfold bind at 1. unfold bind at 1. settle_extern.
      { cbn. rewrite <- app_assoc. intros H. apply app_inv_head in H. subst evs.
        repeat (constructor; [split; [reflexivity|discriminate]|]). constructor. }
      match goal with
      | |- context [Manager.current_record ?p ?wl] =>
          replace (Manager.current_record p wl) with (Some r0)
            by (rewrite <- Hcur; reflexivity)
      end.
      unfold bind at 1, logger at 1, ret. cbn beta iota.
      match goal with
      | |- context [dispatch env key this fuel ?a ?wd] =>
          destruct (dispatch env key this fuel a wd) as [rd wd'] eqn:Hd;
          destruct (dispatch_dispatched _ _ _ _ _ _ _ _ Hd) as (devs & Hdc & Hdisp)
      end.
      cbn [snd]. rewrite Hdc. cbn. rewrite <- !app_assoc.
      intros H. apply app_inv_head in H. subst evs.
      constructor; [split; [reflexivity|discriminate]|].
      constructor; [split; [reflexivity|discriminate]|].
      apply (dispatched_idle _ _ _ _ _ Hdisp). exact Hidle. }
  intros pre ev post Heq Hb.
  assert (Hgo : forall head a devs,
            quiet head -> In (Ev AwaitReady None) head ->
            dispatched key this a devs r -> evs = head ++ devs ->
            In (Ev AwaitReady None) pre
            /\ exists id, In (Ev (SetProviderBursting id) None) pre).
  { intros head a devs Hq Hin Hd Hevs. rewrite Hevs in Heq.
    destruct (split_after_quiet _ _ _ _ _ Hq Heq Hb) as (pre2 & -> & Hdevs).
    split; [apply in_or_app; left; exact Hin|].
    destruct (dispatched_opening _ _ _ _ _ Hd) as [Hqd|(rest & Hrest)].
    - destruct (quiet_no_burst _ _ _ _ Hqd Hdevs Hb).
    - rewrite Hrest in Hdevs.
      change (Ev (SetProviderBursting (ingestionId a)) None :: rest)
        with ([Ev (SetProviderBursting (ingestionId a)) None] ++ rest) in Hdevs.
      assert (Hq1 : quiet [Ev (SetProviderBursting (ingestionId a)) None])
        by (repeat constructor).
      destruct (split_after_quiet _ _ _ _ _ Hq1 Hdevs Hb) as (pre3 & -> & _).
      exists (ingestionId a). apply in_or_app. right. left. reflexivity. }
  destruct Ht as [e|e|e| |a devs r' Hd|a devs r' Hd];
    try solve [exfalso; refine (quiet_no_burst _ _ _ _ _ Heq Hb); repeat constructor].
  - apply (Hgo [Ev AwaitReady None;
                Ev (GetCurrentIngestionRecord (providerName (options this))) None]
             a devs); [repeat constructor|left; reflexivity|exact Hd|reflexivity].
  - apply (Hgo [Ev AwaitReady None;
                Ev (GetCurrentIngestionRecord (providerName (options this))) None;
                Ev (CreateProviderIngestionRecord (providerName (options this))) None]
             a devs); [repeat constructor|left; reflexivity|exact Hd|reflexivity].
Qed.

(** *** A write rejected inside the [try] block *)

Lemma burst_event_not_write key this bevs c f id rest :
  Forall (burst_event key this) bevs ->
  In (Ev c f) bevs ->
  c = SetProviderBursting id \/ c = SetProviderResting id rest
  \/ c = SetProviderInterstitial id ->
  False.
Proof.
  intros Hall Hin Hc. rewrite List.Forall_forall in Hall.
  specialize (Hall _ Hin). unfold burst_event in Hall. cbn in Hall.
  destruct Hc as [->|[->| ->]]; exact Hall.
Qed.

(** X7: the three lifecycle writes inside the [try] block of
    [case 'ingest'] ([setProviderBursting] before the burst,
    [setProviderResting] or [setProviderInterstitial] after it) are
    handled like the burst itself when they are rejected: the [catch]
    block takes the error, and the next call is [setProviderCanceling]
    when its message is [CANCEL] and [setProviderBackoff] with the error,
    the attempts and the delay of the table otherwise.  When it is
    [setProviderBursting] that was rejected, no call of the burst was made
    before. *)
Theorem rejected_write_in_try_is_handled env key this fuel a w r w' evs c e :
  nextAction a = "ingest" ->
  dispatch env key this fuel a w = (r, w') ->
  calls w' = calls w ++ evs ->
  In (Ev c (Some e)) evs ->
  c = SetProviderBursting (ingestionId a)
  \/ c = SetProviderResting (ingestionId a) (restLength this)
  \/ c = SetProviderInterstitial (ingestionId a) ->
  exists pre hevs,
    evs = pre ++ Ev c (Some e) :: hevs
    /\ (c = SetProviderBursting (ingestionId a) -> pre = [])
    /\ ((message e = Some "CANCEL"
         /\ exists f,
              hevs = [Ev (SetProviderCanceling (ingestionId a) "CANCEL") f]
              /\ r = settled f)
        \/ (isCancel e = false
            /\ exists d f,
                 currentBackoff this (act_attempts a) = inr d
                 /\ hevs = [Ev (SetProviderBackoff (ingestionId a) (act_attempts a) e
                                  (as_milliseconds d)) f]
                 /\ r = settled f)
        \/ (isCancel e = false
            /\ exists x,
                 currentBackoff this (act_attempts a) = inl x
                 /\ hevs = [] /\ r = Threw x)).
Proof.
  intros Hingest Hrun Hcalls Hin Hc.
  destruct (dispatch_dispatched _ _ _ _ _ _ _ _ Hrun) as (evs' & Hcalls' & Hd).
  rewrite Hcalls' in Hcalls. apply app_inv_head in Hcalls. subst evs'.
  assert (Hhandled : forall hevs,
            caught this (ingestionId a) (act_attempts a) e hevs r ->
            (message e = Some "CANCEL"
             /\ exists f,
                  hevs = [Ev (SetProviderCanceling (ingestionId a) "CANCEL") f]
                  /\ r = settled f)
            \/ (isCancel e = false
                /\ exists d f,
                     currentBackoff this (act_attempts a) = inr d
                     /\ hevs = [Ev (SetProviderBackoff (ingestionId a) (act_attempts a) e
                                      (as_milliseconds d)) f]
                     /\ r = settled f)
            \/ (isCancel e = false
                /\ exists x,
                     currentBackoff this (act_attempts a) = inl x
                     /\ hevs = [] /\ r = Threw x)).
  { intros hevs [f Hm|d f Hcn Hd'|x Hcn Hd'].
    - left. split; [exact Hm|]. exists f. split; reflexivity.
    - right. left. split; [exact Hcn|]. exists d, f.
      split; [exact Hd'|]. split; reflexivity.
    - right. right. split; [exact Hcn|]. exists x.
      split; [exact Hd'|]. split; reflexivity. }
  assert (Hnot_caught : forall e0 hevs r0,
            caught this (ingestionId a) (act_attempts a) e0 hevs r0 ->
            In (Ev c (Some e)) hevs -> False).
  { intros e0 hevs r0 Hcaught Hin'.
    destruct Hcaught; cbn in Hin'; [| |contradiction];
      destruct Hin' as [Heq|[]];
      injection Heq as <- _; destruct Hc as [Hc|[Hc|Hc]]; discriminate Hc. }
  destruct Hd as [Hni|e0 Hrest|f Hrest|f Hback|f Hcancel|tevs r' _ Htried Hnot
                  |tevs hevs e0 r' _ Htried Hcaught];
    try (rewrite Hingest in *; discriminate); try contradiction.
  - exfalso. destruct Htried as [e1|bevs r' Hall _|bevs done f Hall].
    + exact (Hnot e1 eq_refl).
    + destruct Hin as [Heq|Hin]; [discriminate Heq|].
      exact (burst_event_not_write _ _ _ _ _ _ _ Hall Hin Hc).
    + destruct f as [x|]; [exact (Hnot x eq_refl)|].
      destruct Hin as [Heq|Hin]; [discriminate Heq|].
      apply in_app_or in Hin as [Hin|[Heq|[]]]; [|discriminate Heq].
      exact (burst_event_not_write _ _ _ _ _ _ _ Hall Hin Hc).
  - inversion Htried as [e1 He1 Hr|bevs r1 Hall Hne Hevs Hr|bevs done f Hall Hevs Hr];
      subst.
    + destruct Hin as [Heq|Hin].
      * injection Heq as <- <-. exists [], hevs.
        split; [reflexivity|]. split; [reflexivity|]. apply Hhandled, Hcaught.
      * destruct (Hnot_caught _ _ _ Hcaught Hin).
    + exfalso. destruct Hin as [Heq|Hin]; [discriminate Heq|].
      apply in_app_or in Hin as [Hin|Hin].
      * exact (burst_event_not_write _ _ _ _ _ _ _ Hall Hin Hc).
      * exact (Hnot_caught _ _ _ Hcaught Hin).
    + apply settled_threw in Hr. subst f.
      destruct Hin as [Heq|Hin]; [discriminate Heq|].
      rewrite <- app_assoc in Hin.
      apply in_app_or in Hin as [Hin|[Heq|Hin]].
      * destruct (burst_event_not_write _ _ _ _ _ _ _ Hall Hin Hc).
      * injection Heq as <- <-.
        exists (Ev (SetProviderBursting (ingestionId a)) None :: bevs), hevs.
        split; [cbn; rewrite <- app_assoc; reflexivity|].
        split; [destruct done; discriminate|]. apply Hhandled, Hcaught.
      * destruct (Hnot_caught _ _ _ Hcaught Hin).
Qed.

(** The store rejects the write that marks the record as bursting. *)
Definition busy_store_env : Env :=
  {| env_fails := fun c _ =>
       match c with
       | SetProviderBursting _ => Some store_down
       | _ => None
       end;
     env_next := fun cursor _ => two_pages cursor;
     env_aborted := fun _ => false;
     env_removed := fun _ _ _ => [];
     env_uuid := fun _ => "6f1c" |}.

Definition sample_action : CurrentAction :=
  {| ingestionId := "run-1"; nextAction := "ingest"; act_attempts := 7;
     nextActionAt := 0 |}.

Lemma rejected_write_in_try_is_handled_witness :
  exists pre hevs,
    calls (snd (dispatch busy_store_env sample_key sample_engine 3 sample_action
                  ingesting_world))
    = calls ingesting_world
        ++ pre ++ Ev (SetProviderBursting "run-1") (Some store_down) :: hevs
    /\ pre = [].
Proof.
  set (run := dispatch busy_store_env sample_key sample_engine 3 sample_action
                ingesting_world).
  assert (Hrun : run = (fst run, snd run)) by (vm_compute; reflexivity).
  assert (Hcalls : calls (snd run)
                   = calls ingesting_world
                     ++ [Ev (SetProviderBursting "run-1") (Some store_down);
                         Ev (SetProviderBackoff "run-1" 7 store_down 10800000) None])
    by (vm_compute; reflexivity).
  destruct (rejected_write_in_try_is_handled busy_store_env sample_key sample_engine 3
              sample_action ingesting_world (fst run) (snd run) _
              (SetProviderBursting "run-1") store_down eq_refl Hrun Hcalls
              (or_introl eq_refl) (or_introl eq_refl))
    as (pre & hevs & Hevs & Hpre & _).
  exists pre, hevs. split; [|exact (Hpre eq_refl)].
  rewrite Hcalls, Hevs. reflexivity.
Defined.

(** *** A table without an entry for the attempts *)

(** X8: the duration look-up of the [catch] block fails exactly when the
    backoff table is empty or the attempts are negative; then a burst
    failure that is not a cancellation makes the tick's [switch] throw the
    error of the look-up in the world the [try] block left: no
    [setProviderBackoff] call is made, nothing is logged by the [catch]
    block and the error of the burst is lost, so the record stays as the
    [try] block left it. *)
Theorem no_backoff_entry_throws this :
  (forall tries,
     currentBackoff this tries = inl invalid_duration
     <-> (backoff this = [] \/ tries < 0))
  /\ (forall tries, (exists d, currentBackoff this tries = inr d)
                    <-> (backoff this <> [] /\ 0 <= tries))
  /\ forall env key fuel a w e w1,
       nextAction a = "ingest" ->
       ingestTry env key this fuel (ingestionId a) w = (Threw e, w1) ->
       isCancel e = false ->
       (backoff this = [] \/ act_attempts a < 0) ->
       dispatch env key this fuel a w = (Threw invalid_duration, w1).
Proof.
  assert (Hbad : forall tries, (backoff this = [] \/ tries < 0) ->
                   currentBackoff this tries = inl invalid_duration).
  { intros tries H. unfold currentBackoff, js_index.
    destruct (Z.ltb_spec (Z.min (Z.of_nat (length (backoff this)) - 1) tries) 0)
      as [_|Hge]; [reflexivity|].
    exfalso. destruct H as [H|H]; [rewrite H in Hge; cbn in Hge|]; lia. }
  assert (Hgood : forall tries, backoff this <> [] -> 0 <= tries ->
                    exists d, currentBackoff this tries = inr d).
  { intros tries Hne Hpos. unfold currentBackoff.
    rewrite js_index_clamped by assumption.
    destruct (nth_error (backoff this) _) as [d|] eqn:E; [exists d; reflexivity|].
    apply nth_error_None in E. exfalso.
    assert (0 < length (backoff this))%nat
      by (destruct (backoff this); [congruence|cbn; lia]).
    lia. }
  split; [|split].
  - intros tries. split; [|apply Hbad].
    intros H. destruct (backoff this) as [|d l] eqn:E; [left; reflexivity|].
    destruct (Z.ltb_spec tries 0) as [Hneg|Hpos]; [right; exact Hneg|].
    exfalso. destruct (Hgood tries) as [d' Hd']; [discriminate|exact Hpos|].
    rewrite Hd' in H. discriminate H.
  - intros tries. split.
    + intros [d Hd]. split.
      * intros E. rewrite (Hbad tries (or_introl E)) in Hd. discriminate Hd.
      * destruct (Z.ltb_spec tries 0) as [Hneg|Hpos]; [|exact Hpos].
        rewrite (Hbad tries (or_intror Hneg)) in Hd. discriminate Hd.
    + intros [Hne Hpos]. apply Hgood; assumption.
  - intros env key fuel a w e w1 Hingest Htry Hc Hno.
    rewrite (dispatch_ingest _ _ _ _ _ _ Hingest). unfold try_catch. rewrite Htry.
    rewrite (ingestCatch_other _ _ _ _ _ _ Hc). unfold ingestBackoff.
    rewrite (Hbad _ Hno). reflexivity.
Qed.

Lemma no_backoff_entry_throws_witness :
  fst (dispatch failing_fetch_env sample_key tableless_engine 3 sample_action
         ingesting_world)
  = Threw invalid_duration.
Proof.
  destruct (no_backoff_entry_throws tableless_engine) as (_ & _ & Hthrows).
  rewrite (Hthrows failing_fetch_env sample_key 3%nat sample_action ingesting_world
             source_down
             (snd (ingestTry failing_fetch_env sample_key tableless_engine 3 "run-1"
                     ingesting_world))).
  - reflexivity.
  - reflexivity.
  - vm_compute. reflexivity.
  - reflexivity.
  - left. reflexivity.
Defined.

(** *** An action the switch does not know *)

(** The actions the [switch] of [handleNextAction] has a case for. *)
Definition known_action (action : string) : bool :=
  String.eqb action "rest" || String.eqb action "ingest"
  || String.eqb action "backoff" || String.eqb action "cancel".

Lemma dispatch_default env key this fuel a w :
  known_action (nextAction a) = false ->
  dispatch env key this fuel a w
  = (Returned tt,
     set_logs (fun l => l ++ [(Error, UnknownAction (ingestionId a) (nextAction a))]) w).
Proof.
  unfold known_action, dispatch. intros H.
  apply orb_false_iff in H as [H Hcancel]. apply orb_false_iff in H as [H Hback].
  apply orb_false_iff in H as [Hrest Hingest].
  rewrite Hrest, Hingest, Hback, Hcancel. reflexivity.
Qed.

Lemma unknown_tick env key this fuel w r r0 w' :
  Manager.current_record (providerName (options this)) w = Some r ->
  known_action (next_action r) = false ->
  handleNextAction env key this fuel w = (r0, w') ->
  same_stores w w'
  /\ (exists evs, calls w' = calls w ++ evs /\ Forall read_only evs)
  /\ (env_fails env AwaitReady w = None ->
      (forall w1, env_fails env (GetCurrentIngestionRecord (providerName (options this))) w1
                  = None) ->
      r0 = Returned tt
      /\ last (logs w') = Some (Error, UnknownAction (rec_id r) (next_action r))).
Proof.
  intros Hcur Hunknown.
  unfold handleNextAction, ready, getCurrentAction, getCurrentIngestionRecord, same_stores.
  unfold bind at 1. settle_extern.
  { intros [= <- <-]. cbn. split; [repeat split|]. split.
    - eexists. split; [reflexivity|]. constructor; [left; reflexivity|constructor].
    - intros Hok. congruence. }
  unfold bind at 1. unfold bind at 1. settle_extern.
  { intros [= <- <-]. cbn. rewrite <- app_assoc. split; [repeat split|]. split.
    - eexists. split; [reflexivity|].
      constructor; [left; reflexivity|].
      constructor; [right; eexists; reflexivity|constructor].
    - intros _ Hok. rewrite Hok in F0. discriminate F0. }
  match goal with
  | |- context [Manager.current_record ?p ?w'] =>
      replace (Manager.current_record p w') with (Some r) by (rewrite <- Hcur; reflexivity)
  end.
  unfold bind at 1, logger at 1, ret. cbn beta iota.
  rewrite dispatch_default by exact Hunknown.
  intros [= <- <-]. cbn. rewrite <- app_assoc. split; [repeat split|]. split.
  - eexists. split; [reflexivity|].
    constructor; [left; reflexivity|].
    constructor; [right; eexists; reflexivity|constructor].
  - intros _ _. split; [reflexivity|]. rewrite last_snoc. reflexivity.
Qed.

Lemma unknown_ticks env key this r schedule :
  forall w,
    Manager.current_record (providerName (options this)) w = Some r ->
    known_action (next_action r) = false ->
    same_stores w (run_ticks env key this schedule w)
    /\ exists evs,
         calls (run_ticks env key this schedule w) = calls w ++ evs
         /\ Forall read_only evs.
Proof.
  induction schedule as [|[fuel t] rest IH]; intros w Hcur Hact.
  - cbn. unfold same_stores. repeat split. exists []. rewrite app_nil_r. auto.
  - cbn [run_ticks].
    set (w0 := set_logs (fun l => l ++ [(Debug, BeginTick)]) (set_now t w)).
    assert (Hcur0 : Manager.current_record (providerName (options this)) w0 = Some r)
      by exact Hcur.
    destruct (unknown_tick env key this fuel w0 r _ _ Hcur0 Hact (surjective_pairing _))
      as ((Hi & Hm & Hme & Hc) & (evs & Hcalls & Hro) & _).
    destruct (taskFn_stores env key this fuel (set_now t w))
      as (Hi' & Hm' & Hme' & Hc' & Hcalls').
    fold w0 in Hi', Hm', Hme', Hc', Hcalls'.
    set (w1 := snd (taskFn env key this fuel (set_now t w))) in *.
    assert (Hcur1 : Manager.current_record (providerName (options this)) w1 = Some r).
    { rewrite <- Hcur. apply current_record_same_rows. rewrite Hi', Hi. reflexivity. }
    destruct (IH w1 Hcur1 Hact) as ((Hi2 & Hm2 & Hme2 & Hc2) & evs2 & Hcalls2 & Hro2).
    split.
    + unfold same_stores.
      rewrite Hi2, Hm2, Hme2, Hc2, Hi', Hm', Hme', Hc', Hi, Hm, Hme, Hc. auto.
    + exists (evs ++ evs2). split.
      * rewrite Hcalls2, Hcalls', Hcalls, <- app_assoc. reflexivity.
      * apply Forall_app. auto.
Qed.

(** X4: a record whose next action is none of [rest], [ingest],
    [backoff] and [cancel] is never moved by the engine: a tick on it only
    waits for readiness and reads the record, logs the unknown action as
    an error and returns normally, and a run of ticks of any length, at
    any times, leaves the ingestion records, the marks and the target
    store as they were, with the same record still the current one. *)
Theorem unknown_action_is_never_left env key this r :
  known_action (next_action r) = false ->
  (forall schedule w,
     Manager.current_record (providerName (options this)) w = Some r ->
     same_stores w (run_ticks env key this schedule w)
     /\ Manager.current_record (providerName (options this))
          (run_ticks env key this schedule w) = Some r
     /\ exists evs,
          calls (run_ticks env key this schedule w) = calls w ++ evs
          /\ Forall read_only evs)
  /\ (forall fuel w,
        Manager.current_record (providerName (options this)) w = Some r ->
        (forall c w, env_fails env c w = None) ->
        fst (taskFn env key this fuel w) = Returned tt
        /\ In (Error, UnknownAction (rec_id r) (next_action r))
             (logs (snd (taskFn env key this fuel w)))).
Proof.
  intros Hunknown. split.
  - intros schedule w Hcur.
    destruct (unknown_ticks env key this r schedule w Hcur Hunknown) as (Hsame & Hev).
    split; [exact Hsame|]. split; [|exact Hev].
    rewrite <- Hcur. apply current_record_same_rows, Hsame.
  - intros fuel w Hcur Hok.
    set (w0 := set_logs (fun l => l ++ [(Debug, BeginTick)]) w).
    assert (Hcur0 : Manager.current_record (providerName (options this)) w0 = Some r)
      by exact Hcur.
    destruct (handleNextAction env key this fuel w0) as [r0 w1] eqn:Hrun.
    destruct (unknown_tick env key this fuel w0 r _ _ Hcur0 Hunknown Hrun)
      as (_ & _ & Hlog).
    destruct (Hlog (Hok _ _) (fun w1 => Hok _ w1)) as (-> & Hlast).
    assert (Htick : taskFn env key this fuel w
                    = (Returned tt,
                       set_logs (fun l => l ++ [(Debug, EndTick)]) w1)).
    { unfold taskFn, try_finally, try_catch, bind at 1, logger at 1. cbn beta iota.
      unfold w0 in Hrun. rewrite Hrun. reflexivity. }
    rewrite Htick. cbn.
    split; [reflexivity|].
    apply last_Some in Hlast as [l' ->]. rewrite <- app_assoc.
    apply in_or_app. right. left. reflexivity.
Qed.

(** A record of the sample provider with an action of an older version. *)
Definition stuck_record : IngestionRecord :=
  {| rec_id := "run-1"; provider_name := "github"; next_action := "nothing";
     next_action_at := 0; attempts := 0; status := "interstitial";
     last_error := None; completed := false |}.

Definition stuck_world : World := mkWorld [stuck_record] [] [] [] 1000 [] [] [] [].

Lemma unknown_action_is_never_left_witness :
  same_stores stuck_world
    (run_ticks quiet_env sample_key sample_engine [(3%nat, 2000); (3%nat, 90000000)]
       stuck_world).
Proof.
  destruct (unknown_action_is_never_left quiet_env sample_key sample_engine stuck_record
              eq_refl) as (Hstuck & _).
  apply Hstuck. reflexivity.
Defined.

(** *** The cancel state *)

(** X5: a tick on a record whose action is [cancel] does not look at the
    clock or at the signal: the calls resolving, it waits for readiness,
    reads the record and calls [setProviderCanceled] for it, whatever the
    time, and returns normally; it makes no call of a burst and leaves the
    marks, their entities and the target store as they were (the marks of
    the cancelled ingestion are not removed by this tick); the record is
    then closed, so it is not the current record of the provider any
    more. *)
Theorem cancel_tick_closes_the_record env key this r fuel w :
  Manager.current_record (providerName (options this)) w = Some r ->
  next_action r = "cancel" ->
  (forall c w, env_fails env c w = None) ->
  exists w',
    handleNextAction env key this fuel w = (Returned tt, w')
    /\ calls w'
       = calls w ++ [Ev AwaitReady None;
                     Ev (GetCurrentIngestionRecord (providerName (options this))) None;
                     Ev (SetProviderCanceled (rec_id r)) None]
    /\ marks w' = marks w /\ mark_entities w' = mark_entities w
    /\ catalog w' = catalog w /\ fetched w' = fetched w
    /\ ingestions w'
       = ingestions (Manager.update_row (rec_id r) (Manager.finished "canceled") w)
    /\ (forall r', In r' (ingestions w') -> rec_id r' = rec_id r -> completed r' = true)
    /\ Manager.current_record (providerName (options this)) w' <> Some r.
Proof.
  intros Hcur Hact Hok.
  unfold handleNextAction, ready, getCurrentAction, getCurrentIngestionRecord,
    bind, extern.
  rewrite !Hok.
  replace (Manager.current_record (providerName (options this))
             (set_calls _ (set_calls _ w)))
    with (Some r) by (rewrite <- Hcur; reflexivity).
  unfold logger, ret, dispatch, bind, setProviderCanceled, extern.
  cbn. rewrite Hact. cbn. rewrite !Hok. cbn.
  eexists. split; [reflexivity|]. cbn. rewrite <- !app_assoc.
  assert (Hclosed : forall r', In r' (map (fun r0 => if String.eqb (rec_id r0) (rec_id r)
                                                    then Manager.finished "canceled" r0
                                                    else r0) (ingestions w)) ->
                      rec_id r' = rec_id r -> completed r' = true).
  { intros r' Hin Hid. apply in_map_iff in Hin as (x & <- & _).
    destruct (String.eqb_spec (rec_id x) (rec_id r)) as [_|Hne]; [reflexivity|].
    contradiction. }
  repeat (split; [reflexivity|]). split; [exact Hclosed|].
  intros Hstill. unfold Manager.current_record in Hstill. cbn in Hstill.
  apply find_some in Hstill as [Hin Hactive].
  unfold Manager.is_current in Hactive.
  rewrite (Hclosed r Hin eq_refl), andb_false_r in Hactive.
  discriminate Hactive.
Qed.

(** An ingestion of the sample provider that was cancelled, with two
    marks. *)
Definition cancelled_world : World :=
  mkWorld
    [ {| rec_id := "run-1"; provider_name := "github"; next_action := "cancel";
         next_action_at := 999999; attempts := 2; status := "canceling";
         last_error := Some "CANCEL"; completed := false |} ]
    [ {| mark_id := "m0"; mark_ingestion_id := "run-1"; mark_cursor := Some "page-2";
         mark_sequence := 0 |};
      {| mark_id := "m1"; mark_ingestion_id := "run-1"; mark_cursor := Some "end";
         mark_sequence := 1 |} ]
    [] [] 1000 [] [] [] [].

Lemma cancel_tick_closes_the_record_witness :
  exists w',
    handleNextAction quiet_env sample_key sample_engine 3 cancelled_world
    = (Returned tt, w')
    /\ marks w' = marks cancelled_world
    /\ Manager.current_record "github" w' = None.
Proof.
  destruct (cancel_tick_closes_the_record quiet_env sample_key sample_engine
              {| rec_id := "run-1"; provider_name := "github"; next_action := "cancel";
                 next_action_at := 999999; attempts := 2; status := "canceling";
                 last_error := Some "CANCEL"; completed := false |}
              3 cancelled_world eq_refl eq_refl (fun _ _ => eq_refl))
    as (w' & Hrun & _ & Hmarks & _).
  exists w'. split; [exact Hrun|]. split; [exact Hmarks|].
  assert (Hw : w' = snd (handleNextAction quiet_env sample_key sample_engine 3
                           cancelled_world)) by (rewrite Hrun; reflexivity).
  rewrite Hw. vm_compute. reflexivity.
Defined.

(** * The log of a tick *)

Section History.

(** A relation between the world before and after that every step of
    the engine respects. *)
Variable R : World -> World -> Prop.
Hypothesis R_refl : forall w, R w w.
Hypothesis R_trans : forall w1 w2 w3, R w1 w2 -> R w2 w3 -> R w1 w3.

Definition respects {A : Type} (m : M A) : Prop :=
  forall w, R w (snd (m w)).

Lemma respects_ret {A : Type} (a : A) : respects (ret a).
Proof. intros w. apply R_refl. Qed.

Lemma respects_throw {A : Type} (e : thrown) : respects (@throw A e).
Proof. intros w. apply R_refl. Qed.

Lemma respects_running {A : Type} : respects (@running A).
Proof. intros w. apply R_refl. Qed.

Lemma respects_bind {A B : Type} (m : M A) (k : A -> M B) :
  respects m -> (forall a, respects (k a)) -> respects (bind m k).
Proof.
  intros Hm Hk w. unfold bind. specialize (Hm w).
  destruct (m w) as [[a|e|] w1]; cbn in *; [|assumption|assumption].
  eapply R_trans; [exact Hm|apply Hk].
Qed.

Lemma respects_try_catch {A : Type} (body : M A) (handler : thrown -> M A) :
  respects body -> (forall e, respects (handler e)) -> respects (try_catch body handler).
Proof.
  intros Hb Hh w. unfold try_catch. specialize (Hb w).
  destruct (body w) as [[a|e|] w1]; cbn in *; [assumption| |assumption].
  eapply R_trans; [exact Hb|apply Hh].
Qed.

Lemma respects_try_finally {A : Type} (body : M A) (finalizer : World -> World) :
  (forall w, R w (finalizer w)) -> respects body -> respects (try_finally body finalizer).
Proof.
  intros Hf Hb w. unfold try_finally. specialize (Hb w).
  destruct (body w) as [[a|e|] w1]; cbn in *; try assumption;
    (eapply R_trans; [exact Hb|apply Hf]).
Qed.

Lemma respects_extern {A : Type} env c (effect : World -> A * World) :
  (forall f w, R w (set_calls f w)) ->
  (forall w, R w (snd (effect w))) -> respects (extern env c effect).
Proof.
  intros Hc He w. unfold extern.
  destruct (env_fails env c w); cbn; [apply Hc|].
  specialize (He (set_calls (fun l => l ++ [Ev c None]) w)).
  destruct (effect _) as [a w2]. cbn in *.
  eapply R_trans; [apply Hc|exact He].
Qed.

End History.

(** The log is only ever added to. *)
Definition log_extends (w w' : World) : Prop :=
  exists lines, logs w' = logs w ++ lines.

Lemma log_extends_refl w : log_extends w w.
Proof. exists []. rewrite app_nil_r. reflexivity. Qed.

Lemma log_extends_trans w1 w2 w3 :
  log_extends w1 w2 -> log_extends w2 w3 -> log_extends w1 w3.
Proof.
  intros [l1 H1] [l2 H2]. exists (l1 ++ l2). rewrite H2, H1, app_assoc. reflexivity.
Qed.

Lemma log_extends_same w w' : logs w' = logs w -> log_extends w w'.
Proof. intros H. exists []. rewrite app_nil_r. exact H. Qed.

Lemma log_extends_logger level msg : respects log_extends (logger level msg).
Proof. intros w. eexists. reflexivity. Qed.

Ltac silent_call :=
  apply (respects_extern log_extends log_extends_trans);
  [intros ? ?; apply log_extends_same; reflexivity
  |intros ?; apply log_extends_same; reflexivity].

Lemma log_extends_mark env key this id sequence entities done cursor :
  respects log_extends (mark env key this id sequence entities done cursor).
Proof.
  unfold mark.
  apply (respects_bind _ log_extends_trans); [apply log_extends_logger|intros _].
  apply (respects_bind _ log_extends_trans); [intros w; apply log_extends_refl|].
  intros markId.
  apply (respects_bind _ log_extends_trans); [silent_call|intros _].
  apply (respects_bind _ log_extends_trans).
  { destruct (0 <? length entities)%nat;
      [silent_call|apply (respects_ret _ log_extends_refl)]. }
  intros _.
  apply (respects_bind _ log_extends_trans).
  { destruct done; [apply (respects_ret _ log_extends_refl)|silent_call]. }
  intros removed. silent_call.
Qed.

Lemma log_extends_burst_loop env key this fuel :
  forall id sequence count next,
    respects log_extends (burst_loop env key this fuel id sequence count next).
Proof.
  induction fuel as [|fuel IH]; intros id sequence count next.
  - apply (respects_running _ log_extends_refl).
  - cbn [burst_loop].
    apply (respects_bind _ log_extends_trans); [apply log_extends_mark|intros _].
    apply (respects_bind _ log_extends_trans); [intros w; apply log_extends_refl|].
    intros aborted.
    destruct (aborted || page_done next); [apply (respects_ret _ log_extends_refl)|].
    apply (respects_bind _ log_extends_trans); [silent_call|]. intros next'. apply IH.
Qed.

Lemma log_extends_ingestOneBurst env key this fuel id :
  respects log_extends (ingestOneBurst env key this fuel id).
Proof.
  unfold ingestOneBurst, getLastMark, provider_around.
  apply (respects_bind _ log_extends_trans); [silent_call|intros lastMark].
  apply (respects_bind _ log_extends_trans); [apply log_extends_logger|intros _].
  apply (respects_bind _ log_extends_trans).
  { apply (respects_bind _ log_extends_trans); [silent_call|intros _].
    apply (respects_bind _ log_extends_trans); [silent_call|intros next].
    apply log_extends_burst_loop. }
  intros settled.
  apply (respects_bind _ log_extends_trans); [apply log_extends_logger|intros _].
  apply (respects_ret _ log_extends_refl).
Qed.

Lemma log_extends_handleNextAction env key this fuel :
  respects log_extends (handleNextAction env key this fuel).
Proof.
  unfold handleNextAction.
  apply (respects_bind _ log_extends_trans); [silent_call|intros _].
  apply (respects_bind _ log_extends_trans).
  { unfold getCurrentAction.
    apply (respects_bind _ log_extends_trans); [silent_call|].
    intros [r|].
    - apply (respects_bind _ log_extends_trans); [apply log_extends_logger|intros _].
      apply (respects_ret _ log_extends_refl).
    - apply (respects_bind _ log_extends_trans).
      + apply (respects_extern log_extends log_extends_trans);
          [intros ? ?; apply log_extends_same; reflexivity|].
        intros w. apply log_extends_same. unfold Manager.create_record.
        destruct (Manager.current_record _ w); reflexivity.
      + intros [a|];
          (apply (respects_bind _ log_extends_trans);
           [|intros _; apply (respects_ret _ log_extends_refl)]);
          [apply log_extends_logger|apply (respects_ret _ log_extends_refl)]. }
  intros [a|]; [|apply log_extends_logger].
  unfold dispatch.
  destruct (String.eqb (nextAction a) "rest").
  { apply (respects_bind _ log_extends_trans); [intros w; apply log_extends_refl|].
    intros clock. destruct (clock >? nextActionAt a); [|apply log_extends_logger].
    apply (respects_bind _ log_extends_trans); [silent_call|intros _].
    apply (respects_bind _ log_extends_trans); [apply log_extends_logger|intros _].
    silent_call. }
  destruct (String.eqb (nextAction a) "ingest").
  { apply (respects_try_catch _ log_extends_trans).
    - unfold ingestTry.
      apply (respects_bind _ log_extends_trans); [silent_call|intros _].
      apply (respects_bind _ log_extends_trans); [apply log_extends_ingestOneBurst|].
      intros [|].
      + apply (respects_bind _ log_extends_trans); [apply log_extends_logger|intros _].
        silent_call.
      + apply (respects_bind _ log_extends_trans); [silent_call|intros _].
        apply log_extends_logger.
    - intros e. unfold ingestCatch, ingestBackoff.
      assert (Hb : respects log_extends
                     (match currentBackoff this (act_attempts a) with
                      | inl invalid => throw invalid
                      | inr d =>
                          bind (logger Error (BurstError e))
                            (fun _ =>
                               bind (logger Error
                                       (BurstBackoff (ingestionId a) d (truncatedError e)))
                                 (fun _ =>
                                    setProviderBackoff env (ingestionId a)
                                      (act_attempts a) e (as_milliseconds d)))
                      end)).
      { destruct (currentBackoff this (act_attempts a));
          [apply (respects_throw _ log_extends_refl)|].
        apply (respects_bind _ log_extends_trans); [apply log_extends_logger|intros _].
        apply (respects_bind _ log_extends_trans); [apply log_extends_logger|intros _].
        silent_call. }
      destruct (message e) as [m|]; [|exact Hb].
      destruct (truthy m && String.eqb m "CANCEL"); [|exact Hb].
      apply (respects_bind _ log_extends_trans); [apply log_extends_logger|intros _].
      silent_call. }
  destruct (String.eqb (nextAction a) "backoff").
  { apply (respects_bind _ log_extends_trans); [intros w; apply log_extends_refl|].
    intros clock. destruct (clock >? nextActionAt a); [|apply log_extends_logger].
    apply (respects_bind _ log_extends_trans); [apply log_extends_logger|intros _].
    silent_call. }
  destruct (String.eqb (nextAction a) "cancel"); [|apply log_extends_logger].
  apply (respects_bind _ log_extends_trans); [apply log_extends_logger|intros _].
  silent_call.
Qed.

(** The lines [taskFn] closes the log of a tick with. *)
Definition closing (r : outcome unit) : list (LogLevel * LogMessage) :=
  match r with
  | Returned _ => [(Debug, EndTick)]
  | Threw e => [(Error, TickError (to_template e)); (Debug, EndTick)]
  | Running => []
  end.

(** X1: [taskFn] settles as [handleNextAction] does: what it returned is
    returned, the error it threw is thrown again as it is.  The log of a
    tick that has settled begins with [Begin tick] and ends with
    [End tick], whether the tick returned or threw; when it threw, the
    line before [End tick] is the error, rendered as a string, at level
    [error]; nothing that was in the log before is changed. *)
Theorem tick_log_is_bracketed env key this fuel w :
  fst (taskFn env key this fuel w)
  = fst (handleNextAction env key this fuel
           (set_logs (fun l => l ++ [(Debug, BeginTick)]) w))
  /\ exists middle,
       logs (snd (taskFn env key this fuel w))
       = logs w ++ (Debug, BeginTick) :: middle
                ++ closing (fst (taskFn env key this fuel w)).
Proof.
  destruct (log_extends_handleNextAction env key this fuel
              (set_logs (fun l => l ++ [(Debug, BeginTick)]) w)) as [middle Hlog].
  assert (Htick : taskFn env key this fuel w
                  = match handleNextAction env key this fuel
                            (set_logs (fun l => l ++ [(Debug, BeginTick)]) w) with
                    | (Returned a, w1) =>
                        (Returned a, set_logs (fun l => l ++ [(Debug, EndTick)]) w1)
                    | (Threw e, w1) =>
                        (Threw e,
                         set_logs (fun l => l ++ [(Debug, EndTick)])
                           (set_logs (fun l => l ++ [(Error, TickError (to_template e))])
                              w1))
                    | (Running, w1) => (Running, w1)
                    end).
  { unfold taskFn, try_finally, try_catch, bind, logger, throw. cbn.
    destruct (handleNextAction env key this fuel _) as [[[]|e|] w1]; reflexivity. }
  rewrite Htick.
  destruct (handleNextAction env key this fuel _) as [[[]|e|] w1];
    cbn in Hlog |- *; (split; [reflexivity|]); exists middle;
    rewrite Hlog, <- !app_assoc; cbn; rewrite ?app_nil_r; reflexivity.
Qed.

(** * The text of an error in the log *)

Lemma substring_prefix (n : nat) (s : string) :
  String.length (String.substring 0 n s) = Nat.min n (String.length s)
  /\ exists rest, s = String.substring 0 n s +:+ rest.
Proof.
  revert n. induction s as [|c s IH]; intros [|n]; cbn.
  - split; [reflexivity|exists ""; reflexivity].
  - split; [reflexivity|exists ""; reflexivity].
  - split; [reflexivity|eexists; reflexivity].
  - destruct (IH n) as [Hlen [rest Hrest]]. split; [rewrite Hlen; reflexivity|].
    exists rest. change (String c s = String c (String.substring 0 n s +:+ rest)).
    f_equal. exact Hrest.
Qed.

Lemma substring_short (n : nat) (s : string) :
  (String.length s <= n)%nat -> String.substring 0 n s = s.
Proof.
  revert n. induction s as [|c s IH]; intros [|n] Hlen; cbn in *;
    try reflexivity; [lia|].
  rewrite IH by lia. reflexivity.
Qed.

Lemma length_append (s1 s2 : string) :
  String.length (s1 +:+ s2) = (String.length s1 + String.length s2)%nat.
Proof.
  induction s1 as [|c s1 IH]; [reflexivity|].
  change (String c s1 +:+ s2) with (String c (s1 +:+ s2)). cbn. rewrite IH. reflexivity.
Qed.

(** X9: the text of the error in the backoff log line is cut only for a
    thrown string: it is then the first 700 characters of the string (the
    whole string when it is shorter).  For an error object it is the
    whole rendering of the error, whatever its length: its message for
    an error without a name, and name, colon, space and message, all of
    them, for an error that has both. *)
Theorem truncated_error_cuts_strings_only :
  (forall s,
     String.length (truncatedError (JsString s)) = Nat.min 700 (String.length s)
     /\ exists rest, s = truncatedError (JsString s) +:+ rest)
  /\ (forall s, (String.length s <= 700)%nat -> truncatedError (JsString s) = s)
  /\ (forall name msg, truncatedError (JsError name msg) = to_template (JsError name msg))
  /\ (forall msg, truncatedError (JsError "" msg) = msg)
  /\ (forall name msg,
        name <> "" -> msg <> "" ->
        truncatedError (JsError name msg) = name +:+ ": " +:+ msg
        /\ String.length (truncatedError (JsError name msg))
           = (String.length name + 2 + String.length msg)%nat).
Proof.
  split; [|split; [|split; [|split]]].
  - intros s. apply substring_prefix.
  - intros s Hlen. apply substring_short, Hlen.
  - reflexivity.
  - reflexivity.
  - intros name msg Hname Hmsg.
    assert (Htext : truncatedError (JsError name msg) = name +:+ ": " +:+ msg).
    { cbn. destruct (String.eqb_spec name "") as [->|_]; [congruence|].
      destruct (String.eqb_spec msg "") as [->|_]; [congruence|]. reflexivity. }
    split; [exact Htext|]. rewrite Htext, !length_append. cbn. lia.
Qed.

(** * The provenance annotation *)

(** The annotations of an entity; an entity without the field has
    none. *)
Definition annotations_of (d : DeferredEntity) : gmap string string :=
  default ∅ (annotations (metadata (entity d))).

(** X10: tagging an entity sets the provider's name under the annotation
    key, replacing whatever was there, and changes nothing else: the api
    version, the kind, the name, the namespace, the location key and
    every other annotation are as they were, so tagging an entity that is
    tagged already gives the same entity. *)
Theorem tag_changes_one_annotation key this d :
  annotations_of (tag key this d) !! key = Some (providerName (options this))
  /\ (forall k, k <> key -> annotations_of (tag key this d) !! k = annotations_of d !! k)
  /\ apiVersion (entity (tag key this d)) = apiVersion (entity d)
  /\ kind (entity (tag key this d)) = kind (entity d)
  /\ meta_name (metadata (entity (tag key this d))) = meta_name (metadata (entity d))
  /\ meta_namespace (metadata (entity (tag key this d)))
     = meta_namespace (metadata (entity d))
  /\ locationKey (tag key this d) = locationKey d
  /\ tag key this (tag key this d) = tag key this d.
Proof.
  unfold annotations_of, tag. cbn.
  split; [apply lookup_insert_eq|].
  split; [intros k Hne; apply lookup_insert_ne; congruence|].
  repeat (split; [reflexivity|]).
  rewrite insert_insert_eq. reflexivity.
Qed.

(** * One page, call by call *)

(** The calls [mark] is to make for a page, in order: the mark, its
    entities when the page has any, the reconciliation query unless the
    page is done, and the mutation. *)
Definition mark_plan (key : string) (this : IncrementalIngestionEngine)
    (markId id : string) (sequence : Z) (entities : list DeferredEntity) (done : bool)
    (cursor : Cursor) (removed : list DeferredEntity) : list Call :=
  [CreateMark (new_mark markId id cursor sequence)]
  ++ (if (0 <? length entities)%nat then [CreateMarkEntities markId entities] else [])
  ++ (if done then [] else [ComputeRemoved (providerName (options this)) id])
  ++ [ApplyMutation (DeltaMutation (map (tag key this) entities) removed)].

(** How a sequence of calls of which only the last may have been
    rejected settles. *)
Definition settles (evs : list Event) : outcome unit :=
  match last evs with
  | Some (Ev _ (Some e)) => Threw e
  | _ => Returned tt
  end.

(** X17: the calls of [mark] for a page follow one plan, in order:
    [createMark] with a fresh id, the page's sequence and cursor;
    [createMarkEntities] with that id and the entities as the provider
    gave them, only when the page has entities; [computeRemoved], only
    when the page is not done; [applyMutation] with the tagged entities
    and the removed set.  Each call is made only when the calls before it
    have resolved, the first rejection ends the plan and is what [mark]
    throws, and [mark] returns exactly when the whole plan has
    resolved. *)
Theorem mark_calls_follow_the_plan env key this id sequence entities done cursor w :
  exists markId removed evs,
    calls (snd (mark env key this id sequence entities done cursor w)) = calls w ++ evs
    /\ evs <> []
    /\ map ev_call evs
       = firstn (length evs)
           (mark_plan key this markId id sequence entities done cursor removed)
    /\ Forall (fun ev => resolved ev = true) (removelast evs)
    /\ fst (mark env key this id sequence entities done cursor w) = settles evs
    /\ (fst (mark env key this id sequence entities done cursor w) = Returned tt ->
          length evs
          = length (mark_plan key this markId id sequence entities done cursor removed))
    /\ (done = true -> removed = []).
Proof.
  unfold mark, bind, logger, v4, createMark, createMarkEntities,
    computeRemoved, applyMutation, ret, mark_plan, new_mark.
  cbn beta iota.
  match goal with
  | |- context [env_uuid env ?wl] => exists (env_uuid env wl)
  end.
  settle_extern.
  { eexists [], [_]. cbn.
    repeat split; try discriminate; repeat constructor. }
  destruct (0 <? length entities)%nat.
  - settle_extern.
    { eexists [], [_; _]. cbn. rewrite <- app_assoc.
      repeat split; try discriminate; repeat constructor. }
    destruct done.
    + settle_extern.
      * eexists [], [_; _; _]. cbn. rewrite <- !app_assoc.
        repeat split; try discriminate; repeat constructor.
      * eexists [], [_; _; _]. cbn. rewrite <- !app_assoc.
        repeat split; try discriminate; repeat constructor.
    + settle_extern.
      { eexists [], [_; _; _]. cbn. rewrite <- !app_assoc.
        repeat split; try discriminate; repeat constructor. }
      settle_extern.
      * eexists _, [_; _; _; _]. cbn. rewrite <- !app_assoc.
        repeat split; try discriminate; repeat constructor.
      * eexists _, [_; _; _; _]. cbn. rewrite <- !app_assoc.
        repeat split; try discriminate; repeat constructor.
  - destruct done.
    + settle_extern.
      * eexists [], [_; _]. cbn. rewrite <- !app_assoc.
        repeat split; try discriminate; repeat constructor.
      * eexists [], [_; _]. cbn. rewrite <- !app_assoc.
        repeat split; try discriminate; repeat constructor.
    + settle_extern.
      { eexists [], [_; _]. cbn. rewrite <- !app_assoc.
        repeat split; try discriminate; repeat constructor. }
      settle_extern.
      * eexists _, [_; _; _]. cbn. rewrite <- !app_assoc.
        repeat split; try discriminate; repeat constructor.
      * eexists _, [_; _; _]. cbn. rewrite <- !app_assoc.
        repeat split; try discriminate; repeat constructor.
Qed.

(** * A burst, page by page *)

Lemma bind_returns {A B : Type} (m : M A) (k : A -> M B) w b w' :
  bind m k w = (Returned b, w') ->
  exists a w1, m w = (Returned a, w1) /\ k a w1 = (Returned b, w').
Proof.
  unfold bind. destruct (m w) as [[a|e|] w1]; [eauto|discriminate|discriminate].
Qed.

Lemma extern_returns {A : Type} env c (effect : World -> A * World) w a w' :
  extern env c effect w = (Returned a, w') ->
  env_fails env c w = None
  /\ (a, w') = effect (set_calls (fun l => l ++ [Ev c None]) w).
Proof.
  unfold extern. destruct (env_fails env c w); [discriminate|].
  destruct (effect _) as [a0 w2]. intros [= <- <-]. auto.
Qed.

Lemma extern_resolves {A : Type} env c (effect : World -> A * World) w :
  env_fails env c w = None ->
  extern env c effect w
  = (Returned (fst (effect (set_calls (fun l => l ++ [Ev c None]) w))),
     snd (effect (set_calls (fun l => l ++ [Ev c None]) w))).
Proof. intros H. unfold extern. rewrite H. destruct (effect _); reflexivity. Qed.

(** [mark] has no loop: it returns or throws. *)
Lemma mark_settles env key this id sequence entities done cursor w :
  fst (mark env key this id sequence entities done cursor w) <> Running.
Proof.
  pose proof (mark_marked env key this id sequence entities done cursor w) as H.
  inversion H; congruence.
Qed.

(** *** The cursors a burst asks for *)

(** The cursors of the [provider.next] calls of a history, resolved or
    rejected, oldest first. *)
Definition requested (evs : list Event) : list Cursor :=
  flat_map (fun ev => match ev_call ev with
                      | ProviderNext cursor => [cursor]
                      | _ => []
                      end) evs.

Lemma requested_app evs1 evs2 : requested (evs1 ++ evs2) = requested evs1 ++ requested evs2.
Proof. apply flat_map_app. Qed.

Lemma mark_requests_nothing env key this id sequence entities done cursor w :
  exists evs,
    calls (snd (mark env key this id sequence entities done cursor w)) = calls w ++ evs
    /\ requested evs = [].
Proof.
  unfold mark, bind, logger, v4, createMark, createMarkEntities,
    computeRemoved, applyMutation, ret.
  cbn beta iota.
  settle_extern; [eexists; split; [cbn; reflexivity|reflexivity]|].
  destruct (0 <? length entities)%nat, done;
    repeat (settle_extern;
            [eexists; split; [cbn; rewrite <- ?app_assoc; reflexivity|reflexivity]|]);
    eexists; (split; [cbn; rewrite <- ?app_assoc; reflexivity|reflexivity]).
Qed.

Lemma burst_loop_requests env key this fuel :
  forall id sequence count p w r w',
    burst_loop env key this fuel id sequence count p w = (r, w') ->
    exists ps evs n,
      fetched w' = fetched w ++ ps
      /\ calls w' = calls w ++ evs
      /\ requested evs = map page_cursor (firstn n (p :: ps))
      /\ (length ps <= n)%nat /\ (n <= S (length ps))%nat
      /\ (forall x, r = Returned x -> n = length ps).
Proof.
  induction fuel as [|fuel IH]; intros id sequence count p w r w' Hrun.
  - cbn in Hrun. injection Hrun as <- <-.
    exists [], [], 0%nat. cbn. rewrite !app_nil_r.
    repeat split; try reflexivity; try lia; try discriminate.
  - rewrite burst_loop_step in Hrun.
    destruct (mark_requests_nothing env key this id sequence (page_entities p)
                (page_done p) (page_cursor p) w) as (evm & Hcm & Hrm).
    destruct (mark_frame env key this id sequence (page_entities p) (page_done p)
                (page_cursor p) w) as (_ & _ & Hf).
    destruct (mark env key this id sequence (page_entities p) (page_done p)
                (page_cursor p) w) as [rm wm].
    cbn [fst snd] in Hcm, Hf.
    destruct rm as [[]|e|].
    + destruct (env_aborted env wm || page_done p).
      * injection Hrun as <- <-. exists [], evm, 0%nat.
        rewrite Hf, Hcm, Hrm, app_nil_r. cbn.
        repeat split; try reflexivity; try lia; try discriminate.
      * destruct (provider_next_cases env (page_cursor p) wm)
          as [(e & F & E) | (F & E)]; rewrite E in Hrun; clear E.
        -- injection Hrun as <- <-.
           exists [], (evm ++ [Ev (ProviderNext (page_cursor p)) (Some e)]), 1%nat.
           cbn. rewrite Hf, Hcm, requested_app, Hrm, <- app_assoc, app_nil_r. cbn.
           repeat split; try reflexivity; try lia; try discriminate.
        -- match type of Hrun with
           | burst_loop _ _ _ _ _ _ _ ?q ?w2 = _ =>
               set (w2' := w2) in *; set (p' := q) in *
           end.
           destruct (IH _ _ _ _ _ _ _ Hrun)
             as (ps & evs & n & Hf' & Hc' & Hr' & Hlo & Hhi & Hret).
           subst w2'. cbn in Hf', Hc'.
           exists (p' :: ps), (evm ++ [Ev (ProviderNext (page_cursor p)) None] ++ evs),
             (S n).
           rewrite Hf', Hc', Hf, Hcm, !requested_app, Hrm, Hr', <- !app_assoc. cbn.
           repeat split; try reflexivity; try lia.
           intros x Hx. rewrite (Hret x Hx). reflexivity.
    + injection Hrun as <- <-. exists [], evm, 0%nat.
      rewrite Hf, Hcm, Hrm, app_nil_r. cbn.
      repeat split; try reflexivity; try lia; try discriminate.
    + injection Hrun as <- <-. exists [], evm, 0%nat.
      rewrite Hf, Hcm, Hrm, app_nil_r. cbn.
      repeat split; try reflexivity; try lia; try discriminate.
Qed.

(** X16: in a burst the provider is asked for its pages in a chain: the
    first request carries the cursor of the last mark of the ingestion
    ([undefined] without a mark), and every later request carries the
    cursor of the page fetched just before it.  No cursor is left out and
    the engine makes up none; a request that is rejected is the last of
    the burst, and a burst that returned has not asked for the page after
    the last one it fetched. *)
Theorem pages_are_requested_in_a_chain env key this fuel id w r w' :
  ingestOneBurst env key this fuel id w = (r, w') ->
  exists ps evs n,
    fetched w' = fetched w ++ ps
    /\ calls w' = calls w ++ evs
    /\ requested evs = firstn n (resume_cursor id w :: map page_cursor ps)
    /\ (length ps <= n)%nat /\ (n <= S (length ps))%nat
    /\ (forall d, r = Returned d -> n = length ps).
Proof.
  unfold ingestOneBurst, getLastMark, provider_around.
  unfold bind at 1. settle_extern.
  { intros [= <- <-]. exists [], [Ev (GetLastMark id) (Some e)], 0%nat.
    cbn. rewrite app_nil_r. repeat split; try reflexivity; try lia; try discriminate. }
  unfold bind at 1, logger at 1. cbn beta iota.
  unfold bind at 1. unfold bind at 1. settle_extern.
  { intros [= <- <-].
    exists [], [Ev (GetLastMark id) None; Ev ProviderAround (Some e)], 0%nat.
    cbn. rewrite <- !app_assoc, app_nil_r.
    repeat split; try reflexivity; try lia; try discriminate. }
  unfold bind at 1.
  match goal with
  | |- context [provider_next env ?c ?w1] =>
      destruct (provider_next_cases env c w1) as [(e & F1 & E) | (F1 & E)];
      rewrite E; clear E
  end.
  { intros [= <- <-].
    exists [],
      [Ev (GetLastMark id) None; Ev ProviderAround None;
       Ev (ProviderNext (resume_cursor id w)) (Some e)], 1%nat.
    cbn. rewrite <- !app_assoc, app_nil_r.
    repeat split; try reflexivity; try lia; try discriminate. }
  match goal with
  | |- context [burst_loop env key this fuel id ?s 1 ?q ?w3] =>
      set (w3' := w3); set (p := q) in *;
      destruct (burst_loop env key this fuel id s 1 p w3') as [r0 w4] eqn:Hloop
  end.
  destruct (burst_loop_requests _ _ _ _ _ _ _ _ _ _ _ Hloop)
    as (ps & evs & n & Hf & Hc & Hr & Hlo & Hhi & Hret).
  subst w3'. cbn in Hf, Hc.
  intros Hrun.
  assert (Hw' : fetched w' = fetched w4 /\ calls w' = calls w4).
  { destruct r0 as [x| |]; cbn in Hrun; injection Hrun as <- <-; cbn; tauto. }
  destruct Hw' as (-> & ->).
  exists (p :: ps),
    ([Ev (GetLastMark id) None; Ev ProviderAround None;
      Ev (ProviderNext (resume_cursor id w)) None] ++ evs), (S n).
  rewrite Hf, Hc, requested_app, Hr, <- !app_assoc. cbn.
  repeat split; try reflexivity; try lia.
  - f_equal. symmetry. apply (firstn_map page_cursor n (p :: ps)).
  - intros d Hd. destruct r0 as [x| |]; cbn in Hrun; injection Hrun as <- _;
      try discriminate Hd.
    rewrite (Hret x eq_refl). reflexivity.
Qed.

Lemma pages_are_requested_in_a_chain_witness :
  exists evs,
    calls (snd (ingestOneBurst quiet_env sample_key sample_engine 3 "run-1" empty_world))
    = calls empty_world ++ evs
    /\ requested evs = [None; Some "page-2"].
Proof.
  set (run := ingestOneBurst quiet_env sample_key sample_engine 3 "run-1" empty_world).
  assert (Hrun : run = (Returned true, snd run)) by (vm_compute; reflexivity).
  destruct (pages_are_requested_in_a_chain _ _ _ _ _ _ _ _ Hrun)
    as (ps & evs & n & Hf & Hc & Hr & _ & _ & Hret).
  exists evs. split; [exact Hc|].
  rewrite Hr, (Hret true eq_refl).
  assert (Hps : ps = fetched (snd run)).
  { rewrite Hf. reflexivity. }
  rewrite Hps. vm_compute. reflexivity.
Defined.

(** *** Pages, marks and deltas of a burst *)

Lemma length_page_keys id sequence pages :
  length (page_keys id sequence pages) = length pages.
Proof.
  revert sequence. induction pages as [|p pages IH]; intros sequence; [reflexivity|].
  cbn. rewrite IH. reflexivity.
Qed.

(** X15: however a burst settles (it returned, it threw at any call, or
    it is observed while it runs), it has written a mark for every page it
    fetched but at most the last one, and applied a delta for every mark
    it wrote but at most the last one: no delta is applied for a page
    whose mark is not written, and at no moment is more than one page
    fetched without its delta applied.  A burst that returned has a mark
    and a delta for every page it fetched. *)
Theorem burst_is_one_page_ahead_at_most env key this fuel id w r w' :
  ingestOneBurst env key this fuel id w = (r, w') ->
  exists pages written applied : nat,
    length (fetched w') = (length (fetched w) + pages)%nat
    /\ length (marks w') = (length (marks w) + written)%nat
    /\ length (catalog w') = (length (catalog w) + applied)%nat
    /\ (applied <= written)%nat /\ (written <= pages)%nat /\ (pages <= S applied)%nat
    /\ (forall d, r = Returned d -> applied = pages /\ (0 < pages)%nat).
Proof.
  intros Hrun.
  destruct (ingestOneBurst_progress _ _ _ _ _ _ _ _ Hrun)
    as (ps & answers & evs & k & j & Hf & _ & _ & Hmk & Hcat & _ & _ & Hlen
        & _ & _ & Hj & Hjk & Hk & Hret & _ & _).
  exists (length ps), k, j.
  split; [rewrite Hf, length_app; reflexivity|].
  split.
  { apply (f_equal (@length _)) in Hmk.
    rewrite length_app, !length_map, length_page_keys, length_firstn in Hmk. lia. }
  split; [rewrite Hcat, length_app, Hlen; reflexivity|].
  split; [exact Hjk|]. split; [exact Hk|]. split; [exact Hj|].
  intros d Hd. destruct (Hret d Hd) as (Hne & -> & _).
  split; [reflexivity|]. destruct ps; [congruence|cbn; lia].
Qed.

Lemma burst_is_one_page_ahead_at_most_witness :
  exists pages written applied : nat,
    length (marks (snd (ingestOneBurst flaky_catalog_env sample_key sample_engine 3
                          "run-1" empty_world)))
    = (length (marks empty_world) + written)%nat
    /\ length (catalog (snd (ingestOneBurst flaky_catalog_env sample_key sample_engine 3
                               "run-1" empty_world)))
       = (length (catalog empty_world) + applied)%nat
    /\ (applied <= written)%nat /\ (written <= pages)%nat /\ (pages <= S applied)%nat.
Proof.
  set (run := ingestOneBurst flaky_catalog_env sample_key sample_engine 3 "run-1"
                empty_world).
  assert (Hrun : run = (fst run, snd run)) by (vm_compute; reflexivity).
  destruct (burst_is_one_page_ahead_at_most _ _ _ _ _ _ _ _ Hrun)
    as (pages & written & applied & _ & Hm & Hc & H1 & H2 & H3 & _).
  exists pages, written, applied. auto.
Defined.

(** *** The count in the log *)

(** X12: a burst that returned has logged, as its last line, that the
    burst is complete with the number of batches, and that number is the
    number of pages the burst fetched from the provider; the first line it
    logged is that the burst was initiated. *)
Theorem burst_log_counts_the_pages env key this fuel id w d w' :
  ingestOneBurst env key this fuel id w = (Returned d, w') ->
  exists ps lines,
    fetched w' = fetched w ++ ps
    /\ logs w'
       = logs w ++ (Info, BurstInitiated id) :: lines
                ++ [(Info, BurstComplete id (Z.of_nat (length ps)))].
Proof.
  unfold ingestOneBurst, getLastMark, provider_around. intros Hrun.
  apply bind_returns in Hrun as (lastMark & w1 & Hlast & Hrun).
  apply extern_returns in Hlast as [_ [= -> ->]].
  apply bind_returns in Hrun as ([] & w2 & Hlog & Hrun).
  injection Hlog as <-.
  apply bind_returns in Hrun as (settled & w5 & Haround & Hrun).
  apply bind_returns in Haround as ([] & w3 & Hopen & Hfetch).
  apply extern_returns in Hopen as [_ [= ->]].
  apply bind_returns in Hfetch as (next & w4 & Hnext & Hloop).
  unfold provider_next in Hnext. apply extern_returns in Hnext as [_ [= -> ->]].
  destruct (burst_loop_progress _ _ _ _ _ _ _ _ _ _ _ Hloop)
    as (ps & answers & evs & k & j & Hf & _ & _ & _ & _ & _ & _ & _ & _ & _ & _ & _ & _
        & Hret & _).
  destruct (Hret settled eq_refl) as (_ & -> & _).
  match type of Hloop with
  | burst_loop _ _ _ _ ?i ?s ?c ?q ?w0 = _ =>
      destruct (log_extends_burst_loop env key this fuel i s c q w0) as [lines Hlines]
  end.
  rewrite Hloop in Hlines. cbn in Hf, Hlines.
  unfold bind, logger, ret in Hrun. cbn in Hrun. injection Hrun as _ <-.
  eexists (_ :: ps), lines. cbn. rewrite Hf, Hlines, <- !app_assoc. cbn.
  split; [reflexivity|].
  replace (1 + Z.of_nat (length ps)) with (Z.of_nat (S (length ps))) by lia.
  reflexivity.
Qed.

Lemma burst_log_counts_the_pages_witness :
  last (logs (snd (ingestOneBurst quiet_env sample_key sample_engine 3 "run-1"
                     empty_world)))
  = Some (Info, BurstComplete "run-1" 2).
Proof.
  set (run := ingestOneBurst quiet_env sample_key sample_engine 3 "run-1" empty_world).
  assert (Hrun : run = (Returned true, snd run)) by (vm_compute; reflexivity).
  destruct (burst_log_counts_the_pages _ _ _ _ _ _ _ _ Hrun) as (ps & lines & Hf & Hl).
  assert (Hps : ps = fetched (snd run)) by (rewrite Hf; reflexivity).
  rewrite Hl, app_comm_cons, app_assoc, last_snoc, Hps.
  vm_compute. reflexivity.
Defined.

(** *** A signal that is aborted from the start *)

Lemma burst_loop_aborted env key this fuel id sequence count p w :
  (forall w, env_aborted env w = true) ->
  fst (burst_loop env key this (S fuel) id sequence count p w) <> Running
  /\ fetched (snd (burst_loop env key this (S fuel) id sequence count p w)) = fetched w
  /\ forall x, fst (burst_loop env key this (S fuel) id sequence count p w) = Returned x ->
       x = (page_done p, count).
Proof.
  intros Habort. rewrite burst_loop_step.
  pose proof (mark_settles env key this id sequence (page_entities p) (page_done p)
                (page_cursor p) w) as Hs.
  destruct (mark_frame env key this id sequence (page_entities p) (page_done p)
              (page_cursor p) w) as (_ & _ & Hf).
  destruct (mark env key this id sequence (page_entities p) (page_done p)
              (page_cursor p) w) as [[[]|e|] wm]; cbn [fst snd] in *.
  - rewrite Habort. cbn. split; [discriminate|]. split; [exact Hf|].
    intros x [= <-]. reflexivity.
  - split; [discriminate|]. split; [exact Hf|]. discriminate.
  - congruence.
Qed.

(** X13: the signal is looked at only after a page has been marked and
    applied.  With a signal that is aborted before the burst starts, and
    whatever the bound on the loop, a burst still reads the last mark,
    fetches one page and processes it; it fetches no second page; it
    settles, and when it returns, it returns the [done] flag of that one
    page, with one mark written and one delta applied. *)
Theorem aborted_signal_allows_one_page env key this fuel id w :
  (forall w, env_aborted env w = true) ->
  fst (ingestOneBurst env key this (S fuel) id w) <> Running
  /\ exists ps,
       fetched (snd (ingestOneBurst env key this (S fuel) id w)) = fetched w ++ ps
       /\ (length ps <= 1)%nat
       /\ forall d,
            fst (ingestOneBurst env key this (S fuel) id w) = Returned d ->
            exists p,
              ps = [p] /\ d = page_done p
              /\ length (marks (snd (ingestOneBurst env key this (S fuel) id w)))
                 = S (length (marks w))
              /\ length (catalog (snd (ingestOneBurst env key this (S fuel) id w)))
                 = S (length (catalog w)).
Proof.
  intros Habort.
  destruct (ingestOneBurst env key this (S fuel) id w) as [r w'] eqn:Hrun.
  cbn [fst snd].
  destruct (ingestOneBurst_progress _ _ _ _ _ _ _ _ Hrun)
    as (ps0 & answers & evs & k & j & Hf0 & _ & _ & Hmk & Hcat & _ & _ & Hlen
        & _ & _ & Hj & Hjk & Hk & Hret & _ & _).
  revert Hrun. unfold ingestOneBurst, getLastMark, provider_around.
  unfold bind at 1. settle_extern.
  { intros [= <- <-]. split; [discriminate|]. exists []. cbn. rewrite app_nil_r.
    split; [reflexivity|]. split; [lia|discriminate]. }
  unfold bind at 1, logger at 1. cbn beta iota.
  unfold bind at 1. unfold bind at 1. settle_extern.
  { intros [= <- <-]. split; [discriminate|]. exists []. cbn. rewrite app_nil_r.
    split; [reflexivity|]. split; [lia|discriminate]. }
  unfold bind at 1.
  match goal with
  | |- context [provider_next env ?c ?w1] =>
      destruct (provider_next_cases env c w1) as [(e & F1 & E) | (F1 & E)];
      rewrite E; clear E
  end.
  { intros [= <- <-]. split; [discriminate|]. exists []. cbn. rewrite app_nil_r.
    split; [reflexivity|]. split; [lia|discriminate]. }
  match goal with
  | |- context [burst_loop env key this (S fuel) id ?s 1 ?q ?w3] =>
      set (w3' := w3); set (p := q) in *;
      destruct (burst_loop_aborted env key this fuel id s 1 p w3' Habort)
        as (Hsettles & Hfetched & Hreturned);
      destruct (burst_loop env key this (S fuel) id s 1 p w3') as [r0 w4]
  end.
  cbn [fst snd] in Hsettles, Hfetched, Hreturned. subst w3'. cbn in Hfetched.
  intros Hrun.
  assert (Hw' : fetched w' = fetched w ++ [p]).
  { destruct r0 as [x| |]; cbn in Hrun; injection Hrun as <- <-; cbn; exact Hfetched. }
  split.
  { destruct r0 as [x| |]; cbn in Hrun; injection Hrun as <- _;
      [discriminate|discriminate|congruence]. }
  exists [p]. split; [exact Hw'|]. split; [cbn; lia|].
  intros d Hd. exists p. split; [reflexivity|].
  destruct (Hret d Hd) as (_ & -> & _).
  assert (ps0 = [p]) by (rewrite Hf0 in Hw'; apply app_inv_head in Hw'; exact Hw').
  subst ps0. cbn [length] in *. assert (k = 1%nat) by lia. subst k.
  split; [|split].
  - destruct r0 as [x| |]; cbn in Hrun; injection Hrun as <- _; try discriminate Hd.
    injection Hd as <-. rewrite (Hreturned x eq_refl). reflexivity.
  - apply (f_equal (@length _)) in Hmk.
    rewrite length_app, !length_map in Hmk. cbn in Hmk. lia.
  - rewrite Hcat, length_app, Hlen. lia.
Qed.

Lemma aborted_signal_allows_one_page_witness :
  fst (ingestOneBurst aborted_env sample_key sample_engine 1 "run-1" empty_world)
  <> Running
  /\ exists ps,
       fetched (snd (ingestOneBurst aborted_env sample_key sample_engine 1 "run-1"
                       empty_world))
       = fetched empty_world ++ ps
       /\ (length ps <= 1)%nat.
Proof.
  destruct (aborted_signal_allows_one_page aborted_env sample_key sample_engine 0 "run-1"
              empty_world (fun _ => eq_refl)) as (Hs & ps & Hf & Hlen & _).
  split; [exact Hs|]. exists ps. split; [exact Hf|exact Hlen].
Defined.

(** *** A source that answers *)

(** The pages of a source read from [cursor], [n] at most: each page is
    asked for with the cursor of the page before it, and the page that is
    done is the last. *)
Fixpoint walk (source : Cursor -> Page) (n : nat) (cursor : Cursor) : list Page :=
  match n with
  | O => []
  | S n' =>
      let p := source cursor in
      if page_done p then [p] else p :: walk source n' (page_cursor p)
  end.

(** The source comes to its end within [n] pages from [cursor]. *)
Definition ends_within (source : Cursor -> Page) (n : nat) (cursor : Cursor) : bool :=
  match last (walk source n cursor) with
  | Some p => page_done p
  | None => false
  end.

Lemma mark_returns env key this id sequence entities done cursor w :
  (forall c w, env_fails env c w = None) ->
  fst (mark env key this id sequence entities done cursor w) = Returned tt.
Proof.
  intros Hok.
  unfold mark, bind, logger, v4, createMark, createMarkEntities,
    computeRemoved, applyMutation, ret, extern.
  cbn beta iota. rewrite !Hok.
  destruct (0 <? length entities)%nat, done; cbn; rewrite ?Hok; cbn; rewrite ?Hok;
    reflexivity.
Qed.

Lemma walk_head source n cursor :
  walk source (S n) cursor = source cursor :: tl (walk source (S n) cursor).
Proof. cbn. destruct (page_done (source cursor)); reflexivity. Qed.

Lemma walk_step source n cursor :
  page_done (source cursor) = false ->
  walk source (S n) cursor = source cursor :: walk source n (page_cursor (source cursor)).
Proof. intros H. cbn. rewrite H. reflexivity. Qed.

Lemma walk_stop source n cursor :
  page_done (source cursor) = true -> walk source (S n) cursor = [source cursor].
Proof. intros H. cbn. rewrite H. reflexivity. Qed.

Lemma ends_within_step source n cursor :
  page_done (source cursor) = false ->
  ends_within source (S (S n)) cursor
  = ends_within source (S n) (page_cursor (source cursor)).
Proof.
  intros H. unfold ends_within. rewrite (walk_step _ _ _ H), last_cons.
  rewrite (walk_head source n (page_cursor (source cursor))), last_cons.
  destruct (last (tl _)); reflexivity.
Qed.

Lemma burst_loop_walks env key this source id :
  (forall c w, env_fails env c w = None) ->
  (forall w, env_aborted env w = false) ->
  (forall c w, env_next env c w = source c) ->
  forall n fuel cursor sequence count w,
    ends_within source (S n) cursor = true ->
    (S n <= fuel)%nat ->
    exists w',
      burst_loop env key this fuel id sequence count (source cursor) w
      = (Returned (true, count + Z.of_nat (length (tl (walk source (S n) cursor)))), w')
      /\ fetched w' = fetched w ++ tl (walk source (S n) cursor).
Proof.
  intros Hok Hlive Hsource.
  induction n as [|n IH]; intros fuel cursor sequence count w Hend Hfuel;
    (destruct fuel as [|fuel]; [lia|]); rewrite burst_loop_step;
    pose proof (mark_returns env key this id sequence (page_entities (source cursor))
                  (page_done (source cursor)) (page_cursor (source cursor)) w Hok) as Hm;
    destruct (mark_frame env key this id sequence (page_entities (source cursor))
                (page_done (source cursor)) (page_cursor (source cursor)) w)
      as (_ & _ & Hf);
    destruct (mark env key this id sequence (page_entities (source cursor))
                (page_done (source cursor)) (page_cursor (source cursor)) w) as [rm wm];
    cbn [fst snd] in Hm, Hf; subst rm; rewrite Hlive; cbn [orb].
  - destruct (page_done (source cursor)) eqn:Hd.
    + exists wm. rewrite (walk_stop _ _ _ Hd). cbn. rewrite Z.add_0_r, app_nil_r. auto.
    + unfold ends_within in Hend. rewrite (walk_step _ _ _ Hd) in Hend. cbn in Hend.
      congruence.
  - destruct (page_done (source cursor)) eqn:Hd.
    + exists wm. rewrite (walk_stop _ _ _ Hd). cbn. rewrite Z.add_0_r, app_nil_r. auto.
    + destruct (provider_next_cases env (page_cursor (source cursor)) wm)
        as [(e & F & _) | (_ & E)]; [rewrite Hok in F; discriminate F|].
      rewrite E, Hsource. clear E.
      rewrite (ends_within_step _ _ _ Hd) in Hend.
      destruct (IH fuel (page_cursor (source cursor)) (sequence + 1) (count + 1)
                  (set_fetched (fun l => l ++ [source (page_cursor (source cursor))])
                     (set_calls (fun l => l ++ [Ev (ProviderNext
                                                      (page_cursor (source cursor))) None])
                        wm))
                  Hend ltac:(lia)) as (w' & Hrun & Hfetched).
      exists w'. rewrite Hrun, (walk_step _ _ _ Hd). cbn [tl].
      pose proof (walk_head source n (page_cursor (source cursor))) as Hw.
      set (W := walk source (S n) (page_cursor (source cursor))) in *. clearbody W.
      destruct W as [|q W]; [discriminate Hw|]. injection Hw as ->.
      cbn in Hfetched |- *. rewrite Hfetched, Hf, <- app_assoc.
      split; [|reflexivity]. do 3 f_equal. lia.
Qed.

Lemma ingestOneBurst_walks env key this source n fuel id w :
  (forall c w, env_fails env c w = None) ->
  (forall w, env_aborted env w = false) ->
  (forall c w, env_next env c w = source c) ->
  ends_within source n (resume_cursor id w) = true ->
  (n <= fuel)%nat ->
  exists w',
    ingestOneBurst env key this fuel id w = (Returned true, w')
    /\ fetched w' = fetched w ++ walk source n (resume_cursor id w).
Proof.
  intros Hok Hlive Hsource Hend Hfuel.
  destruct n as [|n]; [discriminate Hend|].
  unfold ingestOneBurst, getLastMark, provider_around.
  unfold bind at 1. rewrite extern_resolves by apply Hok. cbn [fst snd].
  unfold bind at 1, logger at 1. cbn beta iota.
  unfold bind at 1. unfold bind at 1. rewrite extern_resolves by apply Hok.
  cbn [fst snd]. unfold bind at 1.
  match goal with
  | |- context [provider_next env ?c ?w1] =>
      destruct (provider_next_cases env c w1) as [(e & F & _) | (_ & E)];
      [rewrite Hok in F; discriminate F|rewrite E, Hsource; clear E]
  end.
  match goal with
  | |- context [burst_loop env key this fuel id ?s 1 ?q ?w3] =>
      destruct (burst_loop_walks env key this source id Hok Hlive Hsource n fuel
                  (resume_cursor id w) s 1 w3 Hend Hfuel) as (w4 & Hloop & Hf);
      replace (burst_loop env key this fuel id s 1 q w3)
        with (Returned
                (true,
                 1 + Z.of_nat (length (tl (walk source (S n) (resume_cursor id w))))),
              w4) by (symmetry; exact Hloop)
  end.
  unfold bind, logger, ret. cbn.
  eexists. split; [reflexivity|]. cbn. cbn in Hf. rewrite Hf, <- app_assoc.
  rewrite (walk_head source n (resume_cursor id w)) at 2. reflexivity.
Qed.

(** X14: a burst over a source that answers runs to its end.  When no
    call is rejected, the signal is not aborted and the provider reads a
    source that comes to its end within [n] pages from the cursor of the
    last mark, a burst that may loop [n] times or more returns [true]; it
    has fetched the pages of the source from that cursor to the end, each
    once and in order, written one mark for each, numbered on from the
    last mark, and applied one delta for each, the page's entities tagged,
    with an empty removed set for the last page. *)
Theorem source_is_read_to_its_end env key this source n fuel id w :
  (forall c w, env_fails env c w = None) ->
  (forall w, env_aborted env w = false) ->
  (forall c w, env_next env c w = source c) ->
  ends_within source n (resume_cursor id w) = true ->
  (n <= fuel)%nat ->
  exists w' answers,
    ingestOneBurst env key this fuel id w = (Returned true, w')
    /\ fetched w' = fetched w ++ walk source n (resume_cursor id w)
    /\ map mark_key (marks w')
       = map mark_key (marks w)
         ++ page_keys id (resume_sequence id w) (walk source n (resume_cursor id w))
    /\ catalog w'
       = catalog w ++ deltas key this (walk source n (resume_cursor id w)) answers
    /\ Forall2 (delta_of key this) (walk source n (resume_cursor id w))
         (deltas key this (walk source n (resume_cursor id w)) answers)
    /\ exists added,
         last (catalog w') = Some (DeltaMutation added []).
Proof.
  intros Hok Hlive Hsource Hend Hfuel.
  destruct (ingestOneBurst_walks env key this source n fuel id w Hok Hlive Hsource Hend
              Hfuel) as (w' & Hrun & Hf).
  destruct (ingestOneBurst_progress _ _ _ _ _ _ _ _ Hrun)
    as (ps & answers & evs & k & j & Hf' & _ & _ & Hmk & Hcat & _ & _ & Hlen
        & _ & _ & Hj & Hjk & Hk & Hret & _ & _).
  rewrite Hf in Hf'. apply app_inv_head in Hf'. subst ps.
  destruct (Hret true eq_refl) as (Hne & -> & Hlast & Hall & Hans).
  assert (k = length (walk source n (resume_cursor id w))) by lia. subst k.
  rewrite firstn_all in Hmk, Hcat, Hlen.
  exists w', answers. split; [exact Hrun|]. split; [exact Hf|].
  split; [exact Hmk|]. split; [exact Hcat|].
  split; [apply deltas_delta_of, Hlen|].
  destruct (deltas_last key this _ answers (source None) Hne Hall Hans) as [Hdone _].
  rewrite <- (Hlast (source None)) in Hdone.
  destruct (Hdone eq_refl) as [added Hadded].
  exists added. rewrite Hcat, last_app, Hadded. reflexivity.
Qed.

Lemma source_is_read_to_its_end_witness :
  exists w',
    ingestOneBurst quiet_env sample_key sample_engine 5 "run-1" empty_world
    = (Returned true, w')
    /\ fetched w' = [two_pages None; two_pages (Some "page-2")].
Proof.
  destruct (source_is_read_to_its_end quiet_env sample_key sample_engine two_pages 2 5
              "run-1" empty_world (fun _ _ => eq_refl) (fun _ => eq_refl)
              (fun _ _ => eq_refl) eq_refl ltac:(lia))
    as (w' & answers & Hrun & Hf & _).
  exists w'. split; [exact Hrun|exact Hf].
Defined.

(** * The entities of the marks *)

(** Every row of mark entities holds at least one entity and belongs to
    a mark that is in the store. *)
Definition linked (w : World) : Prop :=
  Forall (fun row => snd row <> []
                     /\ exists m, In m (marks w) /\ mark_id m = fst row)
    (mark_entities w).

Lemma linked_same w w' :
  marks w' = marks w -> mark_entities w' = mark_entities w -> linked w -> linked w'.
Proof. unfold linked. intros -> ->. auto. Qed.

Lemma linked_more_marks w w' more :
  marks w' = marks w ++ more -> mark_entities w' = mark_entities w ->
  linked w -> linked w'.
Proof.
  unfold linked. intros -> -> H. eapply Forall_impl; [exact H|].
  intros row [Hne (m & Hin & Hid)]. split; [exact Hne|].
  exists m. split; [apply in_or_app; left; exact Hin|exact Hid].
Qed.

Lemma linked_new_row w w' m entities :
  marks w' = marks w ++ [m] ->
  mark_entities w' = mark_entities w ++ [(mark_id m, entities)] ->
  (0 <? length entities)%nat = true ->
  linked w -> linked w'.
Proof.
  unfold linked. intros -> -> Hlen H. apply Forall_app. split.
  - eapply Forall_impl; [exact H|]. intros row [Hne (m0 & Hin & Hid)].
    split; [exact Hne|].
    exists m0. split; [apply in_or_app; left; exact Hin|exact Hid].
  - constructor; [|constructor]. cbn. split.
    + intros ->. discriminate Hlen.
    + exists m. split; [apply in_or_app; right; left; reflexivity|reflexivity].
Qed.

Lemma linked_mark env key this id sequence entities done cursor w :
  linked w -> linked (snd (mark env key this id sequence entities done cursor w)).
Proof.
  intros H.
  unfold mark, bind, logger, v4, createMark, createMarkEntities,
    computeRemoved, applyMutation, ret.
  cbn beta iota.
  settle_extern; [revert H; apply linked_same; reflexivity|].
  destruct (0 <? length entities)%nat eqn:Hlen.
  - settle_extern;
      [revert H; eapply linked_more_marks; reflexivity|].
    destruct done;
      repeat (settle_extern;
              [revert H; eapply linked_new_row; [reflexivity|reflexivity|exact Hlen]|]);
      (revert H; eapply linked_new_row; [reflexivity|reflexivity|exact Hlen]).
  - destruct done;
      repeat (settle_extern;
              [revert H; eapply linked_more_marks; reflexivity|]);
      (revert H; eapply linked_more_marks; reflexivity).
Qed.

Lemma linked_clear_finished provider w :
  linked w -> linked (Manager.clear_finished provider w).
Proof.
  unfold linked, Manager.clear_finished. cbn. intros H.
  rewrite List.Forall_forall in H |- *. intros row Hin.
  apply filter_In in Hin as [Hin Hkept].
  split; [apply (H row Hin)|].
  apply existsb_exists in Hkept as (m & Hm & Hid).
  exists m. split; [exact Hm|]. apply String.eqb_eq, Hid.
Qed.

Section Kept.

(** A property of the stores that the calls, the log and the history of
    fetched pages do not bear on, and that one page, the purge and the
    writes of ingestion records keep. *)
Variable P : World -> Prop.
Variables (env : Env) (key : string) (this : IncrementalIngestionEngine).
Hypothesis P_calls : forall f w, P w -> P (set_calls f w).
Hypothesis P_logs : forall f w, P w -> P (set_logs f w).
Hypothesis P_fetched : forall f w, P w -> P (set_fetched f w).
Hypothesis P_ingestions : forall f w, P w -> P (set_ingestions f w).
Hypothesis P_mark :
  forall id sequence entities done cursor w,
    P w -> P (snd (mark env key this id sequence entities done cursor w)).
Hypothesis P_purge : forall provider w, P w -> P (Manager.clear_finished provider w).

Lemma burst_loop_kept fuel :
  forall id sequence count next,
    keeps P (burst_loop env key this fuel id sequence count next).
Proof.
  induction fuel as [|fuel IH]; intros id sequence count next.
  - intros w H. exact H.
  - cbn [burst_loop].
    apply keeps_bind; [intros w; apply P_mark|intros _].
    apply keeps_bind; [intros w H; exact H|intros aborted].
    destruct (aborted || page_done next); [apply keeps_ret|].
    apply keeps_bind; [|intros next'; apply IH].
    apply keeps_extern; [exact P_calls|]. intros w. apply P_fetched.
Qed.

Lemma ingestOneBurst_kept fuel id : keeps P (ingestOneBurst env key this fuel id).
Proof.
  unfold ingestOneBurst, getLastMark, provider_around.
  apply keeps_bind; [apply keeps_extern; [exact P_calls|intros w H; exact H]|].
  intros lastMark.
  apply keeps_bind; [apply keeps_logger, P_logs|intros _].
  apply keeps_bind.
  { apply keeps_bind; [apply keeps_extern; [exact P_calls|intros w H; exact H]|].
    intros _. apply keeps_bind; [|intros next; apply burst_loop_kept].
    apply keeps_extern; [exact P_calls|]. intros w. apply P_fetched. }
  intros settled.
  apply keeps_bind; [apply keeps_logger, P_logs|intros _; apply keeps_ret].
Qed.

Lemma taskFn_kept fuel : keeps P (taskFn env key this fuel).
Proof.
  assert (Hrow : forall id f w, P w -> P (snd (tt, Manager.update_row id f w)))
    by (intros id f w; apply P_ingestions).
  unfold taskFn. apply keeps_try_finally; [exact P_logs|].
  apply keeps_try_catch.
  2:{ intros e. apply keeps_bind; [apply keeps_logger, P_logs|intros _; apply keeps_throw]. }
  apply keeps_bind; [apply keeps_logger, P_logs|intros _].
  unfold handleNextAction. apply keeps_bind.
  { apply keeps_extern; [exact P_calls|]. intros w H. exact H. }
  intros _. apply keeps_bind.
  { unfold getCurrentAction. apply keeps_bind.
    { apply keeps_extern; [exact P_calls|]. intros w H. exact H. }
    intros [r|].
    - apply keeps_bind; [apply keeps_logger, P_logs|intros _; apply keeps_ret].
    - apply keeps_bind.
      + apply keeps_extern; [exact P_calls|]. intros w H.
        unfold Manager.create_record.
        destruct (Manager.current_record _ w); [exact H|].
        apply P_ingestions, H.
      + intros [a|]; (apply keeps_bind; [|intros _; apply keeps_ret]);
          [apply keeps_logger, P_logs|apply keeps_ret]. }
  intros [a|]; [|apply keeps_logger, P_logs].
  unfold dispatch.
  destruct (String.eqb (nextAction a) "rest").
  { apply keeps_bind; [intros w H; exact H|]. intros clock.
    destruct (clock >? nextActionAt a); [|apply keeps_logger, P_logs].
    apply keeps_bind.
    { apply keeps_extern; [exact P_calls|]. intros w. apply P_purge. }
    intros _. apply keeps_bind; [apply keeps_logger, P_logs|intros _].
    apply keeps_extern; [exact P_calls|]. apply Hrow. }
  destruct (String.eqb (nextAction a) "ingest").
  { apply keeps_try_catch.
    - unfold ingestTry. apply keeps_bind; [apply keeps_extern; [exact P_calls|apply Hrow]|].
      intros _. apply keeps_bind; [apply ingestOneBurst_kept|].
      intros [|].
      + apply keeps_bind; [apply keeps_logger, P_logs|intros _].
        apply keeps_extern; [exact P_calls|]. intros w. apply Hrow.
      + apply keeps_bind; [|intros _; apply keeps_logger, P_logs].
        apply keeps_extern; [exact P_calls|]. apply Hrow.
    - intros e. unfold ingestCatch, ingestBackoff.
      assert (Hb : keeps P
                     (match currentBackoff this (act_attempts a) with
                      | inl invalid => throw invalid
                      | inr d =>
                          bind (logger Error (BurstError e))
                            (fun _ =>
                               bind (logger Error
                                       (BurstBackoff (ingestionId a) d (truncatedError e)))
                                 (fun _ =>
                                    setProviderBackoff env (ingestionId a)
                                      (act_attempts a) e (as_milliseconds d)))
                      end)).
      { destruct (currentBackoff this (act_attempts a)); [apply keeps_throw|].
        apply keeps_bind; [apply keeps_logger, P_logs|intros _].
        apply keeps_bind; [apply keeps_logger, P_logs|intros _].
        apply keeps_extern; [exact P_calls|]. intros w. apply Hrow. }
      destruct (message e) as [m|]; [|exact Hb].
      destruct (truthy m && String.eqb m "CANCEL"); [|exact Hb].
      apply keeps_bind; [apply keeps_logger, P_logs|intros _].
      apply keeps_extern; [exact P_calls|]. apply Hrow. }
  destruct (String.eqb (nextAction a) "backoff").
  { apply keeps_bind; [intros w H; exact H|]. intros clock.
    destruct (clock >? nextActionAt a); [|apply keeps_logger, P_logs].
    apply keeps_bind; [apply keeps_logger, P_logs|intros _].
    apply keeps_extern; [exact P_calls|]. apply Hrow. }
  destruct (String.eqb (nextAction a) "cancel"); [|apply keeps_logger, P_logs].
  apply keeps_bind; [apply keeps_logger, P_logs|intros _].
  apply keeps_extern; [exact P_calls|]. apply Hrow.
Qed.

End Kept.

(** X11: after any run of ticks, however the ticks settled, every row of
    mark entities in the store holds at least one entity and has the id
    of a mark that is in the store: [mark] writes the entities of a page
    only when the page has some, only after the mark itself was written,
    and under the id it gave the mark. *)
Theorem mark_entities_belong_to_marks env key this schedule :
  forall w0, linked w0 -> linked (run_ticks env key this schedule w0).
Proof.
  induction schedule as [|[fuel t] rest IH]; intros w0 H; [exact H|].
  cbn [run_ticks]. apply IH.
  apply (taskFn_kept linked env key this).
  - intros f w. apply linked_same; reflexivity.
  - intros f w. apply linked_same; reflexivity.
  - intros f w. apply linked_same; reflexivity.
  - intros f w. apply linked_same; reflexivity.
  - intros id sequence entities done cursor w. apply linked_mark.
  - apply linked_clear_finished.
  - revert H. apply linked_same; reflexivity.
Qed.

Lemma mark_entities_belong_to_marks_witness :
  linked (run_ticks quiet_env sample_key sample_engine [(1%nat, 10); (3%nat, 20)]
            empty_world)
  /\ map snd (mark_entities
                (run_ticks quiet_env sample_key sample_engine [(1%nat, 10); (3%nat, 20)]
                   empty_world))
     = [[component "a"; component "b"; component "c"]; [component "d"; component "e"]].
Proof.
  split.
  - apply (mark_entities_belong_to_marks quiet_env sample_key sample_engine
             [(1%nat, 10); (3%nat, 20)] empty_world).
    constructor.
  - vm_compute. reflexivity.
Defined.

(** * Creating the record *)

Definition creation (ev : Event) : bool :=
  match ev_call ev with
  | CreateProviderIngestionRecord _ => true
  | _ => false
  end.

Lemma tried_creates_nothing key this id evs r :
  tried key this id evs r -> Forall (fun ev => creation ev = false) evs.
Proof.
  assert (Hb : forall bevs, Forall (burst_event key this) bevs ->
                 Forall (fun ev => creation ev = false) bevs).
  { intros bevs H. eapply Forall_impl; [exact H|]. intros ev Hev.
    unfold burst_event in Hev. unfold creation.
    destruct (ev_call ev); first [reflexivity|contradiction]. }
  intros [e|bevs r' Hall _|bevs done f Hall].
  - repeat constructor.
  - constructor; [reflexivity|apply Hb, Hall].
  - constructor; [reflexivity|]. apply Forall_app. split; [apply Hb, Hall|].
    constructor; [destruct done; reflexivity|constructor].
Qed.

Lemma dispatched_creates_nothing key this a evs r :
  dispatched key this a evs r -> Forall (fun ev => creation ev = false) evs.
Proof.
  intros [Hni|e Hrest|f Hrest|f Hback|f Hcancel|tevs r' Hingest Htried Hnot
          |tevs hevs e r' Hingest Htried Hcaught]; try solve [repeat constructor].
  - apply (tried_creates_nothing _ _ _ _ _ Htried).
  - apply Forall_app. split; [apply (tried_creates_nothing _ _ _ _ _ Htried)|].
    destruct Hcaught; repeat constructor.
Qed.

(** X18: a tick asks the store to create an ingestion record only when
    the read of the current record resolved and found none, and then
    once, right after the read; when the read found a record, the tick
    calls no creation and acts on the record found: on its id, its next
    action, its attempts and its next-action time. *)
Theorem record_is_created_only_when_missing env key this fuel w r w' evs :
  handleNextAction env key this fuel w = (r, w') ->
  calls w' = calls w ++ evs ->
  (forall ev, In ev evs -> creation ev = true ->
     Manager.current_record (providerName (options this)) w = None
     /\ exists f rest,
          ev = Ev (CreateProviderIngestionRecord (providerName (options this))) f
          /\ evs = Ev AwaitReady None
                   :: Ev (GetCurrentIngestionRecord (providerName (options this))) None
                   :: ev :: rest
          /\ Forall (fun ev' => creation ev' = false) rest)
  /\ (forall found,
        Manager.current_record (providerName (options this)) w = Some found ->
        Forall (fun ev => creation ev = false) evs
        /\ (In (Ev (GetCurrentIngestionRecord (providerName (options this))) None) evs ->
            exists devs,
              evs = Ev AwaitReady None
                    :: Ev (GetCurrentIngestionRecord (providerName (options this))) None
                    :: devs
              /\ dispatched key this
                   {| ingestionId := rec_id found; nextAction := next_action found;
                      act_attempts := attempts found;
                      nextActionAt := next_action_at found |} devs r)).
Proof.
  unfold handleNextAction, ready, getCurrentAction, getCurrentIngestionRecord,
    createProviderIngestionRecord.
  unfold bind at 1. settle_extern.
  { intros [= <- <-] Hcalls. cbn in Hcalls. apply app_inv_head in Hcalls. subst evs.
    split.
    - intros ev [<-|[]] Hc. discriminate Hc.
    - intros found _. split; [repeat constructor|].
      intros [Heq|[]]. discriminate Heq. }
  unfold bind at 1. unfold bind at 1. settle_extern.
  { intros [= <- <-] Hcalls. cbn in Hcalls. rewrite <- app_assoc in Hcalls.
    apply app_inv_head in Hcalls. subst evs. split.
    - intros ev [<-|[<-|[]]] Hc; discriminate Hc.
    - intros found _. split; [repeat constructor|].
      intros [Heq|[Heq|[]]]; discriminate Heq. }
  assert (Hsame : forall f g,
            Manager.current_record (providerName (options this))
              (set_calls f (set_calls g w))
            = Manager.current_record (providerName (options this)) w) by reflexivity.
  rewrite Hsame.
  destruct (Manager.current_record (providerName (options this)) w) as [r0|] eqn:Hcur.
  - unfold bind at 1, logger at 1, ret. cbn beta iota.
    intros Hd Hcalls.
    destruct (dispatch_dispatched _ _ _ _ _ _ _ _ Hd) as (devs & Hcalls' & Hdisp).
    cbn in Hcalls'. rewrite <- !app_assoc in Hcalls'. rewrite Hcalls' in Hcalls.
    apply app_inv_head in Hcalls. subst evs.
    pose proof (dispatched_creates_nothing _ _ _ _ _ Hdisp) as Hnone.
    split.
    + intros ev [<-|[<-|Hin]] Hc; try discriminate Hc.
      rewrite List.Forall_forall in Hnone. rewrite (Hnone ev Hin) in Hc. discriminate Hc.
    + intros found [= <-]. split.
      * constructor; [reflexivity|]. constructor; [reflexivity|exact Hnone].
      * intros _. exists devs. split; [reflexivity|exact Hdisp].
  - unfold bind at 1. unfold bind at 1. settle_extern.
    { intros [= <- <-] Hcalls. cbn in Hcalls. rewrite <- !app_assoc in Hcalls.
      apply app_inv_head in Hcalls. subst evs. split; [|discriminate].
      intros ev [<-|[<-|[<-|[]]]] Hc; try discriminate Hc.
      split; [reflexivity|]. exists (Some e), []. repeat split. constructor. }
    match goal with
    | |- context [Manager.create_record ?i ?p ?wl] =>
        destruct (Manager.create_record i p wl) as [[a|] wc] eqn:Hcreate
    end; cbn [fst snd].
    + unfold logger at 1, ret. cbn beta iota.
      intros Hd Hcalls.
      destruct (dispatch_dispatched _ _ _ _ _ _ _ _ Hd) as (devs & Hcalls' & Hdisp).
      assert (Hwc : calls wc = calls w ++ [Ev AwaitReady None;
                Ev (GetCurrentIngestionRecord (providerName (options this))) None;
                Ev (CreateProviderIngestionRecord (providerName (options this))) None]).
      { unfold Manager.create_record in Hcreate.
        destruct (Manager.current_record _ _); [discriminate Hcreate|].
        injection Hcreate as _ <-. cbn. rewrite <- !app_assoc. reflexivity. }
      cbn in Hcalls'. rewrite Hwc, <- !app_assoc in Hcalls'. rewrite Hcalls' in Hcalls.
      apply app_inv_head in Hcalls. subst evs.
      pose proof (dispatched_creates_nothing _ _ _ _ _ Hdisp) as Hnone.
      split; [|discriminate].
      intros ev [<-|[<-|[<-|Hin]]] Hc; try discriminate Hc.
      * split; [reflexivity|]. exists None, devs. repeat split. exact Hnone.
      * rewrite List.Forall_forall in Hnone. rewrite (Hnone ev Hin) in Hc.
        discriminate Hc.
    + unfold ret, logger. cbn. intros [= <- <-] Hcalls.
      assert (Hwc : calls wc = calls w ++ [Ev AwaitReady None;
                Ev (GetCurrentIngestionRecord (providerName (options this))) None;
                Ev (CreateProviderIngestionRecord (providerName (options this))) None]).
      { unfold Manager.create_record in Hcreate.
        destruct (Manager.current_record _ _); [|discriminate Hcreate].
        injection Hcreate as <-. cbn. rewrite <- !app_assoc. reflexivity. }
      cbn in Hcalls. rewrite Hwc in Hcalls.
      apply app_inv_head in Hcalls. subst evs. split; [|discriminate].
      intros ev [<-|[<-|[<-|[]]]] Hc; try discriminate Hc.
      split; [reflexivity|]. exists None, []. repeat split. constructor.
Qed.

Lemma record_is_created_only_when_missing_witness :
  Forall (fun ev => creation ev = false)
    (calls (snd (handleNextAction quiet_env sample_key sample_engine 3 ingesting_world))).
Proof.
  set (run := handleNextAction quiet_env sample_key sample_engine 3 ingesting_world).
  assert (Hrun : run = (fst run, snd run)) by (vm_compute; reflexivity).
  assert (Hcalls : calls (snd run) = calls ingesting_world ++ calls (snd run))
    by (vm_compute; reflexivity).
  assert (Hcur : Manager.current_record (providerName (options sample_engine))
                   ingesting_world
                 = Some {| rec_id := "run-1"; provider_name := "github";
                           next_action := "ingest"; next_action_at := 0; attempts := 7;
                           status := "interstitial"; last_error := None;
                           completed := false |}) by (vm_compute; reflexivity).
  destruct (record_is_created_only_when_missing _ _ _ _ _ _ _ _ Hrun Hcalls)
    as [_ Hfound].
  destruct (Hfound _ Hcur) as [Hnone _]. exact Hnone.
Defined.

(** * A tick over a source that answers *)

(** X23: a tick on a record that is to ingest, over a source that
    answers: when no call is rejected, the signal is not aborted and the
    source comes to its end within [n] pages of the cursor of the
    ingestion's last mark, one tick that may loop [n] times or more
    returns normally, has fetched the pages of the source up to its end
    and applied one delta for each, and leaves the record at rest, due at
    now plus the rest length, with no failed attempt counted. *)
Theorem tick_ingests_a_source_that_answers env key this source n fuel r w :
  (forall c w, env_fails env c w = None) ->
  (forall w, env_aborted env w = false) ->
  (forall c w, env_next env c w = source c) ->
  Manager.current_record (providerName (options this)) w = Some r ->
  next_action r = "ingest" ->
  ends_within source n (resume_cursor (rec_id r) w) = true ->
  (n <= fuel)%nat ->
  exists w' r',
    taskFn env key this fuel w = (Returned tt, w')
    /\ fetched w' = fetched w ++ walk source n (resume_cursor (rec_id r) w)
    /\ length (catalog w')
       = (length (catalog w) + length (walk source n (resume_cursor (rec_id r) w)))%nat
    /\ length (marks w')
       = (length (marks w) + length (walk source n (resume_cursor (rec_id r) w)))%nat
    /\ Manager.current_record (providerName (options this)) w' = Some r'
    /\ rec_id r' = rec_id r
    /\ next_action r' = "rest"
    /\ next_action_at r' = now w + as_milliseconds (restLength this)
    /\ attempts r' = 0.
Proof.
  intros Hok Hlive Hsource Hcur Hingest Hend Hfuel.
  set (wb := set_logs (fun l => l ++ [(Debug, BeginTick)]) w).
  set (a := {| ingestionId := rec_id r; nextAction := next_action r;
               act_attempts := attempts r; nextActionAt := next_action_at r |}).
  set (wa := set_calls (fun l => l ++ [Ev AwaitReady None]) wb).
  set (w0 := set_logs (fun l => l ++ [(Info, RecordFound (rec_id r))])
               (set_calls (fun l => l ++ [Ev (GetCurrentIngestionRecord
                                                (providerName (options this))) None])
                  wa)).
  set (w1 := Manager.update_row (rec_id r) Manager.bursting
               (set_calls (fun l => l ++ [Ev (SetProviderBursting (rec_id r)) None]) w0)).
  assert (Hready : ready env wb = (Returned tt, wa)).
  { unfold ready. rewrite extern_resolves by apply Hok. reflexivity. }
  assert (Hact : getCurrentAction env this wa = (Returned (Some a), w0)).
  { unfold getCurrentAction, getCurrentIngestionRecord.
    unfold bind at 1. rewrite extern_resolves by apply Hok. cbn [fst snd].
    replace (Manager.current_record (providerName (options this)) _) with (Some r)
      by (rewrite <- Hcur; reflexivity).
    reflexivity. }
  assert (Hburst : setProviderBursting env (ingestionId a) w0 = (Returned tt, w1)).
  { unfold setProviderBursting. rewrite extern_resolves by apply Hok. reflexivity. }
  assert (Hmarks : marks w1 = marks w) by reflexivity.
  destruct (resume_same_marks (rec_id r) w w1 Hmarks) as (Hrc & Hrs).
  rewrite <- Hrc in Hend |- *.
  destruct (ingestOneBurst_walks env key this source n fuel (rec_id r) w1 Hok Hlive
              Hsource Hend Hfuel) as (w2 & Hrun & Hf).
  destruct (tick_after_burst env key this fuel wb wa a w0 w1 true w2 Hready Hact Hingest
              Hburst Hrun (fun w => Hok _ w))
    as (w3 & r' & Htick & Hcalls & Hm & Hc & Hcur' & Hid & Hat & Hrest & _).
  destruct (Hrest eq_refl) as (Hna & Hnaa).
  destruct (ingestOneBurst_progress _ _ _ _ _ _ _ _ Hrun)
    as (ps & answers & evs & k & j & Hf' & _ & _ & Hmk & Hcat & _ & _ & Hlen
        & _ & Hnow & Hj & Hjk & Hk & Hret & _ & _).
  rewrite Hf in Hf'. apply app_inv_head in Hf'. subst ps.
  destruct (Hret true eq_refl) as (_ & -> & _).
  assert (k = length (walk source n (resume_cursor (rec_id r) w1))) by lia. subst k.
  rewrite firstn_all in Hmk, Hcat, Hlen.
  assert (Hlog : log_extends w2 w3 /\ fetched w3 = fetched w2 /\ now w3 = now w2).
  { revert Htick. unfold handleNextAction.
    rewrite (bind_returned _ _ _ _ _ Hready), (bind_returned _ _ _ _ _ Hact).
    rewrite (dispatch_ingest env key this fuel a _ Hingest). unfold try_catch, ingestTry.
    rewrite (bind_returned _ _ _ _ _ Hburst), (bind_returned _ _ _ _ _ Hrun).
    unfold bind, logger, setProviderResting. rewrite extern_resolves by apply Hok.
    cbn. intros [= <-]. cbn. split; [eexists; reflexivity|auto]. }
  destruct Hlog as (_ & Hf3 & Hnow3).
  exists (set_logs (fun l => l ++ [(Debug, EndTick)]) w3), r'.
  split.
  { unfold taskFn, try_finally, try_catch. unfold bind at 1, logger at 1.
    cbn beta iota. fold wb. rewrite Htick. reflexivity. }
  cbn. rewrite Hf3, Hf, Hc, Hm, Hcat, length_app, Hlen.
  split; [reflexivity|]. split; [reflexivity|]. split.
  { apply (f_equal (@length _)) in Hmk.
    rewrite length_app, !length_map, length_page_keys in Hmk. rewrite Hmk, Hmarks.
    reflexivity. }
  split; [exact Hcur'|]. split; [exact Hid|]. split; [exact Hna|].
  split; [|exact Hat]. rewrite Hnaa, Hnow3, Hnow. reflexivity.
Qed.

Lemma tick_ingests_a_source_that_answers_witness :
  exists w' r',
    taskFn quiet_env sample_key sample_engine 3 ingesting_world = (Returned tt, w')
    /\ Manager.current_record "github" w' = Some r'
    /\ next_action r' = "rest"
    /\ next_action_at r' = 1000 + 3600000.
Proof.
  destruct (tick_ingests_a_source_that_answers quiet_env sample_key sample_engine
              two_pages 2 3
              {| rec_id := "run-1"; provider_name := "github"; next_action := "ingest";
                 next_action_at := 0; attempts := 7; status := "interstitial";
                 last_error := None; completed := false |}
              ingesting_world (fun _ _ => eq_refl) (fun _ => eq_refl)
              (fun _ _ => eq_refl) eq_refl eq_refl eq_refl ltac:(lia))
    as (w' & r' & Hrun & _ & _ & _ & Hcur & _ & Hna & Hat & _).
  exists w', r'. split; [exact Hrun|]. split; [exact Hcur|]. split; [exact Hna|].
  exact Hat.
Defined.

(** * Ticks that are cut short *)

Lemma ingestOneBurst_one_page env key this source fuel id w :
  (forall c w, env_fails env c w = None) ->
  (forall w, env_aborted env w = true) ->
  (forall c w, env_next env c w = source c) ->
  exists w',
    ingestOneBurst env key this (S fuel) id w
    = (Returned (page_done (source (resume_cursor id w))), w')
    /\ fetched w' = fetched w ++ [source (resume_cursor id w)]
    /\ map mark_key (marks w')
       = map mark_key (marks w)
         ++ [(id, resume_sequence id w, page_cursor (source (resume_cursor id w)))]
    /\ length (catalog w') = S (length (catalog w)).
Proof.
  intros Hok Habort Hsource.
  assert (Hrun : exists w',
            ingestOneBurst env key this (S fuel) id w
            = (Returned (page_done (source (resume_cursor id w))), w')
            /\ fetched w' = fetched w ++ [source (resume_cursor id w)]).
  { unfold ingestOneBurst, getLastMark, provider_around.
    unfold bind at 1. rewrite extern_resolves by apply Hok. cbn [fst snd].
    unfold bind at 1, logger at 1. cbn beta iota.
    unfold bind at 1. unfold bind at 1. rewrite extern_resolves by apply Hok.
    cbn [fst snd]. unfold bind at 1.
    match goal with
    | |- context [provider_next env ?c ?w1] =>
        destruct (provider_next_cases env c w1) as [(e & F & _) | (_ & E)];
        [rewrite Hok in F; discriminate F|rewrite E, Hsource; clear E]
    end.
    match goal with
    | |- context [burst_loop env key this (S fuel) id ?s 1 ?q ?w3] =>
        destruct (burst_loop_aborted env key this fuel id s 1 q w3 Habort)
          as (Hsettles & Hfetched & Hreturned);
        pose proof (mark_returns env key this id s (page_entities q) (page_done q)
                      (page_cursor q) w3 Hok) as Hmark;
        rewrite burst_loop_step in Hsettles, Hfetched, Hreturned |- *;
        destruct (mark env key this id s (page_entities q) (page_done q)
                    (page_cursor q) w3) as [rm wm]
    end.
    cbn [fst] in Hmark. subst rm. rewrite Habort in *. cbn [orb fst snd] in *.
    unfold bind, logger, ret. cbn.
    eexists. split; [reflexivity|]. cbn. rewrite Hfetched. reflexivity. }
  destruct Hrun as (w' & Hrun & Hf). exists w'.
  split; [exact Hrun|]. split; [exact Hf|].
  destruct (ingestOneBurst_progress _ _ _ _ _ _ _ _ Hrun)
    as (ps & answers & evs & k & j & Hf' & _ & _ & Hmk & Hcat & _ & _ & Hlen
        & _ & _ & Hj & Hjk & Hk & Hret & _ & _).
  rewrite Hf in Hf'. apply app_inv_head in Hf'. subst ps.
  destruct (Hret _ eq_refl) as (_ & -> & _). cbn [length] in *.
  assert (k = 1%nat) by lia. subst k. cbn in Hmk.
  split; [exact Hmk|]. rewrite Hcat, length_app, Hlen. lia.
Qed.

Lemma tick_one_page env key this source fuel t r w :
  (forall c w, env_fails env c w = None) ->
  (forall w, env_aborted env w = true) ->
  (forall c w, env_next env c w = source c) ->
  Manager.current_record (providerName (options this)) w = Some r ->
  next_action r = "ingest" ->
  let p := source (resume_cursor (rec_id r) w) in
  let w' := snd (taskFn env key this (S fuel) (set_now t w)) in
  fetched w' = fetched w ++ [p]
  /\ map mark_key (marks w')
     = map mark_key (marks w) ++ [(rec_id r, resume_sequence (rec_id r) w, page_cursor p)]
  /\ length (catalog w') = S (length (catalog w))
  /\ exists r',
       Manager.current_record (providerName (options this)) w' = Some r'
       /\ rec_id r' = rec_id r
       /\ next_action r' = (if page_done p then "rest" else "ingest").
Proof.
  intros Hok Habort Hsource Hcur Hingest. cbv zeta.
  set (wb := set_logs (fun l => l ++ [(Debug, BeginTick)]) (set_now t w)).
  set (a := {| ingestionId := rec_id r; nextAction := next_action r;
               act_attempts := attempts r; nextActionAt := next_action_at r |}).
  set (wa := set_calls (fun l => l ++ [Ev AwaitReady None]) wb).
  set (w0 := set_logs (fun l => l ++ [(Info, RecordFound (rec_id r))])
               (set_calls (fun l => l ++ [Ev (GetCurrentIngestionRecord
                                                (providerName (options this))) None])
                  wa)).
  set (w1 := Manager.update_row (rec_id r) Manager.bursting
               (set_calls (fun l => l ++ [Ev (SetProviderBursting (rec_id r)) None]) w0)).
  assert (Hready : ready env wb = (Returned tt, wa)).
  { unfold ready. rewrite extern_resolves by apply Hok. reflexivity. }
  assert (Hact : getCurrentAction env this wa = (Returned (Some a), w0)).
  { unfold getCurrentAction, getCurrentIngestionRecord.
    unfold bind at 1. rewrite extern_resolves by apply Hok. cbn [fst snd].
    replace (Manager.current_record (providerName (options this)) _) with (Some r)
      by (rewrite <- Hcur; reflexivity).
    reflexivity. }
  assert (Hburst : setProviderBursting env (ingestionId a) w0 = (Returned tt, w1)).
  { unfold setProviderBursting. rewrite extern_resolves by apply Hok. reflexivity. }
  assert (Hmarks : marks w1 = marks w) by reflexivity.
  destruct (resume_same_marks (rec_id r) w w1 Hmarks) as (Hrc & Hrs).
  destruct (ingestOneBurst_one_page env key this source fuel (rec_id r) w1 Hok Habort
              Hsource) as (w2 & Hrun & Hf & Hmk & Hcat).
  rewrite Hrc in Hrun, Hf, Hmk. rewrite Hrs in Hmk.
  destruct (tick_after_burst env key this (S fuel) wb wa a w0 w1 _ w2 Hready Hact Hingest
              Hburst Hrun (fun w => Hok _ w))
    as (w3 & r' & Htick & _ & Hm & Hc & Hcur' & Hid & _ & Hrest & Hgo).
  assert (Hf3 : fetched w3 = fetched w2).
  { revert Htick. unfold handleNextAction.
    rewrite (bind_returned _ _ _ _ _ Hready), (bind_returned _ _ _ _ _ Hact).
    rewrite (dispatch_ingest env key this (S fuel) a _ Hingest).
    unfold try_catch, ingestTry.
    rewrite (bind_returned _ _ _ _ _ Hburst), (bind_returned _ _ _ _ _ Hrun).
    destruct (page_done (source (resume_cursor (rec_id r) w)));
      unfold bind, logger, setProviderResting, setProviderInterstitial;
      rewrite extern_resolves by apply Hok; cbn; intros [= <-]; reflexivity. }
  assert (Htask : taskFn env key this (S fuel) (set_now t w)
                  = (Returned tt, set_logs (fun l => l ++ [(Debug, EndTick)]) w3)).
  { unfold taskFn, try_finally, try_catch. unfold bind at 1, logger at 1.
    cbn beta iota. fold wb. rewrite Htick. reflexivity. }
  rewrite Htask. cbn. rewrite Hf3, Hf, Hm, Hmk, Hc, Hcat, Hmarks.
  split; [reflexivity|]. split; [reflexivity|]. split; [reflexivity|].
  exists r'. split; [exact Hcur'|]. split; [exact Hid|].
  destruct (page_done (source (resume_cursor (rec_id r) w)));
    [apply Hrest|apply Hgo]; reflexivity.
Qed.

(** X24: ticks that are each cut short after one page take the source
    page by page.  When no call is rejected, the signal is aborted all
    along and the source has not come to its end before its [k]-th page
    from the cursor of the ingestion's last mark, [k] ticks on a record
    that is to ingest (of any positive bound, at any times) fetch exactly
    those [k] pages, each once and in order, each tick resuming at the
    cursor of the page the tick before it marked; they leave one mark for
    each page, numbered on from the last mark, and one delta for each in
    the target store. *)
Theorem cut_short_ticks_take_the_source_in_order env key this source schedule :
  (forall c w, env_fails env c w = None) ->
  (forall w, env_aborted env w = true) ->
  (forall c w, env_next env c w = source c) ->
  Forall (fun tick => (0 < fst tick)%nat) schedule ->
  forall r w,
    Manager.current_record (providerName (options this)) w = Some r ->
    next_action r = "ingest" ->
    length (walk source (length schedule) (resume_cursor (rec_id r) w)) = length schedule ->
    let pages := walk source (length schedule) (resume_cursor (rec_id r) w) in
    let w' := run_ticks env key this schedule w in
    fetched w' = fetched w ++ pages
    /\ map mark_key (marks w')
       = map mark_key (marks w) ++ page_keys (rec_id r) (resume_sequence (rec_id r) w) pages
    /\ length (catalog w') = (length (catalog w) + length pages)%nat.
Proof.
  intros Hok Habort Hsource Hfuel.
  induction Hfuel as [|[fuel t] rest Hpos _ IH]; intros r w Hcur Hingest Hlen; cbv zeta.
  - cbn. rewrite !app_nil_r. auto.
  - cbn [fst] in Hpos. destruct fuel as [|fuel]; [lia|].
    cbn [run_ticks length] in *.
    destruct (tick_one_page env key this source fuel t r w Hok Habort Hsource Hcur Hingest)
      as (Hf & Hmk & Hcat & r' & Hcur' & Hid & Hna).
    set (p := source (resume_cursor (rec_id r) w)) in *.
    set (w1 := snd (taskFn env key this (S fuel) (set_now t w))) in *.
    destruct (resume_after_keys _ _ _ _ _ Hmk) as (Hrc & Hrs).
    destruct (page_done p) eqn:Hd.
    + rewrite (walk_stop _ _ _ Hd) in Hlen |- *. cbn in Hlen.
      destruct rest; [|discriminate Hlen]. cbn.
      rewrite Hf, Hmk, Hcat. split; [reflexivity|]. split; [reflexivity|lia].
    + rewrite (walk_step _ _ _ Hd) in Hlen |- *. cbn [length] in Hlen.
      fold p in Hlen |- *. rewrite <- Hrc, <- Hid in Hlen |- *.
      destruct (IH r' w1 Hcur' Hna ltac:(lia)) as (Hf' & Hmk' & Hcat').
      rewrite Hf', Hmk', Hcat', Hf, Hmk, Hcat, Hid, Hrs, <- !app_assoc.
      cbn [length page_keys app].
      split; [reflexivity|]. split; [reflexivity|lia].
Qed.

(** The signal is aborted all along and the source has three pages. *)
Definition hurried_env : Env :=
  {| env_fails := fun _ _ => None;
     env_next := fun cursor _ => three_pages cursor;
     env_aborted := fun _ => true;
     env_removed := fun _ _ _ => [];
     env_uuid := fun _ => "6f1c" |}.

Lemma cut_short_ticks_take_the_source_in_order_witness :
  map page_cursor
    (fetched (run_ticks hurried_env sample_key sample_engine
                [(1%nat, 10); (4%nat, 20); (2%nat, 30)] ingesting_world))
  = [Some "2"; Some "3"; Some "end"].
Proof.
  destruct (cut_short_ticks_take_the_source_in_order hurried_env sample_key sample_engine
              three_pages [(1%nat, 10); (4%nat, 20); (2%nat, 30)]
              (fun _ _ => eq_refl) (fun _ => eq_refl) (fun _ _ => eq_refl)
              ltac:(repeat constructor; cbn; lia)
              {| rec_id := "run-1"; provider_name := "github"; next_action := "ingest";
                 next_action_at := 0; attempts := 7; status := "interstitial";
                 last_error := None; completed := false |}
              ingesting_world eq_refl eq_refl eq_refl) as (Hf & _).
  rewrite Hf. reflexivity.
Defined.

(** * Calls made one after the other *)

(** The calls of a computation that has settled as [r]: when it threw,
    the last call was rejected with what it threw; every other call
    resolved. *)
Definition in_order {A : Type} (evs : list Event) (r : outcome A) : Prop :=
  match r with
  | Threw e =>
      exists pre c,
        evs = pre ++ [Ev c (Some e)] /\ Forall (fun ev => resolved ev = true) pre
  | _ => Forall (fun ev => resolved ev = true) evs
  end.

(** The computation makes its calls one after the other, each when the
    calls before it have resolved, and throws only what a call was
    rejected with. *)
Definition orderly {A : Type} (m : M A) : Prop :=
  forall w, exists evs, calls (snd (m w)) = calls w ++ evs /\ in_order evs (fst (m w)).

Lemma orderly_silent {A : Type} (m : M A) :
  (forall w, calls (snd (m w)) = calls w /\ forall e, fst (m w) <> Threw e) ->
  orderly m.
Proof.
  intros H w. destruct (H w) as [Hc Hr]. exists []. rewrite app_nil_r.
  split; [exact Hc|].
  destruct (fst (m w)) as [a|e|]; [constructor|destruct (Hr e eq_refl)|constructor].
Qed.

Lemma orderly_ret {A : Type} (a : A) : orderly (ret a).
Proof. apply orderly_silent. intros w. split; [reflexivity|discriminate]. Qed.

Lemma orderly_logger level msg : orderly (logger level msg).
Proof. apply orderly_silent. intros w. split; [reflexivity|discriminate]. Qed.

Lemma orderly_extern {A : Type} env c (effect : World -> A * World) :
  (forall w, calls (snd (effect w)) = calls w) -> orderly (extern env c effect).
Proof.
  intros He w. unfold extern. destruct (env_fails env c w) as [e|]; cbn.
  - exists [Ev c (Some e)]. split; [reflexivity|]. exists [], c. split; [reflexivity|constructor].
  - specialize (He (set_calls (fun l => l ++ [Ev c None]) w)).
    destruct (effect _) as [a w2]. cbn in *. exists [Ev c None].
    split; [exact He|]. repeat constructor.
Qed.

Lemma orderly_bind {A B : Type} (m : M A) (k : A -> M B) :
  orderly m -> (forall a, orderly (k a)) -> orderly (bind m k).
Proof.
  intros Hm Hk w. unfold bind. destruct (Hm w) as (evs1 & Hc1 & Ho1).
  destruct (m w) as [[a|e|] w1]; cbn [fst snd] in *.
  - destruct (Hk a w1) as (evs2 & Hc2 & Ho2). exists (evs1 ++ evs2).
    rewrite Hc2, Hc1, <- app_assoc. split; [reflexivity|].
    destruct (fst (k a w1)) as [b|e|]; cbn in *.
    + apply Forall_app. auto.
    + destruct Ho2 as (pre & c & -> & Hpre). exists (evs1 ++ pre), c.
      rewrite <- app_assoc. split; [reflexivity|]. apply Forall_app. auto.
    + apply Forall_app. auto.
  - exists evs1. auto.
  - exists evs1. auto.
Qed.

Section Orderly.

Variable env : Env.
Variable key : string.
Variable this : IncrementalIngestionEngine.

Lemma orderly_mark id sequence entities done cursor :
  orderly (mark env key this id sequence entities done cursor).
Proof.
  unfold mark.
  apply orderly_bind; [apply orderly_logger|intros _].
  apply orderly_bind; [apply orderly_silent; intros w; split; [reflexivity|discriminate]|].
  intros markId.
  apply orderly_bind; [apply orderly_extern; reflexivity|intros _].
  apply orderly_bind.
  { destruct (0 <? length entities)%nat;
      [apply orderly_extern; reflexivity|apply orderly_ret]. }
  intros _. apply orderly_bind.
  { destruct done; [apply orderly_ret|apply orderly_extern; reflexivity]. }
  intros removed. apply orderly_extern. reflexivity.
Qed.

Lemma orderly_burst_loop fuel :
  forall id sequence count next,
    orderly (burst_loop env key this fuel id sequence count next).
Proof.
  induction fuel as [|fuel IH]; intros id sequence count next.
  - apply orderly_silent. intros w. split; [reflexivity|discriminate].
  - cbn [burst_loop].
    apply orderly_bind; [apply orderly_mark|intros _].
    apply orderly_bind;
      [apply orderly_silent; intros w; split; [reflexivity|discriminate]|].
    intros aborted.
    destruct (aborted || page_done next); [apply orderly_ret|].
    apply orderly_bind; [apply orderly_extern; reflexivity|intros next'; apply IH].
Qed.

Lemma orderly_ingestOneBurst fuel id : orderly (ingestOneBurst env key this fuel id).
Proof.
  unfold ingestOneBurst, getLastMark, provider_around.
  apply orderly_bind; [apply orderly_extern; reflexivity|intros lastMark].
  apply orderly_bind; [apply orderly_logger|intros _].
  apply orderly_bind.
  { apply orderly_bind; [apply orderly_extern; reflexivity|intros _].
    apply orderly_bind; [apply orderly_extern; reflexivity|].
    intros next. apply orderly_burst_loop. }
  intros settled.
  apply orderly_bind; [apply orderly_logger|intros _; apply orderly_ret].
Qed.

Lemma orderly_ingestTry fuel id : orderly (ingestTry env key this fuel id).
Proof.
  unfold ingestTry.
  apply orderly_bind; [apply orderly_extern; reflexivity|intros _].
  apply orderly_bind; [apply orderly_ingestOneBurst|intros [|]].
  - apply orderly_bind; [apply orderly_logger|intros _].
    apply orderly_extern. reflexivity.
  - apply orderly_bind; [apply orderly_extern; reflexivity|intros _].
    apply orderly_logger.
Qed.

(** A call that was rejected is the last call of the computation, and
    what it was rejected with is what the computation throws. *)
Lemma in_order_rejected {A : Type} (evs : list Event) (r : outcome A) c e :
  in_order evs r -> In (Ev c (Some e)) evs ->
  r = Threw e /\ last evs = Some (Ev c (Some e)).
Proof.
  intros Ho Hin.
  assert (Hres : forall l, Forall (fun ev => resolved ev = true) l ->
                   ~ In (Ev c (Some e)) l).
  { intros l Hall H. rewrite List.Forall_forall in Hall.
    specialize (Hall _ H). discriminate Hall. }
  destruct r as [a|e'|]; cbn in Ho.
  - destruct (Hres _ Ho Hin).
  - destruct Ho as (pre & c' & -> & Hpre).
    apply in_app_or in Hin as [Hin|[Heq|[]]]; [destruct (Hres _ Hpre Hin)|].
    injection Heq as -> ->. rewrite last_snoc. auto.
  - destruct (Hres _ Ho Hin).
Qed.

End Orderly.

(** * A tick that ingests *)

(** The calls by which a tick reads the record and moves it around a
    burst that failed. *)
Definition bookkeeping (c : Call) : bool :=
  match c with
  | AwaitReady | GetCurrentIngestionRecord _ | SetProviderBursting _
  | SetProviderBackoff _ _ _ _ | SetProviderIngesting _ => true
  | _ => false
  end.

(** What [getCurrentAction] returns for the record [r]. *)
Definition action_of (r : IngestionRecord) : CurrentAction :=
  {| ingestionId := rec_id r; nextAction := next_action r;
     act_attempts := attempts r; nextActionAt := next_action_at r |}.

(** The world in which a tick started at [t] begins its burst, when it
    has found the record [r] and the store has taken its calls: the wait
    for readiness, the read of the record and [setProviderBursting] are in
    the history, and the record is marked as bursting. *)
Definition burst_world (this : IncrementalIngestionEngine) (r : IngestionRecord)
    (t : Z) (w : World) : World :=
  Manager.update_row (rec_id r) Manager.bursting
    (set_calls (fun l => l ++ [Ev (SetProviderBursting (rec_id r)) None])
       (set_logs (fun l => l ++ [(Info, RecordFound (rec_id r))])
          (set_calls
             (fun l => l ++ [Ev (GetCurrentIngestionRecord (providerName (options this)))
                               None])
             (set_calls (fun l => l ++ [Ev AwaitReady None])
                (set_logs (fun l => l ++ [(Debug, BeginTick)]) (set_now t w)))))).

Section IngestTick.

Variable env : Env.
Variable key : string.
Variable this : IncrementalIngestionEngine.

(** [taskFn] settles as [handleNextAction] does and adds log lines
    only. *)
Lemma taskFn_settles fuel w r w1 :
  handleNextAction env key this fuel (set_logs (fun l => l ++ [(Debug, BeginTick)]) w)
  = (r, w1) ->
  exists f, taskFn env key this fuel w = (r, set_logs f w1).
Proof.
  intros H. unfold taskFn, try_finally, try_catch.
  unfold bind at 1, logger at 1. cbn beta iota. rewrite H.
  destruct r as [[]|e|].
  - eexists. reflexivity.
  - unfold bind, logger, throw. cbn.
    exists (fun l => (l ++ [(Error, TickError (to_template e))]) ++ [(Debug, EndTick)]).
    reflexivity.
  - exists (fun l => l). destruct w1. reflexivity.
Qed.

Lemma ingest_tick_begins t r w :
  (forall c w, bookkeeping c = true -> env_fails env c w = None) ->
  Manager.current_record (providerName (options this)) w = Some r ->
  let wb := set_logs (fun l => l ++ [(Debug, BeginTick)]) (set_now t w) in
  let wa := set_calls (fun l => l ++ [Ev AwaitReady None]) wb in
  let w0 := set_logs (fun l => l ++ [(Info, RecordFound (rec_id r))])
              (set_calls
                 (fun l => l ++ [Ev (GetCurrentIngestionRecord
                                       (providerName (options this))) None]) wa) in
  ready env wb = (Returned tt, wa)
  /\ getCurrentAction env this wa = (Returned (Some (action_of r)), w0)
  /\ setProviderBursting env (rec_id r) w0 = (Returned tt, burst_world this r t w).
Proof.
  intros Hlife Hcur. cbv zeta. split; [|split].
  - unfold ready. rewrite extern_resolves by (apply Hlife; reflexivity). reflexivity.
  - unfold getCurrentAction, getCurrentIngestionRecord.
    unfold bind at 1. rewrite extern_resolves by (apply Hlife; reflexivity).
    cbn [fst snd].
    replace (Manager.current_record (providerName (options this)) _) with (Some r)
      by (rewrite <- Hcur; reflexivity).
    reflexivity.
  - unfold setProviderBursting. rewrite extern_resolves by (apply Hlife; reflexivity).
    reflexivity.
Qed.

(** The [catch] block leaves the marks, the target store and the history
    of pages as they are, and makes no call of a burst. *)
Lemma ingestCatch_stores id tries e w r w' :
  ingestCatch env this id tries e w = (r, w') ->
  exists tail,
    calls w' = calls w ++ tail
    /\ quiet tail
    /\ marks w' = marks w /\ catalog w' = catalog w /\ fetched w' = fetched w.
Proof.
  intros Hrun.
  destruct (ingestCatch_caught _ _ _ _ _ _ _ _ Hrun) as (tail & Hcalls & Hcaught).
  exists tail. split; [exact Hcalls|].
  split; [apply (caught_quiet _ _ _ _ _ _ Hcaught)|].
  revert Hrun. destruct (isCancel e) eqn:Hc.
  - apply isCancel_message in Hc. rewrite (ingestCatch_cancel _ _ _ _ _ _ Hc).
    unfold setProviderCanceling, extern.
    match goal with
    | |- context [env_fails env ?c ?wl] => destruct (env_fails env c wl)
    end; intros [= _ <-]; cbn; auto.
  - rewrite (ingestCatch_other _ _ _ _ _ _ Hc). unfold ingestBackoff.
    destruct (currentBackoff this tries) as [x|d].
    + intros [= _ <-]. auto.
    + unfold bind, logger, setProviderBackoff, extern. cbn.
      match goal with
      | |- context [env_fails env ?c ?wl] => destruct (env_fails env c wl)
      end; intros [= _ <-]; cbn; auto.
Qed.

(** Whatever the burst of a tick comes to, what the tick does after it
    are lifecycle calls only: the marks, the target store and the history
    of pages stay as the burst left them. *)
Lemma tick_after_any_burst fuel w wa a w0 w1 rb w2 r' w' :
  ready env w = (Returned tt, wa) ->
  getCurrentAction env this wa = (Returned (Some a), w0) ->
  nextAction a = "ingest" ->
  setProviderBursting env (ingestionId a) w0 = (Returned tt, w1) ->
  ingestOneBurst env key this fuel (ingestionId a) w1 = (rb, w2) ->
  handleNextAction env key this fuel w = (r', w') ->
  exists tail,
    calls w' = calls w2 ++ tail
    /\ quiet tail
    /\ marks w' = marks w2 /\ catalog w' = catalog w2 /\ fetched w' = fetched w2.
Proof.
  intros Hready Hact Hingest Hburst Hrun.
  rewrite (handleNextAction_dispatch _ _ _ _ _ _ _ _ Hready Hact),
    (dispatch_ingest _ _ _ _ _ _ Hingest).
  unfold try_catch, ingestTry.
  rewrite (bind_returned _ _ _ _ _ Hburst). unfold bind at 1. rewrite Hrun.
  assert (Hcatch : forall c e wx,
            burst_call c = false ->
            marks wx = marks w2 -> catalog wx = catalog w2 -> fetched wx = fetched w2 ->
            calls wx = calls w2 ++ [Ev c (Some e)] ->
            ingestCatch env this (ingestionId a) (act_attempts a) e wx = (r', w') ->
            exists tail,
              calls w' = calls w2 ++ tail
              /\ quiet tail
              /\ marks w' = marks w2 /\ catalog w' = catalog w2
              /\ fetched w' = fetched w2).
  { intros c e wx Hq Hm Hc Hf Hcalls Hh.
    destruct (ingestCatch_stores _ _ _ _ _ _ Hh) as (tail & Ht & Hqt & Hm' & Hc' & Hf').
    exists (Ev c (Some e) :: tail).
    rewrite Ht, Hcalls, <- app_assoc, Hm', Hc', Hf'.
    split; [reflexivity|]. split; [constructor; assumption|auto]. }
  destruct rb as [[|]|e|].
  - unfold bind, logger, setProviderResting. settle_extern.
    + apply (Hcatch (SetProviderResting (ingestionId a) (restLength this))); reflexivity.
    + intros [= _ <-]. eexists. cbn. split; [reflexivity|].
      split; [repeat constructor|auto].
  - unfold bind, logger, setProviderInterstitial. settle_extern.
    + apply (Hcatch (SetProviderInterstitial (ingestionId a))); reflexivity.
    + intros [= _ <-]. eexists. cbn. split; [reflexivity|].
      split; [repeat constructor|auto].
  - intros Hh.
    destruct (ingestCatch_stores _ _ _ _ _ _ Hh) as (tail & Ht & Hqt & Hm' & Hc' & Hf').
    exists tail. auto.
  - intros [= _ <-]. exists []. cbn. rewrite app_nil_r. split; [reflexivity|].
    split; [constructor|auto].
Qed.

(** A tick whose burst threw an error that is not a cancellation: it
    backs off when the table has an entry and the store takes the write,
    and throws the error of the look-up when the table has none, the
    record still to ingest. *)
Lemma tick_after_failure fuel w wa a w0 w1 e w2 :
  ready env w = (Returned tt, wa) ->
  getCurrentAction env this wa = (Returned (Some a), w0) ->
  nextAction a = "ingest" ->
  setProviderBursting env (ingestionId a) w0 = (Returned tt, w1) ->
  ingestOneBurst env key this fuel (ingestionId a) w1 = (Threw e, w2) ->
  isCancel e = false ->
  (forall c w, bookkeeping c = true -> env_fails env c w = None) ->
  match currentBackoff this (act_attempts a) with
  | inr d =>
      exists w' r',
        handleNextAction env key this fuel w = (Returned tt, w')
        /\ calls w'
           = calls w2 ++ [Ev (SetProviderBackoff (ingestionId a) (act_attempts a) e
                                (as_milliseconds d)) None]
        /\ marks w' = marks w2 /\ catalog w' = catalog w2 /\ fetched w' = fetched w2
        /\ Manager.current_record (providerName (options this)) w' = Some r'
        /\ rec_id r' = ingestionId a
        /\ next_action r' = "backoff"
        /\ next_action_at r' = now w2 + as_milliseconds d
  | inl x =>
      handleNextAction env key this fuel w = (Threw x, w2)
      /\ exists r',
           Manager.current_record (providerName (options this)) w2 = Some r'
           /\ rec_id r' = ingestionId a
           /\ next_action r' = "ingest"
  end.
Proof.
  intros Hready Hact Hingest Hburst Hrun Hc Hlife.
  destruct (getCurrentAction_some _ _ _ _ _ Hact)
    as (r0 & Hcur0 & (Hid0 & Hna0 & Hat0 & Hnaa0) & _).
  pose proof (setProviderBursting_returned _ _ _ _ Hburst) as Hw1.
  destruct (ingestOneBurst_progress _ _ _ _ _ _ _ _ Hrun)
    as (ps & answers & evs & k & j & _ & _ & _ & _ & _ & _ & _ & _ & Hi & Hn & _).
  assert (Hcur2 : Manager.current_record (providerName (options this)) w2
                  = Some (Manager.bursting r0)).
  { rewrite (current_record_same_rows _ _ _ Hi), Hw1.
    eapply current_after_write; try reflexivity; [exact Hcur0|exact Hid0]. }
  assert (Hcatch : handleNextAction env key this fuel w
                   = ingestBackoff env this (ingestionId a) (act_attempts a) e w2).
  { rewrite (handleNextAction_dispatch _ _ _ _ _ _ _ _ Hready Hact),
      (dispatch_ingest _ _ _ _ _ _ Hingest).
    unfold try_catch, ingestTry.
    rewrite (bind_returned _ _ _ _ _ Hburst). unfold bind at 1. rewrite Hrun.
    apply ingestCatch_other, Hc. }
  rewrite Hcatch.
  destruct (currentBackoff this (act_attempts a)) as [x|d] eqn:Hd.
  - unfold ingestBackoff. rewrite Hd. split; [reflexivity|].
    exists (Manager.bursting r0). split; [exact Hcur2|]. split; [exact Hid0|].
    cbn. rewrite Hna0. exact Hingest.
  - rewrite (ingestBackoff_entry _ _ _ _ _ _ _ Hd).
    unfold setProviderBackoff. rewrite extern_resolves by (apply Hlife; reflexivity).
    eexists.
    exists (Manager.backing_off (now w2) (act_attempts a) e (as_milliseconds d)
              (Manager.bursting r0)).
    split; [reflexivity|]. cbn.
    split; [reflexivity|]. split; [reflexivity|]. split; [reflexivity|].
    split; [reflexivity|].
    split; [eapply current_after_write; try reflexivity; [exact Hcur2|exact Hid0]|].
    split; [exact Hid0|]. split; reflexivity.
Qed.

End IngestTick.

(** * The abort signal *)

(** The pages a burst goes on to fetch after the page [p], when the
    provider answers [source cursor] and the signal reads [stop n] once
    [n] pages have been fetched in all: the loop goes on from a page that
    is not done while the signal, read after that page's mark, is not
    aborted; [fuel] bounds the iterations. *)
Fixpoint taken (source : Cursor -> Page) (stop : nat -> bool) (fuel n : nat) (p : Page)
    : list Page :=
  match fuel with
  | O => []
  | S fuel' =>
      if stop n || page_done p then []
      else
        let q := source (page_cursor p) in
        q :: taken source stop fuel' (S n) q
  end.

(** The loop comes to the end of its last page within [fuel]
    iterations. *)
Fixpoint halts (source : Cursor -> Page) (stop : nat -> bool) (fuel n : nat) (p : Page)
    : bool :=
  match fuel with
  | O => false
  | S fuel' =>
      if stop n || page_done p then true
      else halts source stop fuel' (S n) (source (page_cursor p))
  end.

Lemma taken_halts source stop fuel :
  forall n p,
    halts source stop fuel n p = true ->
    stop (n + length (taken source stop fuel n p))%nat
    || page_done (List.last (taken source stop fuel n p) p) = true.
Proof.
  induction fuel as [|fuel IH]; intros n p H; [discriminate H|].
  cbn in H |- *. destruct (stop n || page_done p) eqn:E.
  - cbn. rewrite Nat.add_0_r. exact E.
  - cbn [length]. rewrite last_cons_default, Nat.add_succ_r. apply (IH (S n)), H.
Qed.

Section Signal.

Variable env : Env.
Variable key : string.
Variable this : IncrementalIngestionEngine.
Variable source : Cursor -> Page.
Variable stop : nat -> bool.

Hypothesis Hok : forall c w, env_fails env c w = None.
Hypothesis Hsource : forall c w, env_next env c w = source c.
Hypothesis Hstop : forall w, env_aborted env w = stop (length (fetched w)).

Lemma burst_loop_taken id fuel :
  forall sequence count p w,
    halts source stop fuel (length (fetched w)) p = true ->
    exists w',
      burst_loop env key this fuel id sequence count p w
      = (Returned (page_done (List.last (taken source stop fuel (length (fetched w)) p) p),
                   count + Z.of_nat (length (taken source stop fuel (length (fetched w)) p))),
         w')
      /\ fetched w' = fetched w ++ taken source stop fuel (length (fetched w)) p.
Proof.
  induction fuel as [|fuel IH]; intros sequence count p w Hhalt; [discriminate Hhalt|].
  rewrite burst_loop_step.
  pose proof (mark_returns env key this id sequence (page_entities p) (page_done p)
                (page_cursor p) w Hok) as Hm.
  destruct (mark_frame env key this id sequence (page_entities p) (page_done p)
              (page_cursor p) w) as (_ & _ & Hf).
  destruct (mark env key this id sequence (page_entities p) (page_done p)
              (page_cursor p) w) as [rm wm].
  cbn [fst snd] in Hm, Hf. subst rm. rewrite Hstop, Hf.
  cbn [halts taken] in Hhalt |- *.
  destruct (stop (length (fetched w)) || page_done p) eqn:E.
  - exists wm. cbn. rewrite Z.add_0_r, app_nil_r. auto.
  - destruct (provider_next_cases env (page_cursor p) wm)
      as [(e & F & _) | (_ & Hnext)]; [rewrite Hok in F; discriminate F|].
    rewrite Hnext, Hsource. clear Hnext.
    match goal with
    | |- context [burst_loop env key this fuel id ?s ?c ?q ?w2] =>
        assert (Hlen : length (fetched w2) = S (length (fetched w)))
          by (cbn; rewrite Hf, length_app; cbn; lia);
        destruct (IH s c q w2) as (w' & Hrun & Hfetched);
          [rewrite Hlen; exact Hhalt|];
        rewrite Hlen in Hrun, Hfetched
    end.
    exists w'. rewrite Hrun. cbn [length]. rewrite last_cons_default.
    split; [do 3 f_equal; lia|].
    rewrite Hfetched. cbn. rewrite Hf, <- app_assoc. reflexivity.
Qed.

Lemma ingestOneBurst_taken fuel id w :
  halts source stop fuel (S (length (fetched w))) (source (resume_cursor id w)) = true ->
  exists w',
    ingestOneBurst env key this fuel id w
    = (Returned
         (page_done
            (List.last (taken source stop fuel (S (length (fetched w)))
                          (source (resume_cursor id w)))
               (source (resume_cursor id w)))),
       w')
    /\ fetched w'
       = fetched w
         ++ source (resume_cursor id w)
            :: taken source stop fuel (S (length (fetched w))) (source (resume_cursor id w)).
Proof.
  intros Hhalt.
  unfold ingestOneBurst, getLastMark, provider_around.
  unfold bind at 1. rewrite extern_resolves by apply Hok. cbn [fst snd].
  unfold bind at 1, logger at 1. cbn beta iota.
  unfold bind at 1. unfold bind at 1. rewrite extern_resolves by apply Hok.
  cbn [fst snd]. unfold bind at 1.
  match goal with
  | |- context [provider_next env ?c ?w1] =>
      destruct (provider_next_cases env c w1) as [(e & F & _) | (_ & E)];
      [rewrite Hok in F; discriminate F|rewrite E, Hsource; clear E]
  end.
  match goal with
  | |- context [burst_loop env key this fuel id ?s 1 ?q ?w3] =>
      assert (Hlen : length (fetched w3) = S (length (fetched w)))
        by (cbn; rewrite length_app; cbn; lia);
      destruct (burst_loop_taken id fuel s 1 q w3) as (w4 & Hloop & Hf);
        [rewrite Hlen; exact Hhalt|];
      rewrite Hlen in Hloop, Hf;
      replace (burst_loop env key this fuel id s 1 q w3)
        with (Returned
                (page_done
                   (List.last (taken source stop fuel (S (length (fetched w))) q) q),
                 1 + Z.of_nat (length (taken source stop fuel (S (length (fetched w))) q))),
              w4) by (symmetry; exact Hloop)
  end.
  unfold bind, logger, ret. cbn.
  eexists. split; [reflexivity|]. cbn. cbn in Hf. rewrite Hf, <- app_assoc. reflexivity.
Qed.

End Signal.

(** *** Where a cancellation comes from *)

Lemma dispatch_cancels env key this fuel a w r w' devs id reason f :
  dispatch env key this fuel a w = (r, w') ->
  calls w' = calls w ++ devs ->
  In (Ev (SetProviderCanceling id reason) f) devs ->
  reason = "CANCEL"
  /\ exists pre c e,
       devs = pre ++ [Ev c (Some e); Ev (SetProviderCanceling id "CANCEL") f]
       /\ message e = Some "CANCEL".
Proof.
  intros Hrun Hcalls Hin.
  destruct (String.eqb_spec (nextAction a) "ingest") as [Hingest|Hidle].
  - destruct (dispatch_cancels_on_message _ _ _ _ _ _ _ _ _ Hingest Hrun Hcalls _ _ _ Hin)
      as (e & w1 & Htry & Hm & ->).
    split; [reflexivity|].
    destruct (orderly_ingestTry env key this fuel (ingestionId a) w)
      as (tevs & Hcalls1 & Horder).
    destruct (ingestTry_progress _ _ _ _ _ _ _ _ Htry) as (tevs' & Hcalls1' & Htry_ev & _).
    rewrite Htry in Hcalls1, Horder. cbn [fst snd] in Hcalls1, Horder.
    rewrite Hcalls1 in Hcalls1'. apply app_inv_head in Hcalls1'. subst tevs'.
    destruct Horder as (pre & c & -> & _).
    rewrite (dispatch_ingest _ _ _ _ _ _ Hingest) in Hrun. unfold try_catch in Hrun.
    rewrite Htry, (ingestCatch_cancel _ _ _ _ _ _ Hm) in Hrun.
    unfold setProviderCanceling, extern in Hrun.
    assert (Hdevs : exists f',
              devs = (pre ++ [Ev c (Some e)])
                     ++ [Ev (SetProviderCanceling (ingestionId a) "CANCEL") f']).
    { match type of Hrun with
      | context [env_fails env ?c0 ?wl] => destruct (env_fails env c0 wl) as [x|]
      end; injection Hrun as _ <-; cbn in Hcalls; rewrite Hcalls1, <- app_assoc in Hcalls;
        apply app_inv_head in Hcalls; eexists; symmetry; exact Hcalls. }
    destruct Hdevs as (f' & ->).
    apply in_app_or in Hin as [Hin|[Heq|[]]].
    + rewrite List.Forall_forall in Htry_ev.
      destruct (try_event_not_canceling _ _ _ _ _ (Htry_ev _ Hin)).
    + injection Heq as <- <-. exists pre, c, e.
      rewrite <- app_assoc. split; [reflexivity|exact Hm].
  - exfalso.
    destruct (dispatch_dispatched _ _ _ _ _ _ _ _ Hrun) as (devs' & Hcalls' & Hdisp).
    rewrite Hcalls' in Hcalls. apply app_inv_head in Hcalls. subst devs'.
    destruct Hdisp as [Hni|e Hrest|f0 Hrest|f0 Hback|f0 Hcancel|tevs r' Hingest Htried Hnot
                       |tevs hevs e r' Hingest Htried Hcaught];
      try contradiction; cbn in Hin;
      repeat (destruct Hin as [Hin|Hin]; [discriminate Hin|]); exact Hin.
Qed.

(** A tick calls [setProviderCanceling] only right after a call that was
    rejected with an error whose message is exactly [CANCEL], and with that
    text as the reason. *)
Lemma tick_cancels_on_message env key this fuel w evs id reason f :
  calls (snd (taskFn env key this fuel w)) = calls w ++ evs ->
  In (Ev (SetProviderCanceling id reason) f) evs ->
  reason = "CANCEL"
  /\ exists pre c e,
       evs = pre ++ [Ev c (Some e); Ev (SetProviderCanceling id "CANCEL") f]
       /\ message e = Some "CANCEL".
Proof.
  intros Hcalls Hin.
  assert (Hsame : calls (snd (taskFn env key this fuel w))
                  = calls (snd (handleNextAction env key this fuel
                                  (set_logs (fun l => l ++ [(Debug, BeginTick)]) w))))
    by apply taskFn_stores.
  rewrite Hsame in Hcalls. clear Hsame. revert Hcalls.
  assert (Hgo : forall head a wd,
            calls wd = calls w ++ head ->
            (forall i x y, ~ In (Ev (SetProviderCanceling i x) y) head) ->
            calls (snd (dispatch env key this fuel a wd)) = calls w ++ evs ->
            reason = "CANCEL"
            /\ exists pre c e,
                 evs = pre ++ [Ev c (Some e); Ev (SetProviderCanceling id "CANCEL") f]
                 /\ message e = Some "CANCEL").
  { intros head a wd Hwd Hhead Hd.
    destruct (dispatch env key this fuel a wd) as [rd wd'] eqn:Hrun.
    destruct (dispatch_dispatched _ _ _ _ _ _ _ _ Hrun) as (devs & Hdc & _).
    cbn [snd] in Hd. rewrite Hdc, Hwd, <- app_assoc in Hd.
    apply app_inv_head in Hd. subst evs.
    apply in_app_or in Hin as [Hin|Hin]; [destruct (Hhead _ _ _ Hin)|].
    destruct (dispatch_cancels _ _ _ _ _ _ _ _ _ _ _ _ Hrun Hdc Hin)
      as (Hreason & pre & c & e & -> & Hm).
    split; [exact Hreason|]. exists (head ++ pre), c, e.
    rewrite <- app_assoc. auto. }
  unfold handleNextAction, ready, getCurrentAction, getCurrentIngestionRecord,
    createProviderIngestionRecord.
  unfold bind at 1. settle_extern.
  { cbn. intros H. apply app_inv_head in H. subst evs.
    destruct Hin as [Heq|[]]. discriminate Heq. }
  unfold bind at 1. unfold bind at 1. settle_extern.
  { cbn. rewrite <- app_assoc. intros H. apply app_inv_head in H. subst evs.
    destruct Hin as [Heq|[Heq|[]]]; discriminate Heq. }
  destruct (Manager.current_record (providerName (options this)) _) as [r0|].
  - unfold bind at 1, logger at 1, ret. cbn beta iota.
    apply (Hgo [Ev AwaitReady None;
                Ev (GetCurrentIngestionRecord (providerName (options this))) None]).
    + cbn. rewrite <- app_assoc. reflexivity.
    + intros i x y [Heq|[Heq|[]]]; discriminate Heq.
  - unfold bind at 1. unfold bind at 1. settle_extern.
    { cbn. rewrite <- !app_assoc. intros H. apply app_inv_head in H. subst evs.
      destruct Hin as [Heq|[Heq|[Heq|[]]]]; discriminate Heq. }
    match goal with
    | |- context [Manager.create_record ?i ?p ?wl] =>
        assert (Hwc : calls (snd (Manager.create_record i p wl)) = calls wl)
          by (unfold Manager.create_record;
              destruct (Manager.current_record p wl); reflexivity);
        destruct (Manager.create_record i p wl) as [[a|] wc]
    end; cbn [fst snd] in Hwc |- *.
    + unfold logger at 1, ret. cbn beta iota.
      apply (Hgo [Ev AwaitReady None;
                  Ev (GetCurrentIngestionRecord (providerName (options this))) None;
                  Ev (CreateProviderIngestionRecord (providerName (options this))) None]).
      * cbn. rewrite Hwc. cbn. rewrite <- !app_assoc. reflexivity.
      * intros i x y [Heq|[Heq|[Heq|[]]]]; discriminate Heq.
    + unfold ret, logger. cbn. rewrite Hwc. cbn. rewrite <- !app_assoc.
      intros H. apply app_inv_head in H. subst evs.
      destruct Hin as [Heq|[Heq|[Heq|[]]]]; discriminate Heq.
Qed.

(** *** Why a burst returns *)

Lemma burst_loop_returned env key this fuel :
  forall id sequence count p w d c w',
    burst_loop env key this fuel id sequence count p w = (Returned (d, c), w') ->
    env_aborted env w' = true \/ d = true.
Proof.
  induction fuel as [|fuel IH]; intros id sequence count p w d c w' Hrun;
    [discriminate Hrun|].
  rewrite burst_loop_step in Hrun.
  destruct (mark env key this id sequence (page_entities p) (page_done p)
              (page_cursor p) w) as [[[]|e|] wm]; try discriminate Hrun.
  destruct (env_aborted env wm || page_done p) eqn:E.
  - injection Hrun as <- <- <-. apply orb_true_iff, E.
  - destruct (provider_next env (page_cursor p) wm) as [[q|e|] w2];
      try discriminate Hrun.
    apply (IH _ _ _ _ _ _ _ _ Hrun).
Qed.

(** A burst returns in the world in which it has read the signal after
    its last page, with one more log line; and it returns [false] only
    when it has found the signal aborted there. *)
Lemma ingestOneBurst_returned env key this fuel id w d w' :
  ingestOneBurst env key this fuel id w = (Returned d, w') ->
  exists wm count,
    w' = set_logs (fun l => l ++ [(Info, BurstComplete id count)]) wm
    /\ (env_aborted env wm = true \/ d = true).
Proof.
  unfold ingestOneBurst, getLastMark, provider_around.
  unfold bind at 1. settle_extern; [discriminate|].
  unfold bind at 1, logger at 1. cbn beta iota.
  unfold bind at 1. unfold bind at 1. settle_extern; [discriminate|].
  unfold bind at 1.
  match goal with
  | |- context [provider_next env ?c ?w1] =>
      destruct (provider_next_cases env c w1) as [(e & F1 & E) | (F1 & E)];
      rewrite E; clear E; [discriminate|]
  end.
  match goal with
  | |- context [burst_loop env key this fuel id ?s 1 ?q ?w3] =>
      destruct (burst_loop env key this fuel id s 1 q w3) as [[[d' c]|e|] w4] eqn:Hloop
  end; try discriminate.
  unfold bind, logger, ret. cbn. intros [= <- <-].
  exists w4, c. split; [reflexivity|]. apply (burst_loop_returned _ _ _ _ _ _ _ _ _ _ _ _ Hloop).
Qed.


(** The signal is found aborted once two pages have been fetched. *)
Definition interrupted_env : Env :=
  {| env_fails := fun _ _ => None;
     env_next := fun cursor _ => three_pages cursor;
     env_aborted := fun w => (2 <=? length (fetched w))%nat;
     env_removed := fun _ _ _ => [component "gone"];
     env_uuid := fun _ => "6f1c" |}.


(** * From a failed burst to the next one *)

Lemma run_ticks_app env key this s1 s2 :
  forall w,
    run_ticks env key this (s1 ++ s2) w
    = run_ticks env key this s2 (run_ticks env key this s1 w).
Proof.
  induction s1 as [|[fuel t] s1 IH]; intros w; [reflexivity|]. cbn. apply IH.
Qed.

Section Resume.

Variable env : Env.
Variable key : string.
Variable this : IncrementalIngestionEngine.

Hypothesis Hlife : forall c w, bookkeeping c = true -> env_fails env c w = None.

Lemma waiting_tick_fetched fuel w r r0 w' :
  Manager.current_record (providerName (options this)) w = Some r ->
  next_action r = "rest" \/ next_action r = "backoff" ->
  now w <= next_action_at r ->
  handleNextAction env key this fuel w = (r0, w') ->
  fetched w' = fetched w.
Proof.
  intros Hcur Hact Hnow.
  unfold handleNextAction, ready, getCurrentAction, getCurrentIngestionRecord.
  unfold bind at 1. settle_extern.
  { intros [= <- <-]. reflexivity. }
  unfold bind at 1. unfold bind at 1. settle_extern.
  { intros [= <- <-]. reflexivity. }
  match goal with
  | |- context [Manager.current_record ?p ?w'] =>
      replace (Manager.current_record p w') with (Some r) by (rewrite <- Hcur; reflexivity)
  end.
  assert (Hlate : (now w >? next_action_at r) = false) by lia.
  unfold bind, logger, ret, dispatch, Date_now. cbn.
  destruct Hact as [-> | ->]; cbn; rewrite Hlate; cbn; intros [= <- <-]; reflexivity.
Qed.

(** Ticks that find the record waiting fetch nothing. *)
Lemma waiting_ticks_fetched r schedule :
  forall w,
    Manager.current_record (providerName (options this)) w = Some r ->
    next_action r = "rest" \/ next_action r = "backoff" ->
    Forall (fun tick => snd tick <= next_action_at r) schedule ->
    fetched (run_ticks env key this schedule w) = fetched w.
Proof.
  induction schedule as [|[fuel t] rest IH]; intros w Hcur Hact Hall; [reflexivity|].
  apply Forall_cons_iff in Hall as [Ht Hall]. cbn in Ht. cbn [run_ticks].
  set (w0 := set_logs (fun l => l ++ [(Debug, BeginTick)]) (set_now t w)).
  assert (Hcur0 : Manager.current_record (providerName (options this)) w0 = Some r)
    by exact Hcur.
  destruct (handleNextAction env key this fuel w0) as [r0 w1] eqn:Htick.
  destruct (waiting_tick env key this fuel w0 r _ _ Hcur0 Hact Ht Htick)
    as ((Hi & _) & _).
  pose proof (waiting_tick_fetched fuel w0 r _ _ Hcur0 Hact Ht Htick) as Hf.
  destruct (taskFn_settles env key this fuel _ _ _ Htick) as (g & Htask).
  rewrite Htask. cbn [snd]. rewrite IH; [exact Hf| |exact Hact|exact Hall].
  rewrite <- Hcur. apply current_record_same_rows. exact Hi.
Qed.

(** The tick that finds the backoff over puts the record back to
    [ingest]. *)
Lemma backoff_over_tick fuel t r w :
  Manager.current_record (providerName (options this)) w = Some r ->
  next_action r = "backoff" ->
  next_action_at r < t ->
  let w' := snd (taskFn env key this fuel (set_now t w)) in
  marks w' = marks w /\ catalog w' = catalog w /\ fetched w' = fetched w
  /\ Manager.current_record (providerName (options this)) w' = Some (Manager.ingesting r).
Proof.
  intros Hcur Hact Hover. cbv zeta.
  set (w0 := set_logs (fun l => l ++ [(Debug, BeginTick)]) (set_now t w)).
  assert (Hlate : (now w0 >? next_action_at r) = true) by (cbn; lia).
  assert (Htick : exists w1,
            handleNextAction env key this fuel w0 = (Returned tt, w1)
            /\ marks w1 = marks w /\ catalog w1 = catalog w /\ fetched w1 = fetched w
            /\ Manager.current_record (providerName (options this)) w1
               = Some (Manager.ingesting r)).
  { unfold handleNextAction, ready.
    unfold bind at 1. rewrite extern_resolves by (apply Hlife; reflexivity).
    cbn [fst snd]. unfold getCurrentAction, getCurrentIngestionRecord.
    unfold bind at 1. unfold bind at 1.
    rewrite extern_resolves by (apply Hlife; reflexivity). cbn [fst snd].
    replace (Manager.current_record (providerName (options this)) _) with (Some r)
      by (rewrite <- Hcur; reflexivity).
    unfold bind at 1, logger at 1, ret. cbn beta iota.
    unfold dispatch. cbn [nextAction ingestionId nextActionAt]. rewrite Hact.
    cbn [String.eqb Ascii.eqb Bool.eqb]. unfold bind at 1, Date_now.
    cbn [now set_logs set_calls]. cbn [now] in Hlate. rewrite Hlate.
    unfold bind, logger, setProviderIngesting.
    rewrite extern_resolves by (apply Hlife; reflexivity).
    eexists. split; [reflexivity|]. cbn [fst snd].
    split; [reflexivity|]. split; [reflexivity|]. split; [reflexivity|].
    eapply current_after_write; try reflexivity. exact Hcur. }
  destruct Htick as (w1 & Htick & Hm & Hc & Hf & Hcur1).
  destruct (taskFn_settles env key this fuel _ _ _ Htick) as (g & Htask).
  rewrite Htask. cbn [snd]. auto.
Qed.

(** A tick that finds the record to ingest runs a burst that resumes
    from the last mark of the ingestion: it opens with a fetch at that
    mark's cursor, numbers its marks on from it and applies one delta for
    each page it processes. *)
Lemma next_burst_resumes fuel t r w :
  Manager.current_record (providerName (options this)) w = Some r ->
  next_action r = "ingest" ->
  let w' := snd (taskFn env key this fuel (set_now t w)) in
  exists ps answers bevs tail k j,
    calls w'
    = calls w
      ++ [Ev AwaitReady None;
          Ev (GetCurrentIngestionRecord (providerName (options this))) None;
          Ev (SetProviderBursting (rec_id r)) None]
      ++ bevs ++ tail
    /\ burst_opening (rec_id r) w bevs
    /\ Forall (burst_event key this) bevs
    /\ quiet tail
    /\ fetched w' = fetched w ++ ps
    /\ map mark_key (marks w')
       = map mark_key (marks w)
         ++ page_keys (rec_id r) (resume_sequence (rec_id r) w) (firstn k ps)
    /\ catalog w' = catalog w ++ deltas key this (firstn j ps) answers
    /\ Forall2 (delta_of key this) (firstn j ps) (deltas key this (firstn j ps) answers)
    /\ (length ps <= S j)%nat /\ (j <= k)%nat /\ (k <= length ps)%nat.
Proof.
  intros Hcur Hingest. cbv zeta.
  destruct (ingest_tick_begins env this t r w Hlife Hcur) as (Hready & Hact & Hburst).
  set (wb := burst_world this r t w) in *.
  assert (Hmarks : marks wb = marks w) by reflexivity.
  destruct (resume_same_marks (rec_id r) w wb Hmarks) as (Hrc & Hrs).
  destruct (ingestOneBurst env key this fuel (rec_id r) wb) as [rb w2] eqn:Hrun.
  destruct (handleNextAction env key this fuel
              (set_logs (fun l => l ++ [(Debug, BeginTick)]) (set_now t w)))
    as [rh wh] eqn:Htick.
  destruct (tick_after_any_burst env key this fuel _ _ (action_of r) _ _ _ _ _ _ Hready
              Hact Hingest Hburst Hrun Htick) as (tail & Hct & Hqt & Hmt & Hcat_t & Hft).
  destruct (taskFn_settles env key this fuel _ _ _ Htick) as (g & Htask).
  rewrite Htask. cbn [snd].
  destruct (ingestOneBurst_progress _ _ _ _ _ _ _ _ Hrun)
    as (ps & answers & bevs & k & j & Hf & _ & Hcalls & Hmk & Hcat & _ & Hev & Hlen
        & _ & _ & Hj & Hjk & Hk & _ & _ & Hopen).
  assert (Hcb : calls wb
                = calls w
                  ++ [Ev AwaitReady None;
                      Ev (GetCurrentIngestionRecord (providerName (options this))) None;
                      Ev (SetProviderBursting (rec_id r)) None])
    by (cbn; rewrite <- !app_assoc; reflexivity).
  exists ps, answers, bevs, tail, k, j.
  unfold set_logs at 1 2 3 4. cbn [fetched marks catalog calls].
  split; [rewrite Hct, Hcalls, Hcb, <- !app_assoc; reflexivity|].
  split.
  { unfold burst_opening in *. rewrite <- Hrc. exact Hopen. }
  split; [exact Hev|]. split; [exact Hqt|].
  split; [rewrite Hft, Hf; reflexivity|].
  split; [rewrite Hmt, Hmk, Hrs; reflexivity|].
  split; [rewrite Hcat_t, Hcat; reflexivity|].
  split; [apply deltas_delta_of; rewrite Hlen, length_firstn; lia|].
  split; [lia|]. split; [lia|lia].
Qed.

End Resume.

(** The ticks between a burst that failed in the tick started at [t] and
    the next burst of the ingestion: when the table has a delay for the
    attempts, ticks that find the backoff still running, in any number,
    and then a tick that finds it over; when the table has none the tick
    threw, the record is still to ingest and no tick lies between. *)
Definition leads_to_next_burst (this : IncrementalIngestionEngine) (t tries : Z)
    (between : list (nat * Z)) : Prop :=
  match currentBackoff this tries with
  | inr d =>
      exists waits over,
        between = waits ++ [over]
        /\ Forall (fun tick => snd tick <= t + as_milliseconds d) waits
        /\ t + as_milliseconds d < snd over
  | inl _ => between = []
  end.

(** What the [catch] block calls for the error [e] that is not a
    cancellation, the store taking the write. *)
Definition handled (this : IncrementalIngestionEngine) (id : string) (tries : Z)
    (e : thrown) : list Event :=
  match currentBackoff this tries with
  | inr d => [Ev (SetProviderBackoff id tries e (as_milliseconds d)) None]
  | inl _ => []
  end.



(** *** A mutation rejected with the message [CANCEL] *)

(** The marks of the resolved [createMark] calls of a history, oldest
    first. *)
Definition created (evs : list Event) : list MarkRecord :=
  flat_map (fun ev => match ev with
                      | Ev (CreateMark record) None => [record]
                      | _ => []
                      end) evs.

(** In the run of ticks from [w], whatever a mutation was rejected with,
    the page fetched next, in whichever tick, is asked for with the cursor
    of the mark persisted last. *)
Definition rejection_resumes_from_mark (env : Env) (key : string)
    (this : IncrementalIngestionEngine) (schedule : list (nat * Z)) (w : World) : Prop :=
  forall pre m e post mk c rest,
    calls (run_ticks env key this schedule w)
    = calls w ++ pre ++ Ev (ApplyMutation m) (Some e) :: post ->
    last (created pre) = Some mk ->
    requested post = c :: rest ->
    c = mark_cursor mk.

(** The target store rejects the second mutation it is handed, once, with
    an error whose message is [CANCEL]. *)
Definition cancelling_catalog_env : Env :=
  {| env_fails := fun c w =>
       match c with
       | ApplyMutation _ =>
           if negb (rejected_before w) && (1 <=? length (catalog w))%nat
           then Some (JsError "Error" "CANCEL")
           else None
       | _ => None
       end;
     env_next := fun cursor _ => three_pages cursor;
     env_aborted := fun _ => false;
     env_removed := fun _ _ _ => [];
     env_uuid := fun _ => "6f1c" |}.


Example cancel_rejection_applies_twice :
  map added_names
    (catalog (run_ticks cancelling_catalog_env sample_key sample_engine
                [(5%nat, 0); (5%nat, 1); (5%nat, 2)] ingesting_world))
  = [["a"]; ["a"]; ["b"]; ["c"]].
Proof. vm_compute. reflexivity. Qed.

(** * The relation directive of the GraphQL plugin *)

(** [relationDirectiveMapper] and its helpers.  The schema objects come
    from [graphql-js] and the entity references from the catalog model:
    a type is a named type of one of six kinds or one of the two
    wrappers, and [parseEntityRef] and [toLowerCase] are parameters of the
    functions that call them. *)
Module Relation.

Inductive NamedKind : Type :=
| ScalarKind | ObjectKind | InterfaceKind | UnionKind | EnumKind | InputObjectKind.

Inductive GraphQLType : Type :=
| GraphQLNamedType (kind : NamedKind) (name : string)
| GraphQLList (ofType : GraphQLType)
| GraphQLNonNull (ofType : GraphQLType).

Definition GraphQLInt : GraphQLType := GraphQLNamedType ScalarKind "Int".
Definition GraphQLString : GraphQLType := GraphQLNamedType ScalarKind "String".

Definition isInterfaceType (type : GraphQLType) : bool :=
  match type with
  | GraphQLNamedType InterfaceKind _ => true
  | _ => false
  end.

Definition isListType (type : GraphQLType) : bool :=
  match type with
  | GraphQLList _ => true
  | _ => false
  end.

Definition isNonNullType (type : GraphQLType) : bool :=
  match type with
  | GraphQLNonNull _ => true
  | _ => false
  end.

(** [type.name]: [undefined] on a wrapper. *)
Definition name (type : GraphQLType) : option string :=
  match type with
  | GraphQLNamedType _ n => Some n
  | _ => None
  end.

(** [type.toString()] *)
Fixpoint toString (type : GraphQLType) : string :=
  match type with
  | GraphQLNamedType _ n => n
  | GraphQLList ofType => "[" +:+ toString ofType +:+ "]"
  | GraphQLNonNull ofType => toString ofType +:+ "!"
  end.

(** [isConnectionType] *)
Fixpoint isConnectionType (type : GraphQLType) : bool :=
  (isInterfaceType type && bool_decide (name type = Some "Connection"))
  || match type with
     | GraphQLNonNull ofType => isConnectionType ofType
     | _ => false
     end.

(** The condition of the check at the head of [relationDirectiveMapper]
    (lines 96 to 99). *)
Definition isListOfConnections (fieldType : GraphQLType) : bool :=
  match fieldType with
  | GraphQLList ofType => isConnectionType ofType
  | GraphQLNonNull (GraphQLList ofType) => isConnectionType ofType
  | _ => false
  end.

Definition list_of_connections : thrown :=
  JsError "Error"
    ("It's not possible to use a list of Connection type. "
     +:+ "Use either Connection type or list of specific type").

(** [const isList = ...] *)
Definition isList (fieldType : GraphQLType) : bool :=
  isListType fieldType
  || match fieldType with
     | GraphQLNonNull ofType => isListType ofType
     | _ => false
     end.

(** The check at the head of [relationDirectiveMapper] (the [if] of
    lines 95 to 104): what it throws, if it throws.  What becomes of a
    field that passes the check, in the connection branch that follows, is
    not part of this definition. *)
Definition listCheck (fieldType : GraphQLType) : option thrown :=
  if isListOfConnections fieldType then Some list_of_connections else None.

(** *** The mandatory arguments of a connection field *)

(** An argument of a field: its type and whatever else its
    configuration holds (description, default value). *)
Record GraphQLArgumentConfig : Type := {
  arg_type : GraphQLType;
  arg_more : option string
}.

Definition mandatoryArgs : list (string * string) :=
  [("first", "Int"); ("after", "String"); ("last", "Int"); ("before", "String")].

Definition quote : string := String (Ascii.ascii_of_nat 34) "".

Definition different_type (argName type : string) : thrown :=
  JsError "Error"
    ("The field has mandatory argument " +:+ quote +:+ argName +:+ quote
     +:+ " with different type than expected. Expected: " +:+ type).

(** [isNonNullType(argType) ? argType.ofType.toString() : argType.name] *)
Definition declared (argType : GraphQLType) : option string :=
  match argType with
  | GraphQLNonNull ofType => Some (toString ofType)
  | _ => name argType
  end.

(** The body of [mandatoryArgs.forEach]. *)
Definition setMandatoryArg (fieldArgs : gmap string GraphQLArgumentConfig)
    (entry : string * string) : thrown + gmap string GraphQLArgumentConfig :=
  let '(argName, type) := entry in
  let fresh := {| arg_type := if String.eqb type "Int" then GraphQLInt else GraphQLString;
                  arg_more := None |} in
  match fieldArgs !! argName with
  | Some argConfig =>
      if bool_decide (declared (arg_type argConfig) <> Some type)
      then inl (different_type argName type)
      else inr (<[argName := fresh]> fieldArgs)
  | None => inr (<[argName := fresh]> fieldArgs)
  end.

(** [array.forEach] with a callback that may throw. *)
Fixpoint forEach {A S : Type} (callback : S -> A -> thrown + S) (l : list A) (s : S)
    : thrown + S :=
  match l with
  | [] => inr s
  | a :: rest =>
      match callback s a with
      | inl e => inl e
      | inr s' => forEach callback rest s'
      end
  end.

(** [const fieldArgs = { ...field.args }; mandatoryArgs.forEach(...);
    field.args = fieldArgs]: the new [field.args], or what was thrown. *)
Definition setMandatoryArgs (args : gmap string GraphQLArgumentConfig)
    : thrown + gmap string GraphQLArgumentConfig :=
  forEach setMandatoryArg mandatoryArgs args.

(** *** The relations of an entity *)

Record EntityRelation : Type := {
  rel_type : string;
  targetRef : string
}.

(** An entity of the catalog, with the one field [filterEntityRefs]
    reads. *)
Record Entity : Type := {
  relations : option (list EntityRelation)
}.

Record CompoundEntityRef : Type := {
  ref_kind : string;
  ref_namespace : string;
  ref_name : string
}.

(** [!s] for an optional string: [undefined] and the empty string are
    falsy. *)
Definition absent (s : option string) : bool :=
  match s with
  | None => true
  | Some text => String.eqb text ""
  end.

Section Refs.

(** [parseEntityRef] of the catalog model: the reference, or the error it
    throws. *)
Variable parseEntityRef : string -> thrown + CompoundEntityRef.

(** [String.prototype.toLowerCase] *)
Variable toLowerCase : string -> string.

(** The callback of [filter]. *)
Definition ofType (relationType : option string) (relation : EntityRelation) : bool :=
  absent relationType || bool_decide (Some (rel_type relation) = relationType).

(** The callback of [flatMap]. *)
Definition ofKind (targetKind : option string) (relation : EntityRelation)
    : thrown + list string :=
  match parseEntityRef (targetRef relation) with
  | inl e => inl e
  | inr ref =>
      inr (if absent targetKind
              || bool_decide (Some (toLowerCase (ref_kind ref))
                              = option_map toLowerCase targetKind)
           then [targetRef relation]
           else [])
  end.

(** [array.flatMap] with a callback that may throw. *)
Fixpoint flatMap {A B : Type} (callback : A -> thrown + list B) (l : list A)
    : thrown + list B :=
  match l with
  | [] => inr []
  | a :: rest =>
      match callback a with
      | inl e => inl e
      | inr bs =>
          match flatMap callback rest with
          | inl e => inl e
          | inr more => inr (bs ++ more)
          end
      end
  end.

Definition filterEntityRefs (entity : option Entity) (relationType targetKind : option string)
    : thrown + list string :=
  match entity with
  | None => inr []
  | Some e =>
      match relations e with
      | None => inr []
      | Some rels => flatMap (ofKind targetKind) (List.filter (ofType relationType) rels)
      end
  end.

End Refs.

(** *** The resolver of a field that is not a connection *)

(** [unboxNamedType] of the GraphQL toolkit: the named type under the
    wrappers. *)
Fixpoint unboxNamedType (type : GraphQLType) : GraphQLType :=
  match type with
  | GraphQLList ofType | GraphQLNonNull ofType => unboxNamedType ofType
  | named => named
  end.

(** What the resolver answers: a list of nodes, one node, or [null]. *)
Inductive Resolved : Type :=
| Nodes (ids : list string)
| Node (id : string)
| Null.

Section Resolver.

Variable parseEntityRef : string -> thrown + CompoundEntityRef.
Variable toLowerCase : string -> string.

(** [encodeId({ source, typename, query: { ref } })] of the toolkit. *)
Variable encodeId : string -> option string -> string -> string.
Variable CATALOG_SOURCE : string.

(** [field.resolve] of the [else] branch, for what [loader.load(id)]
    settled with: an entity, [undefined], or a rejection. *)
Definition resolve (fieldType : GraphQLType) (directiveName directiveKind : option string)
    (loaded : thrown + option Entity) : thrown + Resolved :=
  match loaded with
  | inl e => inl e
  | inr entity =>
      match filterEntityRefs parseEntityRef toLowerCase entity directiveName directiveKind with
      | inl e => inl e
      | inr refs =>
          let ids := map (encodeId CATALOG_SOURCE (name (unboxNamedType fieldType))) refs in
          inr (if isList fieldType
               then Nodes ids
               else match ids with
                    | first :: _ => Node first
                    | [] => Null
                    end)
      end
  end.

End Resolver.

(** *** Which fields are connections *)

(** [type] wrapped [n] times in [GraphQLNonNull]. *)
Fixpoint nonNull (n : nat) (type : GraphQLType) : GraphQLType :=
  match n with
  | O => type
  | S n' => GraphQLNonNull (nonNull n' type)
  end.

Lemma isConnectionType_nonNull type :
  isConnectionType type = true
  <-> exists n, type = nonNull n (GraphQLNamedType InterfaceKind "Connection").
Proof.
  split.
  - induction type as [kind n|ofType _|ofType IH]; cbn.
    + rewrite orb_false_r. intros H. apply andb_true_iff in H as [Hk Hn].
      apply bool_decide_eq_true in Hn. injection Hn as ->.
      destruct kind; try discriminate Hk. exists 0%nat. reflexivity.
    + discriminate.
    + intros H. destruct (IH H) as [n ->]. exists (S n). reflexivity.
  - intros [n ->]. induction n as [|n IH]; [reflexivity|exact IH].
Qed.

(** X19: [isConnectionType] holds exactly of the interface named
    [Connection] and of that interface wrapped in any number of
    [GraphQLNonNull]; the check at the head of [relationDirectiveMapper]
    throws exactly for a list of such a type and for a non-null list of
    such a type, always the same error; a field whose own type satisfies
    [isConnectionType] passes the check and is no list for [isList]; the
    fields that pass the check with [isList] true are the lists and the
    non-null lists of an item that is no connection type; and a list whose
    items are again lists passes the check, whatever those lists hold. *)
Theorem connection_fields_by_type fieldType :
  (isConnectionType fieldType = true
   <-> exists n, fieldType = nonNull n (GraphQLNamedType InterfaceKind "Connection"))
  /\ (forall e,
        listCheck fieldType = Some e
        <-> e = list_of_connections
            /\ exists item,
                 isConnectionType item = true
                 /\ (fieldType = GraphQLList item
                     \/ fieldType = GraphQLNonNull (GraphQLList item)))
  /\ (isConnectionType fieldType = true ->
      listCheck fieldType = None /\ isList fieldType = false)
  /\ (listCheck fieldType = None /\ isList fieldType = true
      <-> exists item,
            isConnectionType item = false
            /\ (fieldType = GraphQLList item
                \/ fieldType = GraphQLNonNull (GraphQLList item)))
  /\ listCheck (GraphQLList (GraphQLList fieldType)) = None
  /\ listCheck (GraphQLList (GraphQLNonNull (GraphQLList fieldType))) = None.
Proof.
  split; [apply isConnectionType_nonNull|].
  split; [|split; [|split; [|split]]].
  - intros e. unfold listCheck. split.
    + destruct (isListOfConnections fieldType) eqn:Hl; [|discriminate].
      intros [= <-]. split; [reflexivity|].
      destruct fieldType as [kind n|item|[kind n|item|inner]];
        try discriminate Hl; exists item; cbn in Hl; auto.
    + intros (-> & item & Hitem & [-> | ->]); cbn; rewrite Hitem; reflexivity.
  - intros H. unfold listCheck.
    destruct fieldType as [kind n|item|[kind n|item|inner]]; try discriminate H;
      split; reflexivity.
  - unfold listCheck. split.
    + intros [Hpass Hlist].
      destruct fieldType as [kind n|item|[kind n|item|inner]];
        try discriminate Hlist; exists item; cbn in Hpass;
        (destruct (isConnectionType item); [discriminate Hpass|auto]).
    + intros (item & Hitem & [-> | ->]); cbn; rewrite Hitem; split; reflexivity.
  - reflexivity.
  - reflexivity.
Qed.

(** *** The arguments of a connection field *)

(** The argument [relationDirectiveMapper] sets for a mandatory name. *)
Definition paging (type : string) : GraphQLArgumentConfig :=
  {| arg_type := if String.eqb type "Int" then GraphQLInt else GraphQLString;
     arg_more := None |}.

(** An argument declared under a mandatory name has the type the name
    stands for, or that type marked non-null. *)
Definition agrees (args : gmap string GraphQLArgumentConfig) (entry : string * string)
    : Prop :=
  forall argConfig,
    args !! fst entry = Some argConfig -> declared (arg_type argConfig) = Some (snd entry).

Lemma setMandatoryArg_cases args argName type :
  (agrees args (argName, type)
   /\ setMandatoryArg args (argName, type) = inr (<[argName := paging type]> args))
  \/ (~ agrees args (argName, type)
      /\ setMandatoryArg args (argName, type) = inl (different_type argName type)).
Proof.
  unfold setMandatoryArg, agrees. cbn [fst snd]. fold (paging type).
  destruct (args !! argName) as [argConfig|].
  - destruct (bool_decide_reflect (declared (arg_type argConfig) <> Some type)) as [Hne|Heq].
    + right. split; [|reflexivity]. intros H. apply Hne, H. reflexivity.
    + left. split; [|reflexivity]. intros ? [= <-].
      destruct (decide (declared (arg_type argConfig) = Some type)); [assumption|].
      contradiction.
  - left. split; [discriminate|reflexivity].
Qed.

(** X20: for a connection field, [relationDirectiveMapper] goes through
    the names [first], [after], [last], [before] in that order and throws
    at the first that the field declares with another type than [Int],
    [String], [Int], [String] (the named type, or that type marked
    non-null; a list never passes); it goes through when every one that is
    declared has its type.  The arguments it then gives the field are the
    declared ones with the four names set to the plain nullable scalar,
    whatever was declared (a non-null marker, a description or a default
    value of the declared argument is dropped), and every other argument
    as it was; doing it again changes nothing. *)
Theorem mandatory_arguments_are_reset args :
  ((exists args', setMandatoryArgs args = inr args')
   <-> Forall (agrees args) mandatoryArgs)
  /\ (forall args',
        setMandatoryArgs args = inr args' ->
        args' !! "first" = Some (paging "Int")
        /\ args' !! "after" = Some (paging "String")
        /\ args' !! "last" = Some (paging "Int")
        /\ args' !! "before" = Some (paging "String")
        /\ (forall k, ~ In k (map fst mandatoryArgs) -> args' !! k = args !! k)
        /\ setMandatoryArgs args' = inr args')
  /\ (forall e,
        setMandatoryArgs args = inl e ->
        exists passed argName type rest,
          mandatoryArgs = passed ++ (argName, type) :: rest
          /\ Forall (agrees args) passed
          /\ ~ agrees args (argName, type)
          /\ e = different_type argName type).
Proof.
  assert (Hfar : forall (m : gmap string GraphQLArgumentConfig) k v entry,
            k <> fst entry -> (agrees (<[k := v]> m) entry <-> agrees m entry)).
  { intros m k v entry Hne. unfold agrees. rewrite lookup_insert_ne by exact Hne.
    reflexivity. }
  unfold setMandatoryArgs, mandatoryArgs. cbn [forEach].
  destruct (setMandatoryArg_cases args "first" "Int") as [[H1 ->]|[H1 ->]].
  2:{ split; [|split].
      - split; [intros [? H]; discriminate H|].
        intros H. apply Forall_cons_iff in H as [H _]. contradiction.
      - discriminate.
      - intros e [= <-]. exists [], "first", "Int", (tl mandatoryArgs).
        repeat split; [constructor|exact H1]. }
  destruct (setMandatoryArg_cases (<[ "first" := paging "Int" ]> args) "after" "String")
    as [[H2 ->]|[H2 ->]].
  2:{ rewrite Hfar in H2 by (cbn; discriminate). split; [|split].
      - split; [intros [? H]; discriminate H|].
        intros H. apply Forall_cons_iff in H as [_ H].
        apply Forall_cons_iff in H as [H _]. contradiction.
      - discriminate.
      - intros e [= <-]. exists [("first", "Int")], "after", "String",
          (tl (tl mandatoryArgs)).
        repeat split; [repeat constructor; exact H1|exact H2]. }
  rewrite Hfar in H2 by (cbn; discriminate).
  destruct (setMandatoryArg_cases
              (<[ "after" := paging "String" ]> (<[ "first" := paging "Int" ]> args))
              "last" "Int") as [[H3 ->]|[H3 ->]].
  2:{ rewrite !Hfar in H3 by (cbn; discriminate). split; [|split].
      - split; [intros [? H]; discriminate H|].
        intros H. do 2 apply Forall_cons_iff in H as [_ H].
        apply Forall_cons_iff in H as [H _]. contradiction.
      - discriminate.
      - intros e [= <-]. exists [("first", "Int"); ("after", "String")], "last", "Int",
          [("before", "String")].
        repeat split; [repeat constructor; assumption|exact H3]. }
  rewrite !Hfar in H3 by (cbn; discriminate).
  destruct (setMandatoryArg_cases
              (<[ "last" := paging "Int" ]>
                 (<[ "after" := paging "String" ]> (<[ "first" := paging "Int" ]> args)))
              "before" "String") as [[H4 ->]|[H4 ->]].
  2:{ rewrite !Hfar in H4 by (cbn; discriminate). split; [|split].
      - split; [intros [? H]; discriminate H|].
        intros H. do 3 apply Forall_cons_iff in H as [_ H].
        apply Forall_cons_iff in H as [H _]. contradiction.
      - discriminate.
      - intros e [= <-].
        exists [("first", "Int"); ("after", "String"); ("last", "Int")], "before",
          "String", [].
        repeat split; [repeat constructor; assumption|exact H4]. }
  rewrite !Hfar in H4 by (cbn; discriminate).
  split; [|split].
  - split; [intros _; repeat constructor; assumption|eauto].
  - intros args' [= <-].
    split; [rewrite !lookup_insert_ne by discriminate; apply lookup_insert_eq|].
    split; [rewrite !lookup_insert_ne by discriminate; apply lookup_insert_eq|].
    split; [rewrite !lookup_insert_ne by discriminate; apply lookup_insert_eq|].
    split; [apply lookup_insert_eq|].
    split.
    { intros k Hk. cbn in Hk.
      rewrite !lookup_insert_ne; [reflexivity| | | |]; intros <-; tauto. }
    assert (Hpass : forall (m : gmap string GraphQLArgumentConfig) argName type,
              m !! argName = Some (paging type) ->
              (type = "Int" \/ type = "String") ->
              setMandatoryArg m (argName, type) = inr m).
    { intros m argName type Hm Ht. unfold setMandatoryArg. rewrite Hm.
      fold (paging type).
      assert (Hd : declared (arg_type (paging type)) = Some type)
        by (destruct Ht as [-> | ->]; reflexivity).
      rewrite bool_decide_eq_false_2 by (intros Hne; apply Hne, Hd).
      rewrite insert_id by exact Hm. reflexivity. }
    cbn [forEach].
    rewrite Hpass by (first [left; reflexivity|right; reflexivity
                            |rewrite !lookup_insert_ne by discriminate;
                             apply lookup_insert_eq]).
    rewrite Hpass by (first [left; reflexivity|right; reflexivity
                            |rewrite !lookup_insert_ne by discriminate;
                             apply lookup_insert_eq]).
    rewrite Hpass by (first [left; reflexivity|right; reflexivity
                            |rewrite !lookup_insert_ne by discriminate;
                             apply lookup_insert_eq]).
    rewrite Hpass by (first [left; reflexivity|right; reflexivity
                            |apply lookup_insert_eq]).
    reflexivity.
  - discriminate.
Qed.

(** *** The references of an entity *)

Section RefsProperties.

Variable parseEntityRef : string -> thrown + CompoundEntityRef.
Variable toLowerCase : string -> string.

(** The relation has the type asked for, its target parses and is of
    the kind asked for. *)
Definition selected (relationType targetKind : option string) (relation : EntityRelation)
    : bool :=
  ofType relationType relation
  && match parseEntityRef (targetRef relation) with
     | inl _ => false
     | inr ref =>
         absent targetKind
         || bool_decide (Some (toLowerCase (ref_kind ref))
                         = option_map toLowerCase targetKind)
     end.

Lemma flatMap_ofKind targetKind rels :
  match flatMap (ofKind parseEntityRef toLowerCase targetKind) rels with
  | inr refs =>
      refs = map targetRef (List.filter (selected None targetKind) rels)
      /\ Forall (fun rel => exists ref, parseEntityRef (targetRef rel) = inr ref) rels
  | inl e =>
      exists parsed rel rest,
        rels = parsed ++ rel :: rest
        /\ Forall (fun rel => exists ref, parseEntityRef (targetRef rel) = inr ref) parsed
        /\ parseEntityRef (targetRef rel) = inl e
  end.
Proof.
  induction rels as [|rel rels IH]; cbn [flatMap]; [split; [reflexivity|constructor]|].
  unfold ofKind at 1. cbn [List.filter]. unfold selected at 1, ofType.
  cbn [absent orb andb].
  destruct (parseEntityRef (targetRef rel)) as [e|ref] eqn:Hparse; cbn beta iota.
  - exists [], rel, rels. split; [reflexivity|]. split; [constructor|exact Hparse].
  - destruct (flatMap _ rels) as [e|more]; cbn beta iota.
    + destruct IH as (parsed & bad & rest & -> & Hparsed & Hbad).
      exists (rel :: parsed), bad, rest. split; [reflexivity|].
      split; [constructor; eauto|exact Hbad].
    + destruct IH as [-> Hall]. split; [|constructor; eauto].
      destruct (absent targetKind || bool_decide _); reflexivity.
Qed.

Lemma filter_selected relationType targetKind rels :
  List.filter (selected None targetKind) (List.filter (ofType relationType) rels)
  = List.filter (selected relationType targetKind) rels.
Proof.
  induction rels as [|rel rels IH]; [reflexivity|]. cbn [List.filter].
  unfold selected at 2. destruct (ofType relationType rel); cbn [andb List.filter].
  - unfold selected at 1. cbn [ofType absent orb andb]. rewrite IH. reflexivity.
  - exact IH.
Qed.

(** X21: [filterEntityRefs] returns the empty list, and parses nothing,
    for an entity that is [undefined] or has no relations.  Otherwise it
    parses the target of every relation of the type asked for (of every
    relation when no type or the empty string is asked for), in order,
    and of no other relation: when they all parse it returns the targets,
    as they were written, in the order of the relations and with
    repetitions, of those whose parsed kind is the kind asked for up to
    letter case (of all of them when no kind or the empty string is asked
    for); when one does not parse it throws the error of the first that
    does not, also when no kind is asked for. *)
Theorem filterEntityRefs_selects entity relationType targetKind :
  (entity = None \/ (exists e, entity = Some e /\ relations e = None) ->
   filterEntityRefs parseEntityRef toLowerCase entity relationType targetKind = inr [])
  /\ forall e rels,
       entity = Some e -> relations e = Some rels ->
       match filterEntityRefs parseEntityRef toLowerCase entity relationType targetKind with
       | inr refs =>
           refs = map targetRef (List.filter (selected relationType targetKind) rels)
           /\ Forall (fun rel => exists ref, parseEntityRef (targetRef rel) = inr ref)
                (List.filter (ofType relationType) rels)
       | inl err =>
           exists parsed rel rest,
             List.filter (ofType relationType) rels = parsed ++ rel :: rest
             /\ Forall (fun rel => exists ref, parseEntityRef (targetRef rel) = inr ref)
                  parsed
             /\ parseEntityRef (targetRef rel) = inl err
       end.
Proof.
  split.
  - intros [->|(e & -> & Hnone)]; [reflexivity|]. cbn. rewrite Hnone. reflexivity.
  - intros e rels -> Hrels. cbn. rewrite Hrels.
    pose proof (flatMap_ofKind targetKind (List.filter (ofType relationType) rels)) as H.
    destruct (flatMap _ _) as [err|refs]; [exact H|].
    destruct H as [-> Hall]. rewrite filter_selected. auto.
Qed.

End RefsProperties.

(** A parser that knows one separator: the kind is what is before the
    first colon, and a reference without a colon is refused. *)
Fixpoint kind_before_colon (text : string) : option string :=
  match text with
  | EmptyString => None
  | String c rest =>
      if Ascii.eqb c (Ascii.ascii_of_nat 58) then Some ""
      else option_map (String c) (kind_before_colon rest)
  end.

Definition sample_parse (text : string) : thrown + CompoundEntityRef :=
  match kind_before_colon text with
  | Some k => inr {| ref_kind := k; ref_namespace := "default"; ref_name := text |}
  | None => inl (JsError "TypeError" "not an entity reference")
  end.

Definition sample_entity : Entity :=
  {| relations := Some [ {| rel_type := "ownedBy"; targetRef := "group:default/team-a" |};
                         {| rel_type := "partOf"; targetRef := "system:default/shop" |};
                         {| rel_type := "ownedBy"; targetRef := "user:default/ann" |} ] |}.

Lemma filterEntityRefs_selects_witness :
  filterEntityRefs sample_parse id (Some sample_entity) (Some "ownedBy") (Some "group")
  = inr ["group:default/team-a"].
Proof.
  destruct (filterEntityRefs_selects sample_parse id (Some sample_entity) (Some "ownedBy")
              (Some "group")) as [_ H].
  specialize (H sample_entity _ eq_refl eq_refl).
  destruct (filterEntityRefs sample_parse id (Some sample_entity) (Some "ownedBy")
              (Some "group")) as [err|refs] eqn:E.
  - vm_compute in E. discriminate E.
  - destruct H as [-> _]. vm_compute. reflexivity.
Defined.

(** *** Resolving a relation *)

(** X22: the resolver of a relation field that is not a connection
    answers, for a field that is a list or a non-null list, the nodes of
    all the selected relations of the loaded entity, in their order, and
    for any other field the node of the first selected relation, or
    [null] when none is selected; an entity that is not found gives the
    empty list or [null], not an error; the id of a node is made from the
    catalog source, the name of the field's named type and the target as
    written; and the resolver fails only when the loader does or a target
    of a relation of the type asked for does not parse. *)
Theorem relation_resolves_to_selected parseEntityRef toLowerCase encodeId source
    fieldType directiveName directiveKind :
  let node := encodeId source (name (unboxNamedType fieldType)) in
  let run := resolve parseEntityRef toLowerCase encodeId source fieldType
               directiveName directiveKind in
  (forall e, run (inl e) = inl e)
  /\ run (inr None) = inr (if isList fieldType then Nodes [] else Null)
  /\ forall entity rels,
       relations entity = Some rels ->
       match run (inr (Some entity)) with
       | inr answer =>
           let chosen :=
             List.filter (selected parseEntityRef toLowerCase directiveName directiveKind)
               rels in
           answer
           = (if isList fieldType
              then Nodes (map (fun rel => node (targetRef rel)) chosen)
              else match chosen with
                   | rel :: _ => Node (node (targetRef rel))
                   | [] => Null
                   end)
       | inl err =>
           exists rel,
             In rel rels /\ ofType directiveName rel = true
             /\ parseEntityRef (targetRef rel) = inl err
       end.
Proof.
  cbv zeta. split; [reflexivity|]. split; [cbn; destruct (isList fieldType); reflexivity|].
  intros entity rels Hrels. unfold resolve, filterEntityRefs. rewrite Hrels.
  pose proof (flatMap_ofKind parseEntityRef toLowerCase directiveKind
                (List.filter (ofType directiveName) rels)) as H.
  destruct (flatMap _ _) as [err|refs].
  - destruct H as (parsed & rel & rest & Hsplit & _ & Hbad).
    exists rel.
    assert (Hin : In rel (List.filter (ofType directiveName) rels))
      by (rewrite Hsplit; apply in_or_app; right; left; reflexivity).
    apply filter_In in Hin as [Hin Htype]. auto.
  - destruct H as [-> _]. rewrite filter_selected, map_map.
    destruct (isList fieldType); [reflexivity|].
    destruct (List.filter _ rels); reflexivity.
Qed.

End Relation.
